(** * QAlgorithm: the dataflow engine of DottD/QAlgorithm, embedded in Rocq

    The development follows [Sources/QAlgorithm.cpp], [Sources/QAlgorithm.h]
    and [Sources/qa_macros.h].  A node of the algorithm tree is a record, the
    shared pointers that the C++ code passes around are indices into a heap of
    nodes, and every method that mutates a node is a computation over that
    heap.  Signals that the code emits, calls of [run] and [qWarning] lines are
    recorded in a log, so that statements about what was executed, and in which
    order, can be made about the final state. *)

From stdpp Require Import base list strings.
From Stdlib Require Import ZArith Lia.

Local Open Scope string_scope.
Local Open Scope list_scope.
Local Open Scope nat_scope.

(** ** Dynamically typed cells (QVariant) *)

Inductive QType :=
| TBool | TInt | TString | TVector | TRules | TCompletion | TVariant.

(** [QMultiMap<QString, QString>]: the list keeps, among equal keys, the most
    recently inserted pair first, which is the order [values(key)] reports.
    The relative order of different keys is not observed by the engine. *)
Definition QAPropagationRules := list (string * string).

(** [QMap<QAShrAlgorithm, bool>]: an association list kept sorted by key, the
    key being the address (heap index) of the neighbour. *)
Definition QACompletionMap := list (nat * bool).

(** A [QVariant].  Numeric payloads are integers; vectors are vectors of
    integers. *)
Inductive QVariant :=
| QInvalid
| QBool (b : bool)
| QInt (z : Z)
| QString (s : string)
| QVector (l : list Z)
| QRules (r : QAPropagationRules)
| QCompletion (m : QACompletionMap).

Definition isValid (v : QVariant) : bool :=
  match v with QInvalid => false | _ => true end.

Definition userType (v : QVariant) : option QType :=
  match v with
  | QInvalid => None
  | QBool _ => Some TBool
  | QInt _ => Some TInt
  | QString _ => Some TString
  | QVector _ => Some TVector
  | QRules _ => Some TRules
  | QCompletion _ => Some TCompletion
  end.

Definition QType_eqb (a b : QType) : bool :=
  match a, b with
  | TBool, TBool | TInt, TInt | TString, TString | TVector, TVector
  | TRules, TRules | TCompletion, TCompletion | TVariant, TVariant => true
  | _, _ => false
  end.

(** ** Strings: the few QString operations the engine uses *)

Definition QA_IN : string := "algin_".
Definition QA_OUT : string := "algout_".
Definition QA_PAR : string := "par_".

Definition startsWith (s p : string) : bool := String.prefix p s.

(** [QString::mid(pos)]: the string from position [pos] to the end. *)
Definition mid (s : string) (pos : nat) : string :=
  String.substring pos (String.length s - pos) s.

(** [QString::contains(sub)], case sensitive. *)
Fixpoint contains (s sub : string) : bool :=
  String.prefix sub s ||
  match s with
  | EmptyString => false
  | String _ s' => contains s' sub
  end.

(** [QStringList::filter(str)]: the strings that contain [str]. *)
Definition QStringList_filter (l : list string) (str : string) : list string :=
  List.filter (fun s => contains s str) l.

(** ** Completion maps *)

Module CompletionMap.

(** [map[k] = v] *)
Fixpoint insert (k : nat) (v : bool) (m : QACompletionMap) : QACompletionMap :=
  match m with
  | [] => [(k, v)]
  | (k', v') :: m' =>
      if k <? k' then (k, v) :: m
      else if k =? k' then (k, v) :: m'
      else (k', v') :: insert k v m'
  end.

(** [map.remove(k)] *)
Definition remove (k : nat) (m : QACompletionMap) : QACompletionMap :=
  List.filter (fun p => negb (fst p =? k)) m.

Definition contains (k : nat) (m : QACompletionMap) : bool :=
  existsb (fun p => fst p =? k) m.

Definition keys (m : QACompletionMap) : list nat := map fst m.

Definition values (m : QACompletionMap) : list bool := map snd m.

(** [map.keys(v)]: the keys whose value is [v], in key order. *)
Definition keys_of (v : bool) (m : QACompletionMap) : list nat :=
  map fst (List.filter (fun p => Bool.eqb (snd p) v) m).

Definition count (m : QACompletionMap) : nat := length m.

End CompletionMap.

(** ** Propagation rules *)

Module Rules.

Definition contains (r : QAPropagationRules) (key : string) : bool :=
  existsb (fun p => String.eqb (fst p) key) r.

Definition values (r : QAPropagationRules) (key : string) : list string :=
  map snd (List.filter (fun p => String.eqb (fst p) key) r).

(** [QMultiMap::insert]: a new pair, ahead of the older ones of its key. *)
Definition insert (key value : string) (r : QAPropagationRules)
  : QAPropagationRules := (key, value) :: r.

(** [QAlgorithm::makePropagationRules]: the multimap built from an
    initializer list inserts the pairs one after the other. *)
Definition makePropagationRules (pairs : list (string * string))
  : QAPropagationRules :=
  fold_left (fun r p => insert (fst p) (snd p) r) pairs [].

End Rules.

(** ** Nodes *)

(** A property that a subclass declares with [QA_INPUT], [QA_OUTPUT] or
    [QA_PARAMETER]: its full name (prefix included), its declared type and the
    cell that holds its value.  The list forms [QA_INPUT_LIST] and
    [QA_INPUT_VEC] are outside the model. *)
Record QMember := {
  mname : string;
  mtype : QType;
  mvalue : QVariant
}.

Record QAlgorithm := {
  className : string;
  objectName : string;
  par_KeepInput : bool;
  par_PropagationRules : QAPropagationRules;
  par_ParallelExecution : bool;
  finished : bool;
  started : bool;
  ancestors : QACompletionMap;
  descendants : QACompletionMap;
  members : list QMember
}.

Definition getKeepInput := par_KeepInput.
Definition getPropagationRules := par_PropagationRules.
Definition getParallelExecution := par_ParallelExecution.
Definition isFinished := finished.
Definition isStarted := started.
Definition getAncestors := ancestors.
Definition getDescendants := descendants.

Definition set_members (ms : list QMember) (q : QAlgorithm) : QAlgorithm :=
  {| className := className q; objectName := objectName q;
     par_KeepInput := par_KeepInput q;
     par_PropagationRules := par_PropagationRules q;
     par_ParallelExecution := par_ParallelExecution q;
     finished := finished q; started := started q;
     ancestors := ancestors q; descendants := descendants q;
     members := ms |}.

Definition set_objectName (s : string) (q : QAlgorithm) : QAlgorithm :=
  {| className := className q; objectName := s;
     par_KeepInput := par_KeepInput q;
     par_PropagationRules := par_PropagationRules q;
     par_ParallelExecution := par_ParallelExecution q;
     finished := finished q; started := started q;
     ancestors := ancestors q; descendants := descendants q;
     members := members q |}.

Definition setKeepInput (b : bool) (q : QAlgorithm) : QAlgorithm :=
  {| className := className q; objectName := objectName q;
     par_KeepInput := b;
     par_PropagationRules := par_PropagationRules q;
     par_ParallelExecution := par_ParallelExecution q;
     finished := finished q; started := started q;
     ancestors := ancestors q; descendants := descendants q;
     members := members q |}.

Definition setPropagationRules (r : QAPropagationRules) (q : QAlgorithm)
  : QAlgorithm :=
  {| className := className q; objectName := objectName q;
     par_KeepInput := par_KeepInput q;
     par_PropagationRules := r;
     par_ParallelExecution := par_ParallelExecution q;
     finished := finished q; started := started q;
     ancestors := ancestors q; descendants := descendants q;
     members := members q |}.

Definition setParallelExecution (b : bool) (q : QAlgorithm) : QAlgorithm :=
  {| className := className q; objectName := objectName q;
     par_KeepInput := par_KeepInput q;
     par_PropagationRules := par_PropagationRules q;
     par_ParallelExecution := b;
     finished := finished q; started := started q;
     ancestors := ancestors q; descendants := descendants q;
     members := members q |}.

Definition set_finished (b : bool) (q : QAlgorithm) : QAlgorithm :=
  {| className := className q; objectName := objectName q;
     par_KeepInput := par_KeepInput q;
     par_PropagationRules := par_PropagationRules q;
     par_ParallelExecution := par_ParallelExecution q;
     finished := b; started := started q;
     ancestors := ancestors q; descendants := descendants q;
     members := members q |}.

Definition set_started (b : bool) (q : QAlgorithm) : QAlgorithm :=
  {| className := className q; objectName := objectName q;
     par_KeepInput := par_KeepInput q;
     par_PropagationRules := par_PropagationRules q;
     par_ParallelExecution := par_ParallelExecution q;
     finished := finished q; started := b;
     ancestors := ancestors q; descendants := descendants q;
     members := members q |}.

Definition set_ancestors (m : QACompletionMap) (q : QAlgorithm) : QAlgorithm :=
  {| className := className q; objectName := objectName q;
     par_KeepInput := par_KeepInput q;
     par_PropagationRules := par_PropagationRules q;
     par_ParallelExecution := par_ParallelExecution q;
     finished := finished q; started := started q;
     ancestors := m; descendants := descendants q;
     members := members q |}.

Definition set_descendants (m : QACompletionMap) (q : QAlgorithm) : QAlgorithm :=
  {| className := className q; objectName := objectName q;
     par_KeepInput := par_KeepInput q;
     par_PropagationRules := par_PropagationRules q;
     par_ParallelExecution := par_ParallelExecution q;
     finished := finished q; started := started q;
     ancestors := ancestors q; descendants := m;
     members := members q |}.

(** [allInputsReady]: no ancestor is recorded as unfinished. *)
Definition allInputsReady (q : QAlgorithm) : bool :=
  negb (existsb negb (CompletionMap.values (getAncestors q))).

(** *** The meta-object: property names, reads and writes *)

(** Properties that the classes [QObject] and [QAlgorithm] declare, in the
    order of their declaration. *)
Definition baseProperties : list string :=
  [ "objectName"; "par_KeepInput"; "par_PropagationRules";
    "par_ParallelExecution"; "finished"; "started"; "ancestors";
    "descendants" ].

(** [metaObject()->property(k).name()] for k = 0 .. propertyCount()-1: the
    inherited properties come first. *)
Definition propertyNames (q : QAlgorithm) : list string :=
  baseProperties ++ map mname (members q).

Definition find_member (name : string) (ms : list QMember) : option QMember :=
  List.find (fun m => String.eqb (mname m) name) ms.

(** [QObject::property(name)]: the most derived class is searched first. *)
Definition property (q : QAlgorithm) (name : string) : QVariant :=
  match find_member name (members q) with
  | Some m => mvalue m
  | None =>
      if String.eqb name "objectName" then QString (objectName q)
      else if String.eqb name "par_KeepInput" then QBool (par_KeepInput q)
      else if String.eqb name "par_PropagationRules"
           then QRules (par_PropagationRules q)
      else if String.eqb name "par_ParallelExecution"
           then QBool (par_ParallelExecution q)
      else if String.eqb name "finished" then QBool (finished q)
      else if String.eqb name "started" then QBool (started q)
      else if String.eqb name "ancestors" then QCompletion (ancestors q)
      else if String.eqb name "descendants" then QCompletion (descendants q)
      else QInvalid
  end.

(** Modelled from the spec: the type check of a write, which Qt performs
    inside [QObject::setProperty].  A cell of declared type [t] takes the
    value [v]: the empty cell is always accepted (it resets the slot),
    otherwise the tags have to agree. *)
Definition accepts (t : QType) (v : QVariant) : bool :=
  match userType v with
  | None => true
  | Some t' => QType_eqb t TVariant || QType_eqb t t'
  end.

Fixpoint write_member (name : string) (v : QVariant) (ms : list QMember)
  : option (list QMember) :=
  match ms with
  | [] => None
  | m :: ms' =>
      if String.eqb (mname m) name then
        if accepts (mtype m) v
        then Some ({| mname := mname m; mtype := mtype m; mvalue := v |} :: ms')
        else None
      else option_map (cons m) (write_member name v ms')
  end.

(** Modelled from the spec: [QObject::setProperty] is Qt's and not part of the
    repository; "writes check the cell tag against the slot's declared type",
    and clearing a slot stores the empty cell.  [None] stands for the result
    [false]: the property is unknown, read-only, or of another type. *)
Definition setProperty (q : QAlgorithm) (name : string) (v : QVariant)
  : option QAlgorithm :=
  match find_member name (members q) with
  | Some _ => option_map (fun ms => set_members ms q)
                         (write_member name v (members q))
  | None =>
      if String.eqb name "objectName" then
        match v with QString s => Some (set_objectName s q) | _ => None end
      else if String.eqb name "par_KeepInput" then
        match v with QBool b => Some (setKeepInput b q) | _ => None end
      else if String.eqb name "par_PropagationRules" then
        match v with QRules r => Some (setPropagationRules r q) | _ => None end
      else if String.eqb name "par_ParallelExecution" then
        match v with QBool b => Some (setParallelExecution b q) | _ => None end
      else None
  end.

(** ** Rule resolution (the first half of [getInput]'s loop body) *)

(** The base name of a parent property that takes part in propagation:
    outputs and parameters. *)
Definition parentPropBaseName (parentPropName : string) : option string :=
  if startsWith parentPropName QA_OUT
  then Some (mid parentPropName (String.length QA_OUT))
  else if startsWith parentPropName QA_PAR
  then Some (mid parentPropName (String.length QA_PAR))
  else None.

(** Lines 209-228 of QAlgorithm.cpp.  [None] is [first()] called on an empty
    list. *)
Definition childPropBaseName (rules : QAPropagationRules)
    (parentObjectName parentPropBaseName : string) : option string :=
  if negb (Rules.contains rules parentPropBaseName)
  then Some parentPropBaseName
  else
    let values := Rules.values rules parentPropBaseName in
    if 1 <? length values
    then head (QStringList_filter values parentObjectName)
    else head values.

(** ** The state of the application *)

(** What [qWarning] prints. *)
Inductive Diagnostic :=
| SetFailed (child : nat) (childPropName : string)
| ReadFailed (parent : nat) (parentPropName : string)
| NoConnection (node : nat)
| PossibleLoop (node : nat).

(** Observable happenings, in the order in which they occur. *)
Inductive Signal :=
| JustStarted (node : nat)
| JustFinished (node : nat)
| Raise (node : nat) (message : string)
| RunCalled (node : nat)
| Warning (d : Diagnostic).

(** Calls that wait in the event queue of the thread the nodes live in: the
    [abort] slots reached through a [Qt::QueuedConnection], and the
    [finished] notification of a node's [QFutureWatcher]. *)
Inductive Event :=
| AbortCall (receiver : nat) (message : string)
| WatcherFinished (node : nat).

Record State := {
  heap : list QAlgorithm;        (* the nodes; a shared pointer is an index *)
  wires : list (nat * nat);      (* sender.raise -> receiver.abort, queued *)
  events : list Event;           (* posted, not yet delivered *)
  pool : list nat;               (* [run] handed to QtConcurrent, not yet done *)
  log : list Signal
}.

Inductive Error :=
| NullPointer      (* a pointer outside the heap is dereferenced *)
| EmptyList        (* first() or last() of an empty list *)
| OutOfFuel.

Inductive Result (A : Type) :=
| Ok (a : A) (s : State)
| Fail (e : Error).
Arguments Ok {A} a s.
Arguments Fail {A} e.

Definition M (A : Type) : Type := State -> Result A.

Definition ret {A} (a : A) : M A := fun s => Ok a s.

Definition bind {A B} (c : M A) (k : A -> M B) : M B :=
  fun s => match c s with
           | Ok a s' => k a s'
           | Fail e => Fail e
           end.

Definition fail {A} (e : Error) : M A := fun _ => Fail e.

Declare Scope qa_scope.
Delimit Scope qa_scope with qa.
Notation "x ← y ; z" := (bind y (fun x => z))
  (at level 20, y at level 100, z at level 200, only parsing) : qa_scope.
Notation "x ;; z" := (bind x (fun _ => z))
  (at level 100, z at level 200, only parsing, right associativity) : qa_scope.
Local Open Scope qa_scope.

Definition with_heap (h : list QAlgorithm) (s : State) : State :=
  {| heap := h; wires := wires s; events := events s; pool := pool s;
     log := log s |}.

Definition with_wires (w : list (nat * nat)) (s : State) : State :=
  {| heap := heap s; wires := w; events := events s; pool := pool s;
     log := log s |}.

Definition with_events (e : list Event) (s : State) : State :=
  {| heap := heap s; wires := wires s; events := e; pool := pool s;
     log := log s |}.

Definition with_pool (p : list nat) (s : State) : State :=
  {| heap := heap s; wires := wires s; events := events s; pool := p;
     log := log s |}.

Definition with_log (l : list Signal) (s : State) : State :=
  {| heap := heap s; wires := wires s; events := events s; pool := pool s;
     log := l |}.

(** [*p] *)
Definition node (p : nat) : M QAlgorithm :=
  fun s => match heap s !! p with
           | Some q => Ok q s
           | None => Fail NullPointer
           end.

(** [p->field = ...] *)
Definition update (p : nat) (f : QAlgorithm -> QAlgorithm) : M unit :=
  fun s => match heap s !! p with
           | Some q => Ok tt (with_heap (<[p := f q]> (heap s)) s)
           | None => Fail NullPointer
           end.

Definition emit (sg : Signal) : M unit :=
  fun s => Ok tt (with_log (log s ++ [sg]) s).

Definition qWarning (d : Diagnostic) : M unit := emit (Warning d).

Definition post (e : Event) : M unit :=
  fun s => Ok tt (with_events (events s ++ [e]) s).

Definition lift {A} (e : Error) (o : option A) : M A :=
  match o with Some a => ret a | None => fail e end.

(** [foreach (x, l) body] *)
Fixpoint foreach {A} (l : list A) (body : A -> M unit) : M unit :=
  match l with
  | [] => ret tt
  | x :: l' => body x ;; foreach l' body
  end.

(** ** Connections *)

Definition connect (sender receiver : nat) : M unit :=
  fun s => Ok tt (with_wires (wires s ++ [(sender, receiver)]) s).

Definition disconnect (sender receiver : nat) : M unit :=
  fun s => Ok tt (with_wires
    (List.filter (fun w => negb ((fst w =? sender) && (snd w =? receiver)))
                 (wires s)) s).

Definition setConnection (ancestor descendant : nat) : M unit :=
  d ← node descendant;
  update ancestor (fun a =>
    set_descendants
      (CompletionMap.insert descendant (isFinished d) (descendants a)) a) ;;
  a ← node ancestor;
  update descendant (fun d =>
    set_ancestors
      (CompletionMap.insert ancestor (isFinished a) (ancestors d)) d) ;;
  connect ancestor descendant ;;
  connect descendant ancestor.

Definition closeConnection (ancestor descendant : nat) : M unit :=
  update ancestor (fun a =>
    set_descendants (CompletionMap.remove descendant (descendants a)) a) ;;
  update descendant (fun d =>
    set_ancestors (CompletionMap.remove ancestor (ancestors d)) d) ;;
  disconnect ancestor descendant ;;
  disconnect descendant ancestor.

(** [checkConnection]: the right operand of [&&] is evaluated, and the
    descendant looked at, only when the left one holds. *)
Definition checkConnection (ancestor descendant : nat) : M bool :=
  a ← node ancestor;
  if CompletionMap.contains descendant (getDescendants a) then
    d ← node descendant;
    ret (CompletionMap.contains ancestor (getAncestors d))
  else ret false.

Definition isRemovableConnection (p1 p2 : nat) : M bool :=
  c21 ← checkConnection p2 p1;
  if c21 then
    q2 ← node p2;
    q1 ← node p1;
    ret ((CompletionMap.count (getDescendants q2) =? 1)
         && (CompletionMap.count (getAncestors q1) =? 1))
  else
    c12 ← checkConnection p1 p2;
    if c12 then
      q1 ← node p1;
      q2 ← node p2;
      ret ((CompletionMap.count (getDescendants q1) =? 1)
           && (CompletionMap.count (getAncestors q2) =? 1))
    else ret false.

(** ** The error channel *)

(** [Q_EMIT raise(message)]: the signal is recorded, and one call of [abort] is
    posted for every queued connection that starts at the emitter. *)
Definition raise (sender : nat) (message : string) : M unit :=
  emit (Raise sender message) ;;
  (fun s => foreach
     (List.filter (fun w => fst w =? sender) (wires s))
     (fun w => post (AbortCall (snd w) message)) s).

Definition abort (this : nat) (message : string) : M unit :=
  raise this message.

(** [abort()], with the default argument of the declaration. *)
Definition abort_default (this : nat) : M unit :=
  abort this "Unknown Error".

(** ** Shared pointers to [this] *)

(** [findAncestor(ptr)] and [findDescendant(ptr)] scan the keys of a
    completion map for the pointer. *)
Definition findAncestor (q : QAlgorithm) (ancestor : nat) : option nat :=
  List.find (fun k => k =? ancestor) (CompletionMap.keys (getAncestors q)).

Definition findDescendant (q : QAlgorithm) (descendant : nat) : option nat :=
  List.find (fun k => k =? descendant) (CompletionMap.keys (getDescendants q)).

Fixpoint first_found (l : list nat) (look : QAlgorithm -> option nat)
  : M (option nat) :=
  match l with
  | [] => ret None
  | p :: l' =>
      q ← node p;
      match look q with
      | Some shr_this => ret (Some shr_this)
      | None => first_found l' look
      end
  end.

Definition findSharedThis (this : nat) : M (option nat) :=
  q ← node this;
  among_descendants ←
    first_found (CompletionMap.keys (getDescendants q))
                (fun descendant => findAncestor descendant this);
  match among_descendants with
  | Some shr_this => ret (Some shr_this)
  | None =>
      first_found (CompletionMap.keys (getAncestors q))
                  (fun ancestor => findDescendant ancestor this)
  end.

(** ** Transfer of a parent's outputs and parameters: [getInput] *)

(** The test of line 240. *)
Definition is_target (childPropName t : string) : bool :=
  String.eqb childPropName (QA_IN +:+ t)
  || String.eqb childPropName (QA_PAR +:+ t).

(** The inner loop (lines 235-257): every property of the child whose name is
    the resolved base name with the input or parameter prefix receives the
    parent's value.  The result [false] is the [return false] of the code. *)
Fixpoint getInput_scan (child parent : nat)
    (parentPropName childPropBase : string) (childProps : list string)
  : M bool :=
  match childProps with
  | [] => ret true
  | childPropName :: rest =>
      if is_target childPropName childPropBase then
        p ← node parent;
        let parentProp := property p parentPropName in
        if isValid parentProp then
          c ← node child;
          match setProperty c childPropName parentProp with
          | Some c' =>
              update child (fun _ => c') ;;
              getInput_scan child parent parentPropName childPropBase rest
          | None =>
              qWarning (SetFailed child childPropName) ;;
              ret false
          end
        else
          qWarning (ReadFailed parent parentPropName) ;;
          ret false
      else getInput_scan child parent parentPropName childPropBase rest
  end.

(** One turn of the outer loop (lines 194-257) for the parent property
    [parentPropName]; [true] when the loop goes on. *)
Definition getInput_property (child parent : nat) (parentPropName : string)
  : M bool :=
  match parentPropBaseName parentPropName with
  | None => ret true
  | Some base =>
      c ← node child;
      p ← node parent;
      childPropBase ←
        lift EmptyList
             (childPropBaseName (getPropagationRules c) (objectName p) base);
      if startsWith parentPropName QA_PAR
         && negb (Rules.contains (getPropagationRules c) base)
      then ret true
      else getInput_scan child parent parentPropName childPropBase
                         (propertyNames c)
  end.

Fixpoint getInput_loop (child parent : nat) (parentProps : list string)
  : M bool :=
  match parentProps with
  | [] => ret true
  | parentPropName :: rest =>
      continue ← getInput_property child parent parentPropName;
      if continue then getInput_loop child parent rest else ret false
  end.

(** [child->getInput(parent)] *)
Definition getInput (child parent : nat) : M bool :=
  p ← node parent;
  getInput_loop child parent (propertyNames p).

(** ** Flat representation and the optimiser *)

(** [QMap<QAShrAlgorithm, QSet<QAShrAlgorithm>>], sorted by key.  A [QSet] is a
    duplicate-free list. *)
Definition QAFlatRepresentation := list (nat * list nat).

Module Flat.

Definition contains {V} (k : nat) (t : list (nat * V)) : bool :=
  existsb (fun p => fst p =? k) t.

Definition keys {V} (t : list (nat * V)) : list nat := map fst t.

Definition values {V} (t : list (nat * V)) : list V := map snd t.

(** [t.value(k)]: the default-constructed value when the key is absent. *)
Definition value {V} (k : nat) (t : list (nat * list V)) : list V :=
  match List.find (fun p => fst p =? k) t with
  | Some p => snd p
  | None => []
  end.

(** [t[k] = v] *)
Fixpoint insert {V} (k : nat) (v : V) (t : list (nat * V)) : list (nat * V) :=
  match t with
  | [] => [(k, v)]
  | (k', v') :: t' =>
      if k <? k' then (k, v) :: t
      else if k =? k' then (k, v) :: t'
      else (k', v') :: insert k v t'
  end.

Definition remove {V} (k : nat) (t : list (nat * V)) : list (nat * V) :=
  List.filter (fun p => negb (fst p =? k)) t.

(** [set << x] *)
Definition set_add (x : nat) (l : list nat) : list nat :=
  if existsb (Nat.eqb x) l then l else l ++ [x].

End Flat.

(** Threading a value through a loop. *)
Fixpoint foldM {A B} (l : list A) (acc : B) (body : B -> A -> M B) : M B :=
  match l with
  | [] => ret acc
  | x :: l' => acc' ← body acc x; foldM l' acc' body
  end.

Fixpoint flattenTree (fuel : nat) (this : nat) (tree : QAFlatRepresentation)
  : M QAFlatRepresentation :=
  match fuel with
  | 0 => fail OutOfFuel
  | S fuel' =>
      if negb (Flat.contains this tree) then
        shr ← findSharedThis this;
        match shr with
        | None => qWarning (NoConnection this) ;; ret tree
        | Some shr_this =>
            q ← node this;
            let tree0 := Flat.insert shr_this [] tree in
            let tree1 :=
              fold_left
                (fun t descendant =>
                   Flat.insert shr_this
                     (Flat.set_add descendant (Flat.value shr_this t)) t)
                (CompletionMap.keys (getDescendants q)) tree0 in
            foldM (CompletionMap.keys (getDescendants q)
                   ++ CompletionMap.keys (getAncestors q))
                  tree1
                  (fun t relative =>
                     if negb (Flat.contains relative t)
                     then flattenTree fuel' relative t
                     else ret t)
        end
      else qWarning (PossibleLoop this) ;; ret tree
  end.

(** The first loop of [improveTree]: the removable connections of the flat
    map, keyed by their parent. *)
Definition removableConnections (flatMap : QAFlatRepresentation)
  : M (list (nat * list nat)) :=
  foldM (Flat.keys flatMap) []
    (fun replacements ptr =>
       foldM (Flat.value ptr flatMap) replacements
         (fun replacements child =>
            removable ← isRemovableConnection ptr child;
            if removable
            then ret (Flat.insert ptr (Flat.value ptr replacements ++ [child])
                                  replacements)
            else ret replacements)).

(** One pass of the [foreach] inside the [while] loop: the first key whose
    list ends in another key.  [None] when no key qualifies; an empty list
    makes [last()] fail. *)
Fixpoint linkable (ks : list nat) (replacements : list (nat * list nat))
  : option (option (nat * nat)) :=
  match ks with
  | [] => Some None
  | p1 :: ks' =>
      match last (Flat.value p1 replacements) with
      | None => None
      | Some p2 =>
          if Flat.contains p2 replacements then Some (Some (p1, p2))
          else linkable ks' replacements
      end
  end.

(** The [while (some_changes)] loop.  In [replacements[p1] +=
    replacements.take(p2)] the right operand is evaluated first. *)
Fixpoint linkChains (fuel : nat) (replacements : list (nat * list nat))
  : M (list (nat * list nat)) :=
  match fuel with
  | 0 => fail OutOfFuel
  | S fuel' =>
      found ← lift EmptyList (linkable (Flat.keys replacements) replacements);
      match found with
      | None => ret replacements
      | Some (p1, p2) =>
          let taken := Flat.value p2 replacements in
          let rest := Flat.remove p2 replacements in
          linkChains fuel' (Flat.insert p1 (Flat.value p1 rest ++ taken) rest)
      end
  end.

Definition improveTree (fuel : nat) (leaf : nat) : M unit :=
  flatMap ← flattenTree fuel leaf [];
  replacements ← removableConnections flatMap;
  replacements ← linkChains fuel replacements;
  foreach (Flat.values replacements)
    (fun nodes =>
       foreach (removelast nodes)
         (fun node => update node (setParallelExecution false))).

(** ** The schedulers *)

Section Scheduler.

(** The [run] procedure of the subclasses, selected by the class of the
    node: from the node as it stands, the new contents of its member cells
    and the messages of the [abort] calls it makes. *)
Variable run : QAlgorithm -> list QMember * list string.

Definition setStarted (this : nat) : M unit :=
  update this (set_started true) ;;
  emit (JustStarted this).

Definition call_run (this : nat) : M unit :=
  emit (RunCalled this) ;;
  q ← node this;
  update this (set_members (fst (run q))) ;;
  foreach (snd (run q)) (abort this).

(** [QtConcurrent::run(this, &QAlgorithm::run)]: the call is handed to the
    pool. *)
Definition dispatch (this : nat) : M unit :=
  fun s => Ok tt (with_pool (pool s ++ [this]) s).

Fixpoint parallelExecution (fuel : nat) (this : nat) : M unit :=
  match fuel with
  | 0 => fail OutOfFuel
  | S fuel' =>
      q ← node this;
      if allInputsReady q then
        setStarted this ;;
        dispatch this
      else
        foreach (CompletionMap.keys_of false (getAncestors q))
          (fun ancestor =>
             a ← node ancestor;
             if negb (isStarted a) then parallelExecution fuel' ancestor
             else ret tt)
  end.

(** Setting each input property to null (lines 170-176). *)
Definition clearInputs (q : QAlgorithm) : QAlgorithm :=
  fold_left
    (fun q name =>
       if startsWith name QA_IN
       then match setProperty q name QInvalid with
            | Some q' => q'
            | None => q
            end
       else q)
    (propertyNames q) q.

(** [serialExecution] and the slot [propagateExecution], which [setup]
    connects to [justFinished]; [setFinished] is inlined where the signal
    is emitted. *)
Fixpoint serialExecution (fuel : nat) (this : nat) : M unit :=
  match fuel with
  | 0 => fail OutOfFuel
  | S fuel' =>
      q ← node this;
      (if negb (allInputsReady q) then
         foreach (CompletionMap.keys_of false (getAncestors q))
           (fun ancestor =>
              a ← node ancestor;
              if negb (isStarted a) then serialExecution fuel' ancestor
              else ret tt)
       else ret tt) ;;
      update this (setParallelExecution false) ;;
      setStarted this ;;
      call_run this ;;
      update this (set_finished true) ;;
      emit (JustFinished this) ;;
      propagateExecution fuel' this
  end

with propagateExecution (fuel : nat) (this : nat) : M unit :=
  match fuel with
  | 0 => fail OutOfFuel
  | S fuel' =>
      shr ← findSharedThis this;
      match shr with
      | None => ret tt
      | Some shr_this =>
          q ← node this;
          foreach (CompletionMap.keys (getAncestors q))
            (fun ancestor =>
               update ancestor (fun a =>
                 set_descendants
                   (CompletionMap.insert shr_this true (descendants a)) a)) ;;
          q ← node this;
          foreach (CompletionMap.keys (getDescendants q))
            (fun descendant =>
               update descendant (fun d =>
                 set_ancestors
                   (CompletionMap.insert shr_this true (ancestors d)) d) ;;
               _ ← getInput descendant shr_this;
               d ← node descendant;
               (if negb (getKeepInput d) then
                  closeConnection shr_this descendant ;;
                  update this clearInputs
                else ret tt) ;;
               d ← node descendant;
               if negb (isStarted d) then
                 q ← node this;
                 if getParallelExecution q
                 then parallelExecution fuel' descendant
                 else serialExecution fuel' descendant
               else ret tt)
      end
  end.

(** [setFinished], as the watcher of a finished future calls it. *)
Definition setFinished (fuel : nat) (this : nat) : M unit :=
  update this (set_finished true) ;;
  emit (JustFinished this) ;;
  propagateExecution fuel this.

(** *** The event loop and the worker pool

    One schedule of the concurrent system: posted events are delivered in
    the order of their posting, and when the queue is empty the oldest task
    of the pool runs to its end and its watcher posts the notification. *)
Definition deliver (fuel : nat) (e : Event) : M unit :=
  match e with
  | AbortCall receiver message => abort receiver message
  | WatcherFinished n => setFinished fuel n
  end.

Fixpoint exec (fuel : nat) : M unit :=
  match fuel with
  | 0 => fail OutOfFuel
  | S fuel' =>
      fun s =>
        match events s, pool s with
        | e :: es, _ =>
            (deliver fuel' e ;; exec fuel') (with_events es s)
        | [], n :: ns =>
            (call_run n ;; post (WatcherFinished n) ;; exec fuel')
              (with_pool ns s)
        | [], [] => Ok tt s
        end
  end.

End Scheduler.

(** ** Building graphs *)

(** A node as its constructor and [setup] leave it: the defaults of the
    header, no neighbour. *)
Definition newNode (cls nickname : string) (ms : list QMember) : QAlgorithm :=
  {| className := cls; objectName := nickname;
     par_KeepInput := false;
     par_PropagationRules := [];
     par_ParallelExecution := true;
     finished := false; started := false;
     ancestors := []; descendants := [];
     members := ms |}.

(** An application that has allocated the given nodes and nothing else. *)
Definition initial (nodes : list QAlgorithm) : State :=
  {| heap := nodes; wires := []; events := []; pool := []; log := [] |}.

Inductive GraphOp :=
| Connect (ancestor descendant : nat)
| Disconnect (ancestor descendant : nat).

Definition apply_op (op : GraphOp) : M unit :=
  match op with
  | Connect a d => setConnection a d
  | Disconnect a d => closeConnection a d
  end.

Definition apply_ops (ops : list GraphOp) : M unit := foreach ops apply_op.

(** The state in which a computation ends; the state it started from when it
    failed. *)
Definition final {A} (c : M A) (s : State) : State :=
  match c s with
  | Ok _ s' => s'
  | Fail _ => s
  end.

(** The adjacency of a heap. *)
Definition descendants_of (h : list QAlgorithm) (p : nat) : QACompletionMap :=
  match h !! p with Some q => getDescendants q | None => [] end.

Definition ancestors_of (h : list QAlgorithm) (p : nat) : QACompletionMap :=
  match h !! p with Some q => getAncestors q | None => [] end.

(** [d] is among the descendants of [a] exactly when [a] is among the
    ancestors of [d]. *)
Definition symmetric (h : list QAlgorithm) : Prop :=
  forall a d,
    CompletionMap.contains d (descendants_of h a)
    = CompletionMap.contains a (ancestors_of h d).

(** How often [run] was called on a node. *)
Definition runs_of (n : nat) (l : list Signal) : nat :=
  length (List.filter
            (fun sg => match sg with RunCalled m => m =? n | _ => false end) l).

(** The nodes on which [run] was called, in order. *)
Definition runs (l : list Signal) : list nat :=
  omap (fun sg => match sg with RunCalled m => Some m | _ => None end) l.

(** Some [run] of node [n] is called after [n] has emitted [raise]. *)
Fixpoint run_after_raise (n : nat) (l : list Signal) : bool :=
  match l with
  | [] => false
  | Raise m _ :: l' =>
      if m =? n then 0 <? runs_of n l' else run_after_raise n l'
  | _ :: l' => run_after_raise n l'
  end.

(** *** Example classes *)

Definition cell (name : string) (t : QType) (v : QVariant) : QMember :=
  {| mname := name; mtype := t; mvalue := v |}.

Definition write_or_keep (name : string) (v : QVariant) (ms : list QMember)
  : list QMember :=
  match write_member name v ms with
  | Some ms' => ms'
  | None => ms
  end.

(** [Source] writes 5 to its output, [Copy] writes its input to its output,
    [Faulty] calls [abort] and leaves its cells alone. *)
Definition exampleRun (q : QAlgorithm) : list QMember * list string :=
  if String.eqb (className q) "Source" then
    (write_or_keep "algout_X" (QInt 5) (members q), [])
  else if String.eqb (className q) "Copy" then
    (write_or_keep "algout_X" (property q "algin_X") (members q), [])
  else if String.eqb (className q) "Faulty" then
    (members q, ["amount must be positive"])
  else (members q, []).

Definition Source : QAlgorithm :=
  newNode "Source" "" [cell "algout_X" TInt QInvalid].

Definition Copy : QAlgorithm :=
  newNode "Copy" "" [cell "algin_X" TInt QInvalid;
                     cell "algout_X" TInt QInvalid].

Definition Faulty : QAlgorithm :=
  newNode "Faulty" "" [cell "algout_X" TInt QInvalid].

(** [Source >> Copy] and [Source >> Copy >> Copy] *)
Definition chain2 : State :=
  final (setConnection 0 1) (initial [Source; Copy]).

Definition chain3 : State :=
  final (setConnection 0 1 ;; setConnection 1 2)
        (initial [Source; Copy; Copy]).

(** *** More example nodes *)

(** The value of a property of a node of the heap. *)
Definition read (s : State) (n : nat) (name : string) : QVariant :=
  match heap s !! n with
  | Some q => property q name
  | None => QInvalid
  end.

(** The generator and the moving average of the percentile example. *)
Definition Generator : QAlgorithm :=
  newNode "RandomGenerator" "generator"
    [cell "par_Amount" TInt (QInt 10);
     cell "algout_Numbers" TVector (QVector [1; 2; 3]%Z)].

Definition Average : QAlgorithm :=
  setPropagationRules
    (Rules.makePropagationRules [("Numbers", "Array"); ("Amount", "Size")])
    (newNode "MovingAverage" ""
       [cell "algin_Array" TVector QInvalid;
        cell "par_Size" TInt (QInt 3);
        cell "algout_Array" TVector QInvalid]).

(** A parent whose first output is a vector, while the input of the same
    name of the child is a number. *)
Definition Producer : QAlgorithm :=
  newNode "Producer" ""
    [cell "algout_A" TVector (QVector [1; 2; 3]%Z);
     cell "algout_B" TInt (QInt 7)].

Definition Consumer : QAlgorithm :=
  newNode "Consumer" ""
    [cell "algin_A" TInt QInvalid; cell "algin_B" TInt QInvalid].

(** A [Copy] whose input the user has set, and a [Copy] that keeps its
    input. *)
Definition Fed : QAlgorithm :=
  set_members [cell "algin_X" TInt (QInt 3); cell "algout_X" TInt QInvalid] Copy.

Definition Keeper : QAlgorithm := setKeepInput true Copy.

(** ** Relating two runs *)

(** The log without the [raise] signals. *)
Definition quiet (l : list Signal) : list Signal :=
  List.filter (fun sg => match sg with Raise _ _ => false | _ => true end) l.

(** Two states with the same nodes, the same tasks in the pool, the same
    connections and the same signals other than [raise]; the queued events
    may differ. *)
Definition similar (s1 s2 : State) : Prop :=
  heap s1 = heap s2 /\ pool s1 = pool s2 /\ wires s1 = wires s2 /\
  quiet (log s1) = quiet (log s2).

Definition agree {A} (r1 r2 : Result A) : Prop :=
  match r1, r2 with
  | Ok a s1, Ok b s2 => a = b /\ similar s1 s2
  | Fail e1, Fail e2 => e1 = e2
  | _, _ => False
  end.

Definition respects {A} (c : M A) : Prop :=
  forall s1 s2, similar s1 s2 -> agree (c s1) (c s2).

(** ** Construction: [setParameters], [create] and the connecting operators *)

(** [QMap<QString, QVariant>]: the pairs in the order of their keys.  A
    [QMap] holds one value for a key; a lookup in a list that repeats a key
    finds the first pair. *)
Definition QAPropertyMap := list (string * QVariant).

Module PropertyMap.

Definition keys (m : QAPropertyMap) : list string := map fst m.

(** [m.value(key)]: a default-constructed value when the key is absent. *)
Definition value (m : QAPropertyMap) (key : string) : QVariant :=
  match List.find (fun p => String.eqb (fst p) key) m with
  | Some p => snd p
  | None => QInvalid
  end.

Definition isEmpty (m : QAPropertyMap) : bool :=
  match m with [] => true | _ => false end.

End PropertyMap.

(** What [setParameters] prints. *)
Inductive ParameterWarning :=
| CannotSet (PropName : string)
| NotAProperty (PropName : string).

(** The inner loop of [setParameters] (lines 126-139): every property named
    as the parameter or the input [PropName] is written; the flag tells
    whether some property carried the name. *)
Fixpoint setParameters_scan (PropName : string) (value : QVariant)
    (props : list string) (q : QAlgorithm)
  : QAlgorithm * bool * list ParameterWarning :=
  match props with
  | [] => (q, false, [])
  | name :: rest =>
      if String.eqb name (QA_PAR +:+ PropName)
         || String.eqb name (QA_IN +:+ PropName)
      then
        match setProperty q name value with
        | Some q' =>
            let '(q'', _, ws) := setParameters_scan PropName value rest q' in
            (q'', true, ws)
        | None =>
            let '(q'', _, ws) := setParameters_scan PropName value rest q in
            (q'', true, CannotSet PropName :: ws)
        end
      else setParameters_scan PropName value rest q
  end.

(** The outer loop over the keys of the map. *)
Fixpoint setParameters_keys (parameters : QAPropertyMap) (ks : list string)
    (q : QAlgorithm) : QAlgorithm * list ParameterWarning :=
  match ks with
  | [] => (q, [])
  | PropName :: rest =>
      let '(q1, set, ws) :=
        setParameters_scan PropName (PropertyMap.value parameters PropName)
                           (propertyNames q) q in
      let ws1 := if set then ws else ws ++ [NotAProperty PropName] in
      let '(q2, ws2) := setParameters_keys parameters rest q1 in
      (q2, ws1 ++ ws2)
  end.

(** [QAlgorithm::setParameters] *)
Definition setParameters (parameters : QAPropertyMap) (q : QAlgorithm)
  : QAlgorithm * list ParameterWarning :=
  setParameters_keys parameters (PropertyMap.keys parameters) q.

(** [QA_IMPL_CREATE]: allocation, [setup], [setParameters] when the map is
    not empty, [init].  The node is the one of [newNode], whose internal
    connections the schedulers have built in; [init] is the empty default of
    the base class. *)
Definition create (cls : string) (ms : list QMember)
    (parameters : QAPropertyMap) : QAlgorithm * list ParameterWarning :=
  if negb (PropertyMap.isEmpty parameters)
  then setParameters parameters (newNode cls "" ms)
  else (newNode cls "" ms, []).

(** [QAlgorithm::makePropagationRules]: the pair that [create] takes. *)
Definition makePropagationRules (pairs : list (string * string))
  : string * QVariant :=
  ("PropagationRules", QRules (Rules.makePropagationRules pairs)).

(** [ancestor >> descendant] *)
Definition operator_shr (ancestor descendant : nat) : M nat :=
  setConnection ancestor descendant ;;
  ret descendant.

(** [descendant << ancestor] *)
Definition operator_shl (descendant ancestor : nat) : M nat :=
  _ ← operator_shr ancestor descendant;
  ret ancestor.

(** [x0 >> x1 >> ... >> xn], which C++ reads from the left. *)
Definition chain_shr (first : nat) (rest : list nat) : M nat :=
  foldM rest first operator_shr.

(** [x0 << x1 << ... << xn] *)
Definition chain_shl (first : nat) (rest : list nat) : M nat :=
  foldM rest first operator_shl.

(** ** Shapes of states and of runs *)

(** No task waits in the pool; the queue holds calls of [abort] only, each
    for a node that some connection starts at, and every connection ends at
    such a node. *)
Definition echoing (s : State) : Prop :=
  pool s = [] /\
  events s <> [] /\
  (forall e, In e (events s) ->
     exists r m y, e = AbortCall r m /\ In (r, y) (wires s)) /\
  (forall x y, In (x, y) (wires s) -> exists z, In (y, z) (wires s)).

(** From [s] to [s'] the nodes of [l] have been started and handed to the
    pool, in that order, and nothing else has happened. *)
Definition starts (l : list nat) (s s' : State) : Prop :=
  pool s' = pool s ++ l /\
  log s' = log s ++ map JustStarted l /\
  events s' = events s /\
  wires s' = wires s /\
  length (heap s') = length (heap s) /\
  forall p q, heap s !! p = Some q ->
    (In p l -> heap s' !! p = Some (set_started true q)) /\
    (~ In p l -> heap s' !! p = Some q).

(** ** Relating the state before and after a computation *)

(** Every successful run of [c] takes a state to a state related by [T]. *)
Definition keeps (T : State -> State -> Prop) {A} (c : M A) : Prop :=
  forall s a s', c s = Ok a s' -> T s s'.

(** The heaps have the same nodes, related one by one. *)
Definition heap_rel (R : QAlgorithm -> QAlgorithm -> Prop)
    (h h' : list QAlgorithm) : Prop :=
  length h' = length h /\
  forall p q, h !! p = Some q -> exists q', h' !! p = Some q' /\ R q q'.

(** The flags [started] and [finished] never go back. *)
Definition flags_grow (q q' : QAlgorithm) : Prop :=
  (isStarted q = true -> isStarted q' = true) /\
  (isFinished q = true -> isFinished q' = true).

(** Only cells and parameters differ: the flags, the neighbours, the class
    and the declared properties are the same. *)
Definition same_frame (q q' : QAlgorithm) : Prop :=
  className q' = className q /\
  isStarted q' = isStarted q /\
  isFinished q' = isFinished q /\
  getAncestors q' = getAncestors q /\
  getDescendants q' = getDescendants q /\
  propertyNames q' = propertyNames q.

(** At most [ParallelExecution] differs, and only by having been cleared. *)
Definition serialised (q q' : QAlgorithm) : Prop :=
  q' = q \/ q' = setParallelExecution false q.

(** The log has grown by warnings only. *)
Definition warned (s s' : State) : Prop :=
  exists ds, log s' = log s ++ map Warning ds.

(** Apart from the heap and the warnings the state is the same. *)
Definition quiet_step (s s' : State) : Prop :=
  wires s' = wires s /\ events s' = events s /\ pool s' = pool s /\
  warned s s'.

(** No node is lost or added, and no flag has gone back. *)
Definition flags_kept (s s' : State) : Prop :=
  heap_rel flags_grow (heap s) (heap s').

(** Between [s] and [s'] only cells and parameters of the node [child] have
    been written, and only warnings printed. *)
Definition writes_only (child : nat) (s s' : State) : Prop :=
  quiet_step s s' /\
  (forall p, p <> child -> heap s' !! p = heap s !! p) /\
  heap_rel same_frame (heap s) (heap s').

(** Nothing but warnings: the heap too is the same. *)
Definition reads_only (s s' : State) : Prop :=
  heap s' = heap s /\ quiet_step s s'.

(** Nodes may have lost [ParallelExecution]; nothing else has changed but
    the warnings. *)
Definition serialises_only (s s' : State) : Prop :=
  heap_rel serialised (heap s) (heap s') /\ quiet_step s s'.

(** Every key of the flat map is mapped to the direct descendants of that
    node in the heap [h]. *)
Definition lists_descendants (h : list QAlgorithm)
    (tree : QAFlatRepresentation) : Prop :=
  forall k, Flat.contains k tree = true ->
    forall y, In y (Flat.value k tree)
              <-> CompletionMap.contains y (descendants_of h k) = true.

(** The pairs of neighbours of a list. *)
Fixpoint consecutive (l : list nat) : list (nat * nat) :=
  match l with
  | x :: l' =>
      match l' with
      | y :: _ => (x, y) :: consecutive l'
      | [] => []
      end
  | [] => []
  end.

(** A node that is connected to no other. *)
Definition isolated (q : QAlgorithm) : Prop :=
  getAncestors q = [] /\ getDescendants q = [].

(** The names that [setParameters] writes for the key [k]. *)
Definition names_of (k n : string) : Prop :=
  n = QA_PAR +:+ k \/ n = QA_IN +:+ k.

(** ** The words of the propagation rules

    What the documentation of the rules says, without the operations of Qt
    that the code uses to compute it. *)

(** [sub] occurs in [s]. *)
Definition occurs_in (sub s : string) : Prop :=
  exists pre post, s = pre +:+ sub +:+ post.

(** The rules hold an entry for [key]. *)
Definition mentions (rules : QAPropagationRules) (key : string) : Prop :=
  exists v, In (key, v) rules.

(** The rules hold one entry for [key], and its value is [v]. *)
Definition only_value (rules : QAPropagationRules) (key v : string) : Prop :=
  exists before after,
    rules = before ++ (key, v) :: after /\
    ~ mentions before key /\ ~ mentions after key.

(** The rules hold two entries for [key], or more. *)
Definition several_values (rules : QAPropagationRules) (key : string) : Prop :=
  exists l1 u1 l2 u2 l3,
    rules = l1 ++ (key, u1) :: l2 ++ (key, u2) :: l3.

(** [t] is the first value for [key] that is [good], the entries taken from
    the most recently inserted one on. *)
Definition first_value (good : string -> Prop) (rules : QAPropagationRules)
    (key t : string) : Prop :=
  exists before after,
    rules = before ++ (key, t) :: after /\
    good t /\
    forall u, In (key, u) before -> ~ good u.

(** The properties of a child that take the value resolved to the base name
    [t]: the input and the parameter of that name. *)
Definition receives (t n : string) : Prop :=
  n = QA_IN +:+ t \/ n = QA_PAR +:+ t.

(** The declared name and type of every member cell. *)
Definition shape (ms : list QMember) : list (string * QType) :=
  map (fun m => (mname m, mtype m)) ms.

(** *** Nodes for the rules *)

(** Two generators that a merger tells apart by their object names. *)
Definition Gen1 : QAlgorithm :=
  newNode "RandomGenerator" "gen1"
    [cell "algout_Numbers" TVector (QVector [1; 2; 3]%Z)].

Definition Merger : QAlgorithm :=
  setPropagationRules
    (Rules.makePropagationRules
       [("Numbers", "In_gen1"); ("Numbers", "In_gen2")])
    (newNode "Merger" ""
       [cell "algin_In_gen1" TVector QInvalid;
        cell "algin_In_gen2" TVector QInvalid]).



(** * Properties *)

(** ** Reasoning about computations *)

Lemma bind_Ok {A B} (c : M A) (k : A -> M B) s b s' :
  bind c k s = Ok b s' ->
  exists a s1, c s = Ok a s1 /\ k a s1 = Ok b s'.
Proof.
  unfold bind. destruct (c s) as [a s1|e]; [eauto | discriminate].
Qed.

Lemma node_Ok p s q s' :
  node p s = Ok q s' -> heap s !! p = Some q /\ s' = s.
Proof.
  unfold node. destruct (heap s !! p); intros H; inversion H; auto.
Qed.

Lemma update_Ok p f s u s' :
  update p f s = Ok u s' ->
  exists q, heap s !! p = Some q /\ s' = with_heap (<[p := f q]> (heap s)) s.
Proof.
  unfold update. destruct (heap s !! p) as [q|]; intros H; inversion H; eauto.
Qed.

(** ** Completion maps *)

Lemma cm_contains_insert k k' v m :
  CompletionMap.contains k (CompletionMap.insert k' v m)
  = (k =? k') || CompletionMap.contains k m.
Proof.
  induction m as [|[k0 v0] m IH]; simpl.
  - rewrite (Nat.eqb_sym k' k). reflexivity.
  - destruct (k' <? k0) eqn:Hlt; simpl.
    + rewrite (Nat.eqb_sym k' k). reflexivity.
    + destruct (k' =? k0) eqn:Heq; simpl.
      * apply Nat.eqb_eq in Heq. subst k0.
        rewrite (Nat.eqb_sym k' k).
        destruct (k =? k'); reflexivity.
      * rewrite IH. destruct (k0 =? k), (k =? k'); reflexivity.
Qed.

Lemma cm_contains_remove k k' m :
  CompletionMap.contains k (CompletionMap.remove k' m)
  = negb (k =? k') && CompletionMap.contains k m.
Proof.
  induction m as [|[k0 v0] m IH]; simpl.
  - rewrite andb_false_r. reflexivity.
  - destruct (k0 =? k') eqn:Heq; simpl.
    + apply Nat.eqb_eq in Heq. subst k0. rewrite IH.
      rewrite (Nat.eqb_sym k' k). destruct (k =? k'); reflexivity.
    + rewrite IH. destruct (k0 =? k) eqn:Hk; simpl.
      * apply Nat.eqb_eq in Hk. subst k0. rewrite Heq. reflexivity.
      * reflexivity.
Qed.

(** ** The adjacency after an update of the heap *)

Lemma descendants_of_insert h p q x :
  h !! p = Some q ->
  forall q', descendants_of (<[p := q']> h) x
  = if decide (x = p) then getDescendants q' else descendants_of h x.
Proof.
  intros Hp q'. unfold descendants_of.
  destruct (decide (x = p)) as [->|Hne].
  - rewrite list_lookup_insert_eq; [reflexivity|].
    eapply lookup_lt_Some; eauto.
  - rewrite list_lookup_insert_ne; [reflexivity | congruence].
Qed.

Lemma ancestors_of_insert h p q x :
  h !! p = Some q ->
  forall q', ancestors_of (<[p := q']> h) x
  = if decide (x = p) then getAncestors q' else ancestors_of h x.
Proof.
  intros Hp q'. unfold ancestors_of.
  destruct (decide (x = p)) as [->|Hne].
  - rewrite list_lookup_insert_eq; [reflexivity|].
    eapply lookup_lt_Some; eauto.
  - rewrite list_lookup_insert_ne; [reflexivity | congruence].
Qed.

Lemma descendants_of_lookup h p q :
  h !! p = Some q -> descendants_of h p = descendants q.
Proof. unfold descendants_of. intros ->. reflexivity. Qed.

Lemma ancestors_of_lookup h p q :
  h !! p = Some q -> ancestors_of h p = ancestors q.
Proof. unfold ancestors_of. intros ->. reflexivity. Qed.

(** What [setConnection] and [closeConnection] do to the adjacency. *)
Lemma setConnection_adjacency a d s u s' :
  setConnection a d s = Ok u s' ->
  (forall x, exists v,
      descendants_of (heap s') x
      = if decide (x = a)
        then CompletionMap.insert d v (descendants_of (heap s) x)
        else descendants_of (heap s) x) /\
  (forall x, exists v,
      ancestors_of (heap s') x
      = if decide (x = d)
        then CompletionMap.insert a v (ancestors_of (heap s) x)
        else ancestors_of (heap s) x).
Proof.
  unfold setConnection. intros H.
  apply bind_Ok in H as (qd & s1 & H1 & H). apply node_Ok in H1 as [Hd ->].
  apply bind_Ok in H as (u1 & s1 & H1 & H).
  apply update_Ok in H1 as (qa & Ha & ->).
  apply bind_Ok in H as (qa' & s1 & H1 & H). apply node_Ok in H1 as [Ha' ->].
  apply bind_Ok in H as (u2 & s1 & H1 & H).
  apply update_Ok in H1 as (qd' & Hd' & ->).
  apply bind_Ok in H as (u3 & s1 & H1 & H).
  inversion H1; subst s1; clear H1. inversion H; subst s'; clear H.
  simpl in *.
  assert (Hlen : a < length (heap s)) by (eapply lookup_lt_Some; eauto).
  rewrite list_lookup_insert_eq in Ha' by exact Hlen.
  inversion Ha'; subst qa'; clear Ha'.
  split; intros x.
  - exists (isFinished qd).
    erewrite descendants_of_insert by eauto.
    erewrite descendants_of_insert by eauto.
    destruct (decide (x = d)) as [->|Hxd].
    + destruct (decide (d = a)) as [->|Hda].
      * rewrite list_lookup_insert_eq in Hd' by exact Hlen.
        inversion Hd'; subst qd'. simpl.
        erewrite descendants_of_lookup by eauto. reflexivity.
      * rewrite list_lookup_insert_ne in Hd' by congruence.
        simpl. erewrite descendants_of_lookup by eauto. reflexivity.
    + destruct (decide (x = a)) as [->|Hxa]; simpl.
      * erewrite descendants_of_lookup by eauto. reflexivity.
      * reflexivity.
  - exists (isFinished qa).
    erewrite ancestors_of_insert by eauto.
    destruct (decide (x = d)) as [->|Hxd]; simpl.
    + destruct (decide (d = a)) as [->|Hda].
      * rewrite list_lookup_insert_eq in Hd' by exact Hlen.
        inversion Hd'; subst qd'. simpl.
        erewrite ancestors_of_lookup by eauto. reflexivity.
      * rewrite list_lookup_insert_ne in Hd' by congruence.
        erewrite ancestors_of_lookup by eauto. reflexivity.
    + erewrite ancestors_of_insert by eauto.
      destruct (decide (x = a)) as [->|Hxa]; simpl.
      * erewrite ancestors_of_lookup by eauto. reflexivity.
      * reflexivity.
Qed.

Lemma closeConnection_adjacency a d s u s' :
  closeConnection a d s = Ok u s' ->
  (forall x,
      descendants_of (heap s') x
      = if decide (x = a)
        then CompletionMap.remove d (descendants_of (heap s) x)
        else descendants_of (heap s) x) /\
  (forall x,
      ancestors_of (heap s') x
      = if decide (x = d)
        then CompletionMap.remove a (ancestors_of (heap s) x)
        else ancestors_of (heap s) x).
Proof.
  unfold closeConnection. intros H.
  apply bind_Ok in H as (u1 & s1 & H1 & H).
  apply update_Ok in H1 as (qa & Ha & ->).
  apply bind_Ok in H as (u2 & s1 & H1 & H).
  apply update_Ok in H1 as (qd' & Hd' & ->).
  apply bind_Ok in H as (u3 & s1 & H1 & H).
  inversion H1; subst s1; clear H1. inversion H; subst s'; clear H.
  simpl in *.
  assert (Hlen : a < length (heap s)) by (eapply lookup_lt_Some; eauto).
  split; intros x.
  - erewrite descendants_of_insert by eauto.
    erewrite descendants_of_insert by eauto.
    destruct (decide (x = d)) as [->|Hxd].
    + destruct (decide (d = a)) as [->|Hda].
      * rewrite list_lookup_insert_eq in Hd' by exact Hlen.
        inversion Hd'; subst qd'. simpl.
        erewrite descendants_of_lookup by eauto. reflexivity.
      * rewrite list_lookup_insert_ne in Hd' by congruence.
        simpl. erewrite descendants_of_lookup by eauto. reflexivity.
    + destruct (decide (x = a)) as [->|Hxa]; simpl.
      * erewrite descendants_of_lookup by eauto. reflexivity.
      * reflexivity.
  - erewrite ancestors_of_insert by eauto.
    destruct (decide (x = d)) as [->|Hxd]; simpl.
    + destruct (decide (d = a)) as [->|Hda].
      * rewrite list_lookup_insert_eq in Hd' by exact Hlen.
        inversion Hd'; subst qd'. simpl.
        erewrite ancestors_of_lookup by eauto. reflexivity.
      * rewrite list_lookup_insert_ne in Hd' by congruence.
        erewrite ancestors_of_lookup by eauto. reflexivity.
    + erewrite ancestors_of_insert by eauto.
      destruct (decide (x = a)) as [->|Hxa]; simpl.
      * erewrite ancestors_of_lookup by eauto. reflexivity.
      * reflexivity.
Qed.

Lemma setConnection_symmetric a d s u s' :
  symmetric (heap s) -> setConnection a d s = Ok u s' -> symmetric (heap s').
Proof.
  intros Hsym H x y.
  destruct (setConnection_adjacency _ _ _ _ _ H) as [Hdesc Hanc].
  destruct (Hdesc x) as [v ->]. destruct (Hanc y) as [w ->].
  specialize (Hsym x y).
  destruct (decide (x = a)) as [->|Hxa], (decide (y = d)) as [->|Hyd];
    rewrite ?cm_contains_insert, ?Nat.eqb_refl; simpl;
    try exact Hsym; try reflexivity.
  - rewrite Hsym. apply Nat.eqb_neq in Hyd. rewrite Hyd. reflexivity.
  - rewrite <- Hsym. apply Nat.eqb_neq in Hxa. rewrite Hxa. reflexivity.
Qed.

Lemma closeConnection_symmetric a d s u s' :
  symmetric (heap s) -> closeConnection a d s = Ok u s' -> symmetric (heap s').
Proof.
  intros Hsym H x y.
  destruct (closeConnection_adjacency _ _ _ _ _ H) as [Hdesc Hanc].
  rewrite Hdesc, Hanc.
  specialize (Hsym x y).
  destruct (decide (x = a)) as [->|Hxa], (decide (y = d)) as [->|Hyd];
    rewrite ?cm_contains_remove, ?Nat.eqb_refl; simpl;
    try exact Hsym; try reflexivity.
  - rewrite Hsym. apply Nat.eqb_neq in Hyd. rewrite Hyd. reflexivity.
  - rewrite <- Hsym. apply Nat.eqb_neq in Hxa. rewrite Hxa. reflexivity.
Qed.

Lemma apply_ops_symmetric ops : forall s u s',
  symmetric (heap s) -> apply_ops ops s = Ok u s' -> symmetric (heap s').
Proof.
  induction ops as [|op ops IH]; intros s u s' Hsym H.
  - inversion H; subst. exact Hsym.
  - unfold apply_ops in H. simpl in H.
    apply bind_Ok in H as (u1 & s1 & H1 & H).
    eapply (IH s1); [|exact H].
    destruct op as [a d|a d]; simpl in H1.
    + eapply setConnection_symmetric; eauto.
    + eapply closeConnection_symmetric; eauto.
Qed.

(** Calls on nodes of the heap succeed. *)
Lemma update_total p f s :
  p < length (heap s) ->
  exists s', update p f s = Ok tt s' /\ length (heap s') = length (heap s).
Proof.
  intros Hlt. unfold update.
  destruct (lookup_lt_is_Some_2 _ _ Hlt) as [q ->].
  eexists. split; [reflexivity|]. simpl. apply length_insert.
Qed.

Lemma node_total p s :
  p < length (heap s) -> exists q, node p s = Ok q s.
Proof.
  intros Hlt. unfold node.
  destruct (lookup_lt_is_Some_2 _ _ Hlt) as [q ->]. eauto.
Qed.

Lemma apply_op_total op s :
  (match op with Connect a d | Disconnect a d =>
     a < length (heap s) /\ d < length (heap s) end) ->
  exists s', apply_op op s = Ok tt s' /\ length (heap s') = length (heap s).
Proof.
  destruct op as [a d|a d]; intros [Ha Hd]; simpl.
  - unfold setConnection, bind.
    destruct (node_total d s Hd) as [qd ->].
    destruct (update_total a
                (fun a0 => set_descendants
                   (CompletionMap.insert d (isFinished qd) (descendants a0)) a0)
                s Ha) as (s1 & -> & Hl1).
    destruct (node_total a s1 ltac:(lia)) as [qa ->].
    destruct (update_total d
                (fun d0 => set_ancestors
                   (CompletionMap.insert a (isFinished qa) (ancestors d0)) d0)
                s1 ltac:(lia)) as (s2 & -> & Hl2).
    eexists. split; [reflexivity|]. simpl. lia.
  - unfold closeConnection, bind.
    destruct (update_total a
                (fun a0 => set_descendants
                   (CompletionMap.remove d (descendants a0)) a0)
                s Ha) as (s1 & -> & Hl1).
    destruct (update_total d
                (fun d0 => set_ancestors
                   (CompletionMap.remove a (ancestors d0)) d0)
                s1 ltac:(lia)) as (s2 & -> & Hl2).
    eexists. split; [reflexivity|]. simpl. lia.
Qed.

Lemma apply_ops_total ops : forall s,
  Forall (fun op => match op with Connect a d | Disconnect a d =>
                      a < length (heap s) /\ d < length (heap s) end) ops ->
  exists s', apply_ops ops s = Ok tt s'.
Proof.
  induction ops as [|op ops IH]; intros s Hall.
  - exists s. reflexivity.
  - inversion Hall as [|? ? Hop Hrest]; subst.
    destruct (apply_op_total op s Hop) as (s1 & Hrun & Hlen).
    destruct (IH s1) as [s' Hs'].
    { rewrite Hlen. exact Hrest. }
    exists s'. unfold apply_ops. simpl. unfold bind. rewrite Hrun. exact Hs'.
Qed.

Lemma fresh_symmetric nodes :
  Forall (fun q => ancestors q = [] /\ descendants q = []) nodes ->
  symmetric nodes.
Proof.
  intros Hfresh a d. unfold descendants_of, ancestors_of.
  rewrite Forall_lookup in Hfresh.
  destruct (nodes !! a) as [qa|] eqn:Ha, (nodes !! d) as [qd|] eqn:Hd;
    try (destruct (Hfresh _ _ Ha) as [_ Ea]; unfold getDescendants; rewrite Ea);
    try (destruct (Hfresh _ _ Hd) as [Ed _]; unfold getAncestors; rewrite Ed);
    reflexivity.
Qed.

(** C8.  After any sequence of [setConnection] and [closeConnection] calls on
    nodes that start without neighbours, the adjacency is symmetric: [d] is a
    key of the descendants map of [a] if and only if [a] is a key of the
    ancestors map of [d]. *)
Theorem connections_stay_symmetric :
  forall (nodes : list QAlgorithm) (ops : list GraphOp) (s' : State),
    Forall (fun q => ancestors q = [] /\ descendants q = []) nodes ->
    apply_ops ops (initial nodes) = Ok tt s' ->
    forall a d qa qd,
      heap s' !! a = Some qa ->
      heap s' !! d = Some qd ->
      CompletionMap.contains d (getDescendants qa) = true
      <-> CompletionMap.contains a (getAncestors qd) = true.
Proof.
  intros nodes ops s' Hfresh Hrun a d qa qd Ha Hd.
  assert (Hsym : symmetric (heap s')).
  { eapply apply_ops_symmetric; [|exact Hrun]. simpl.
    apply fresh_symmetric, Hfresh. }
  specialize (Hsym a d). unfold descendants_of, ancestors_of in Hsym.
  rewrite Ha, Hd in Hsym. rewrite Hsym. reflexivity.
Qed.

(** Witness of [connections_stay_symmetric]: three nodes, connected, partly
    disconnected and connected again. *)
Lemma connections_stay_symmetric_witness :
  let nodes := [Source; Copy; Copy] in
  let ops := [Connect 0 1; Connect 1 2; Disconnect 0 1; Connect 0 2] in
  let s' := final (apply_ops ops) (initial nodes) in
  let qa := default Source (heap s' !! 0) in
  let qd := default Source (heap s' !! 2) in
  Forall (fun q => ancestors q = [] /\ descendants q = []) nodes /\
  apply_ops ops (initial nodes) = Ok tt s' /\
  heap s' !! 0 = Some qa /\
  heap s' !! 2 = Some qd /\
  (CompletionMap.contains 2 (getDescendants qa) = true
   <-> CompletionMap.contains 0 (getAncestors qd) = true).
Proof.
  intros nodes ops s' qa qd.
  assert (Hfresh : Forall (fun q => ancestors q = [] /\ descendants q = []) nodes)
    by (repeat constructor).
  assert (Hrun : apply_ops ops (initial nodes) = Ok tt s')
    by (vm_compute; reflexivity).
  assert (Ha : heap s' !! 0 = Some qa) by (vm_compute; reflexivity).
  assert (Hd : heap s' !! 2 = Some qd) by (vm_compute; reflexivity).
  exact (conj Hfresh (conj Hrun (conj Ha (conj Hd
    (connections_stay_symmetric nodes ops s' Hfresh Hrun 0 2 qa qd Ha Hd))))).
Defined.

(** ** The error channel *)

Lemma foreach_post (message : string) (l : list (nat * nat)) : forall s,
  exists s',
    foreach l (fun w => post (AbortCall (snd w) message)) s = Ok tt s' /\
    heap s' = heap s /\ pool s' = pool s /\ wires s' = wires s /\
    log s' = log s /\
    events s' = events s ++ map (fun w => AbortCall (snd w) message) l.
Proof.
  induction l as [|w l IH]; intros s; simpl.
  - exists s. rewrite app_nil_r. repeat split; reflexivity.
  - unfold bind at 1. simpl.
    destruct (IH (with_events (events s ++ [AbortCall (snd w) message]) s))
      as (s' & Hrun & Hh & Hp & Hw & Hl & He).
    exists s'. simpl in *. rewrite Hrun, He, <- app_assoc.
    repeat split; assumption.
Qed.

Lemma raise_effect sender message s :
  exists s',
    raise sender message s = Ok tt s' /\
    heap s' = heap s /\ pool s' = pool s /\ wires s' = wires s /\
    log s' = log s ++ [Raise sender message] /\
    events s' = events s
                ++ map (fun w => AbortCall (snd w) message)
                       (List.filter (fun w => fst w =? sender) (wires s)).
Proof.
  unfold raise, bind, emit. simpl.
  destruct (foreach_post message
              (List.filter (fun w => fst w =? sender) (wires s))
              (with_log (log s ++ [Raise sender message]) s))
    as (s' & Hrun & Hh & Hp & Hw & Hl & He).
  exists s'. simpl in *. repeat split; assumption.
Qed.

(** C10.  [abort(message)] emits [raise] with that message, which posts the
    queued [abort] calls of the connected nodes, and does nothing else: the
    heap, hence every flag, completion map and cell of every node, is as
    before.  Without an argument the message is "Unknown Error". *)
Theorem abort_only_emits_raise :
  forall (this : nat) (message : string) (s : State),
    (exists s',
        abort this message s = Ok tt s' /\
        log s' = log s ++ [Raise this message] /\
        heap s' = heap s /\
        pool s' = pool s /\
        wires s' = wires s /\
        events s' = events s
                    ++ map (fun w => AbortCall (snd w) message)
                           (List.filter (fun w => fst w =? this) (wires s)))
    /\ abort_default this s = abort this "Unknown Error" s.
Proof.
  intros this message s. split; [|reflexivity].
  destruct (raise_effect this message s) as (s' & Hrun & Hh & Hp & Hw & Hl & He).
  exists s'. unfold abort. repeat split; assumption.
Qed.

(** ** Rule resolution *)

Lemma substring_all s : String.substring 0 (String.length s) s = s.
Proof. induction s as [|c s IH]; simpl; [reflexivity | rewrite IH; reflexivity]. Qed.

Lemma prefix_nil s : String.prefix "" s = true.
Proof. destruct s; reflexivity. Qed.

Lemma parentPropBaseName_out s : parentPropBaseName (QA_OUT +:+ s) = Some s.
Proof.
  unfold parentPropBaseName, startsWith, mid, QA_OUT. simpl.
  change ("" +:+ s) with s.
  rewrite prefix_nil, Nat.sub_0_r, substring_all. reflexivity.
Qed.

Lemma parentPropBaseName_par s : parentPropBaseName (QA_PAR +:+ s) = Some s.
Proof.
  unfold parentPropBaseName, startsWith, mid, QA_PAR, QA_OUT. simpl.
  change ("" +:+ s) with s.
  rewrite prefix_nil, Nat.sub_0_r, substring_all. reflexivity.
Qed.

Lemma startsWith_out_par s : startsWith (QA_OUT +:+ s) QA_PAR = false.
Proof. reflexivity. Qed.

Lemma startsWith_par_par s : startsWith (QA_PAR +:+ s) QA_PAR = true.
Proof.
  unfold startsWith, QA_PAR. simpl. change ("" +:+ s) with s. apply prefix_nil.
Qed.

Lemma rules_contains_values r key :
  Rules.contains r key = (0 <? length (Rules.values r key)).
Proof.
  unfold Rules.contains, Rules.values.
  induction r as [|[k v] r IH]; simpl; [reflexivity|].
  destruct (String.eqb k key); simpl; [reflexivity | exact IH].
Qed.

Lemma childPropBaseName_cases rules P s :
  (Rules.contains rules s = false -> childPropBaseName rules P s = Some s) /\
  (forall v, Rules.values rules s = [v] -> childPropBaseName rules P s = Some v) /\
  (Rules.contains rules s = true ->
   length (Rules.values rules s) <> 1 ->
   childPropBaseName rules P s
   = head (QStringList_filter (Rules.values rules s) P)).
Proof.
  unfold childPropBaseName. repeat split.
  - intros ->. reflexivity.
  - intros v Hv. rewrite rules_contains_values, Hv. reflexivity.
  - intros Hc Hlen. rewrite Hc. simpl.
    rewrite rules_contains_values in Hc. apply Nat.ltb_lt in Hc.
    assert (Hgt : 1 < length (Rules.values rules s)) by lia.
    apply Nat.ltb_lt in Hgt. rewrite Hgt. reflexivity.
Qed.

(** ** Reads and writes of properties *)

Lemma find_member_write name v ms ms' :
  write_member name v ms = Some ms' ->
  exists m, find_member name ms' = Some m /\ mvalue m = v.
Proof.
  revert ms'. induction ms as [|m ms IH]; intros ms' H; simpl in H.
  - discriminate.
  - destruct (String.eqb (mname m) name) eqn:Hn.
    + destruct (accepts (mtype m) v); [|discriminate].
      inversion H; subst ms'. unfold find_member. simpl. rewrite Hn.
      eexists; split; reflexivity.
    + destruct (write_member name v ms) as [ms1|]; [|discriminate].
      inversion H; subst ms'. destruct (IH ms1 eq_refl) as (m' & Hf & Hv).
      exists m'. unfold find_member in *. simpl. rewrite Hn. auto.
Qed.

Lemma find_member_write_ne name name' v ms ms' :
  write_member name v ms = Some ms' ->
  name' <> name ->
  find_member name' ms' = find_member name' ms.
Proof.
  intros H Hne. revert ms' H.
  induction ms as [|m ms IH]; intros ms' H; simpl in H.
  - discriminate.
  - destruct (String.eqb (mname m) name) eqn:Hn.
    + destruct (accepts (mtype m) v); [|discriminate].
      inversion H; subst ms'. unfold find_member. simpl.
      apply String.eqb_eq in Hn.
      assert (Hno : String.eqb (mname m) name' = false)
        by (apply String.eqb_neq; congruence).
      rewrite Hno. reflexivity.
    + destruct (write_member name v ms) as [ms1|]; [|discriminate].
      inversion H; subst ms'. unfold find_member in *. simpl.
      destruct (String.eqb (mname m) name'); [reflexivity | apply IH; reflexivity].
Qed.

(** A write is read back. *)
Lemma setProperty_read c name v c' :
  setProperty c name v = Some c' -> property c' name = v.
Proof.
  unfold setProperty, property.
  destruct (find_member name (members c)) as [m|] eqn:Hfind.
  - destruct (write_member name v (members c)) as [ms'|] eqn:Hw; [|discriminate].
    intros H; inversion H; subst c'. simpl.
    destruct (find_member_write _ _ _ _ Hw) as (m' & -> & Hv). exact Hv.
  - repeat match goal with
           | |- context [String.eqb name ?lit] =>
               let E := fresh "E" in
               destruct (String.eqb name lit) eqn:E
           end;
      try discriminate;
      destruct v; try discriminate;
      intros H; inversion H; subst c'; simpl; rewrite Hfind;
      repeat match goal with E : String.eqb _ _ = _ |- _ => rewrite E; clear E end;
      reflexivity.
Qed.

(** A write leaves the other properties alone. *)
Lemma setProperty_frame c name v c' name' :
  setProperty c name v = Some c' ->
  name' <> name ->
  property c' name' = property c name'.
Proof.
  unfold setProperty, property. intros H Hne.
  destruct (find_member name (members c)) as [m|] eqn:Hfind.
  - destruct (write_member name v (members c)) as [ms'|] eqn:Hw; [|discriminate].
    inversion H; subst c'. simpl.
    rewrite (find_member_write_ne _ _ _ _ _ Hw Hne). reflexivity.
  - repeat match type of H with
           | context [String.eqb name ?lit] =>
               let E := fresh "E" in
               destruct (String.eqb name lit) eqn:E;
               [apply String.eqb_eq in E; subst name|]
           end;
      try discriminate;
      destruct v; try discriminate;
      inversion H; subst c'; simpl;
      destruct (find_member name' (members c)); try reflexivity;
      repeat match goal with
             | |- context [String.eqb name' ?lit] =>
                 let E := fresh "E" in
                 destruct (String.eqb name' lit) eqn:E;
                 [apply String.eqb_eq in E; subst name'|]
             end;
      try reflexivity; try congruence.
Qed.

(** ** The transfer loop *)

Lemma update_lookup p f s u s' q :
  update p f s = Ok u s' ->
  heap s !! p = Some q ->
  heap s' !! p = Some (f q) /\
  (forall p', p' <> p -> heap s' !! p' = heap s !! p') /\
  log s' = log s /\ events s' = events s /\ pool s' = pool s /\
  wires s' = wires s.
Proof.
  intros H Hq. apply update_Ok in H as (q' & Hq' & ->).
  rewrite Hq in Hq'. inversion Hq'; subst q'. simpl.
  repeat split.
  - apply list_lookup_insert_eq. eapply lookup_lt_Some; eauto.
  - intros p' Hne. apply list_lookup_insert_ne. congruence.
Qed.

(** A resolved name that no property of the child carries: nothing is
    written, nothing is printed, and the loop goes on. *)
Lemma getInput_scan_no_target child parent name t props : forall st,
  (forall n, n ∈ props -> is_target n t = false) ->
  getInput_scan child parent name t props st = Ok true st.
Proof.
  induction props as [|n props IH]; intros st Hno; simpl.
  - reflexivity.
  - assert (Hn : is_target n t = false) by (apply Hno; left).
    rewrite Hn. apply IH.
    intros n' Hin. apply Hno. right. exact Hin.
Qed.

Lemma getInput_property_par child parent c p s st :
  heap st !! child = Some c ->
  heap st !! parent = Some p ->
  getInput_property child parent (QA_PAR +:+ s) st
  = match childPropBaseName (getPropagationRules c) (objectName p) s with
    | None => Fail EmptyList
    | Some t =>
        if Rules.contains (getPropagationRules c) s
        then getInput_scan child parent (QA_PAR +:+ s) t (propertyNames c) st
        else Ok true st
    end.
Proof.
  intros Hc Hp. unfold getInput_property.
  rewrite parentPropBaseName_par. unfold bind, node. rewrite Hc, Hp.
  rewrite startsWith_par_par.
  destruct (childPropBaseName _ _ _);
    [destruct (Rules.contains _ _)|]; reflexivity.
Qed.

Lemma getInput_property_out child parent c p s st :
  heap st !! child = Some c ->
  heap st !! parent = Some p ->
  getInput_property child parent (QA_OUT +:+ s) st
  = match childPropBaseName (getPropagationRules c) (objectName p) s with
    | None => Fail EmptyList
    | Some t => getInput_scan child parent (QA_OUT +:+ s) t (propertyNames c) st
    end.
Proof.
  intros Hc Hp. unfold getInput_property.
  rewrite parentPropBaseName_out. unfold bind, node. rewrite Hc, Hp.
  rewrite startsWith_out_par.
  destruct (childPropBaseName _ _ _); reflexivity.
Qed.

(** ** The words of the rules and the operations of the code *)

Lemma prefix_occurs sub s :
  String.prefix sub s = true <-> exists post, s = sub +:+ post.
Proof.
  revert s. induction sub as [|a sub IH]; intros s; simpl.
  - split; [intros _; exists s; reflexivity | intros _; destruct s; reflexivity].
  - destruct s as [|b s]; simpl.
    + split; [discriminate | intros [post H]; discriminate].
    + destruct (Ascii.ascii_dec a b) as [->|Hne].
      * rewrite IH. split; intros [post H]; exists post.
        -- rewrite H. reflexivity.
        -- injection H as H. exact H.
      * split; [discriminate|]. intros [post H]. injection H as H1 H2.
        congruence.
Qed.

Lemma contains_occurs s sub : contains s sub = true <-> occurs_in sub s.
Proof.
  unfold occurs_in. split.
  - induction s as [|a s IH]; cbn [contains]; intros H.
    + rewrite orb_false_r in H. apply prefix_occurs in H as [post H].
      exists "", post. exact H.
    + apply orb_true_iff in H as [H|H].
      * apply prefix_occurs in H as [post H]. exists "", post. exact H.
      * destruct (IH H) as (pre & post & ->).
        exists (String a pre), post. reflexivity.
  - intros (pre & post & ->). induction pre as [|a pre IH].
    + assert (H : String.prefix sub ("" +:+ sub +:+ post) = true)
        by (apply prefix_occurs; exists post; reflexivity).
      change ("" +:+ sub +:+ post) with (sub +:+ post) in *.
      destruct (sub +:+ post); cbn [contains]; rewrite H; reflexivity.
    + change (String a pre +:+ sub +:+ post)
        with (String a (pre +:+ sub +:+ post)).
      cbn [contains]. rewrite IH. apply orb_true_r.
Qed.

Lemma rules_contains_mentions rules key :
  Rules.contains rules key = true <-> mentions rules key.
Proof.
  unfold Rules.contains, mentions. rewrite existsb_exists. split.
  - intros ([k v] & Hin & Hk). apply String.eqb_eq in Hk. simpl in Hk.
    subst k. exists v. exact Hin.
  - intros [v Hin]. exists (key, v). split; [exact Hin|].
    apply String.eqb_refl.
Qed.

Lemma rules_contains_not_mentions rules key :
  Rules.contains rules key = false <-> ~ mentions rules key.
Proof.
  rewrite <- rules_contains_mentions.
  destruct (Rules.contains rules key); split; intros H; congruence.
Qed.

Lemma rules_values_app l1 l2 key :
  Rules.values (l1 ++ l2) key = Rules.values l1 key ++ Rules.values l2 key.
Proof. unfold Rules.values. rewrite List.filter_app, map_app. reflexivity. Qed.

Lemma rules_values_cons key v l :
  Rules.values ((key, v) :: l) key = v :: Rules.values l key.
Proof. unfold Rules.values. simpl. rewrite String.eqb_refl. reflexivity. Qed.

Lemma rules_values_none rules key :
  ~ mentions rules key -> Rules.values rules key = [].
Proof.
  intros H. apply rules_contains_not_mentions in H.
  rewrite rules_contains_values in H.
  destruct (Rules.values rules key); [reflexivity | discriminate].
Qed.

Lemma only_value_values rules key v :
  only_value rules key v -> Rules.values rules key = [v].
Proof.
  intros (before & after & -> & Hb & Ha).
  rewrite rules_values_app, rules_values_cons.
  rewrite (rules_values_none _ _ Hb), (rules_values_none _ _ Ha). reflexivity.
Qed.

Lemma several_values_length rules key :
  several_values rules key -> 1 < length (Rules.values rules key).
Proof.
  intros (l1 & u1 & l2 & u2 & l3 & ->).
  rewrite rules_values_app, rules_values_cons, rules_values_app,
    rules_values_cons.
  rewrite length_app. simpl. rewrite length_app. simpl. lia.
Qed.

(** The selection of the code, [values.filter(name).first()], in words. *)
Lemma filtered_head_first rules key P t :
  head (QStringList_filter (Rules.values rules key) P) = Some t
  <-> first_value (occurs_in P) rules key t.
Proof.
  unfold first_value, QStringList_filter, Rules.values.
  induction rules as [|[k v] rules IH]; simpl.
  - split; [discriminate|]. intros (before & after & H & _).
    destruct before; discriminate.
  - destruct (String.eqb_spec k key) as [->|Hne]; simpl.
    + destruct (contains v P) eqn:Hv; simpl.
      * split.
        -- intros H. injection H as <-. exists [], rules.
           split; [reflexivity|]. split; [apply contains_occurs, Hv|].
           intros u [].
        -- intros (before & after & H & Hgood & Hfirst).
           destruct before as [|[k0 v0] before]; simpl in H.
           ++ injection H as -> _. reflexivity.
           ++ injection H as -> -> _. exfalso.
              apply (Hfirst v0); [left; reflexivity|].
              apply contains_occurs, Hv.
      * rewrite IH. split.
        -- intros (before & after & -> & Hgood & Hfirst).
           exists ((key, v) :: before), after.
           split; [reflexivity|]. split; [exact Hgood|].
           intros u [E|Hin].
           ++ injection E as <-. rewrite <- contains_occurs. congruence.
           ++ apply Hfirst, Hin.
        -- intros (before & after & H & Hgood & Hfirst).
           destruct before as [|[k0 v0] before]; simpl in H.
           ++ injection H as -> _. apply contains_occurs in Hgood. congruence.
           ++ injection H as -> -> ->. exists before, after.
              split; [reflexivity|]. split; [exact Hgood|].
              intros u Hin. apply Hfirst. right. exact Hin.
    + rewrite IH. split.
      * intros (before & after & -> & Hgood & Hfirst).
        exists ((k, v) :: before), after.
        split; [reflexivity|]. split; [exact Hgood|].
        intros u [E|Hin]; [congruence | apply Hfirst, Hin].
      * intros (before & after & H & Hgood & Hfirst).
        destruct before as [|[k0 v0] before]; simpl in H.
        -- injection H as -> _. congruence.
        -- injection H as -> -> ->. exists before, after.
           split; [reflexivity|]. split; [exact Hgood|].
           intros u Hin. apply Hfirst. right. exact Hin.
Qed.

Lemma filtered_head_none rules key P :
  head (QStringList_filter (Rules.values rules key) P) = None
  <-> forall u, In (key, u) rules -> ~ occurs_in P u.
Proof.
  unfold QStringList_filter, Rules.values.
  induction rules as [|[k v] rules IH]; simpl.
  - split; [intros _ u [] | reflexivity].
  - destruct (String.eqb_spec k key) as [->|Hne]; simpl.
    + destruct (contains v P) eqn:Hv; simpl.
      * split; [discriminate|]. intros H. exfalso.
        apply (H v); [left; reflexivity | apply contains_occurs, Hv].
      * rewrite IH. split.
        -- intros H u [E|Hin]; [|apply H, Hin].
           injection E as <-. rewrite <- contains_occurs. congruence.
        -- intros H u Hin. apply H. right. exact Hin.
    + rewrite IH. split.
      * intros H u [E|Hin]; [congruence | apply H, Hin].
      * intros H u Hin. apply H. right. exact Hin.
Qed.

(** The resolution of lines 209-228, case by case in the words of the
    rules. *)
Lemma childPropBaseName_resolves rules P s :
  (~ mentions rules s -> childPropBaseName rules P s = Some s) /\
  (forall u, only_value rules s u -> childPropBaseName rules P s = Some u) /\
  (several_values rules s ->
   (forall t, childPropBaseName rules P s = Some t
              <-> first_value (occurs_in P) rules s t) /\
   (childPropBaseName rules P s = None
    <-> forall u, In (s, u) rules -> ~ occurs_in P u)).
Proof.
  destruct (childPropBaseName_cases rules P s) as (Hnone & Hone & Hmany).
  split; [|split].
  - intros H. apply Hnone, rules_contains_not_mentions, H.
  - intros u H. apply Hone, only_value_values, H.
  - intros H. pose proof (several_values_length _ _ H) as Hlen.
    assert (E : childPropBaseName rules P s
                = head (QStringList_filter (Rules.values rules s) P)).
    { apply Hmany; [|lia].
      rewrite rules_contains_values. apply Nat.ltb_lt. lia. }
    rewrite E. split; [intros t; apply filtered_head_first|].
    apply filtered_head_none.
Qed.

Lemma is_target_receives n t : is_target n t = true <-> receives t n.
Proof.
  unfold is_target, receives. rewrite orb_true_iff, !String.eqb_eq.
  reflexivity.
Qed.

Lemma is_target_not_receives n t : is_target n t = false <-> ~ receives t n.
Proof.
  rewrite <- is_target_receives.
  destruct (is_target n t); split; intros H; congruence.
Qed.

(** ** Whether a write is refused depends on the declarations only *)

Lemma write_member_shape name v ms ms' :
  write_member name v ms = Some ms' -> shape ms' = shape ms.
Proof.
  revert ms'. induction ms as [|m ms IH]; intros ms' H; simpl in H.
  - discriminate.
  - destruct (String.eqb (mname m) name).
    + destruct (accepts (mtype m) v); [|discriminate].
      injection H as <-. reflexivity.
    + destruct (write_member name v ms) as [ms1|]; [|discriminate].
      injection H as <-. unfold shape in *. simpl. rewrite (IH ms1 eq_refl).
      reflexivity.
Qed.

Lemma setProperty_shape c name v c' :
  setProperty c name v = Some c' -> shape (members c') = shape (members c).
Proof.
  unfold setProperty.
  destruct (find_member name (members c)) as [m|].
  - destruct (write_member name v (members c)) as [ms'|] eqn:Hw; [|discriminate].
    intros H. injection H as <-. simpl. eapply write_member_shape; eauto.
  - repeat match goal with
           | |- context [String.eqb name ?lit] => destruct (String.eqb name lit)
           end;
      try discriminate; destruct v; try discriminate;
      intros H; injection H as <-; reflexivity.
Qed.

Lemma find_member_shape name ms ms' :
  shape ms = shape ms' ->
  find_member name ms = None -> find_member name ms' = None.
Proof.
  unfold find_member, shape. revert ms'.
  induction ms as [|m ms IH]; intros [|m' ms'] Hs H; simpl in *;
    try discriminate; [reflexivity|].
  injection Hs as Hn Ht Hs. rewrite <- Hn.
  destruct (String.eqb (mname m) name); [discriminate|]. eauto.
Qed.

Lemma write_member_refused_shape name v ms ms' :
  shape ms = shape ms' ->
  write_member name v ms = None -> write_member name v ms' = None.
Proof.
  unfold shape. revert ms'.
  induction ms as [|m ms IH]; intros [|m' ms'] Hs H; simpl in *;
    try discriminate; [reflexivity|].
  injection Hs as Hn Ht Hs. rewrite <- Hn, <- Ht.
  destruct (String.eqb (mname m) name).
  - destruct (accepts (mtype m) v); [discriminate | reflexivity].
  - destruct (write_member name v ms) as [ms1|]; [discriminate|].
    rewrite (IH ms' Hs eq_refl). reflexivity.
Qed.

Lemma setProperty_refused_shape c c' name v :
  shape (members c) = shape (members c') ->
  setProperty c name v = None -> setProperty c' name v = None.
Proof.
  intros Hs. unfold setProperty.
  destruct (find_member name (members c)) as [m|] eqn:Hf.
  - destruct (find_member name (members c')) as [m'|] eqn:Hf'.
    + destruct (write_member name v (members c)) as [ms|] eqn:Hw;
        [discriminate|]. intros _.
      rewrite (write_member_refused_shape _ _ _ _ Hs Hw). reflexivity.
    + rewrite (find_member_shape _ _ _ (eq_sym Hs) Hf') in Hf. discriminate.
  - rewrite (find_member_shape _ _ _ Hs Hf).
    repeat match goal with
           | |- context [String.eqb name ?lit] => destruct (String.eqb name lit)
           end;
      try reflexivity; destruct v; try reflexivity; discriminate.
Qed.

(** ** One turn of the transfer, from its causes *)

Lemma getInput_scan_others child parent name t props : forall st b st',
  getInput_scan child parent name t props st = Ok b st' ->
  forall q, q <> child -> heap st' !! q = heap st !! q.
Proof.
  induction props as [|n props IH]; intros st b st' H q Hq; simpl in H.
  - injection H as _ <-. reflexivity.
  - destruct (is_target n t); [|eauto].
    apply bind_Ok in H as (p & s1 & H1 & H). apply node_Ok in H1 as [Hp ->].
    destruct (isValid (property p name)).
    + apply bind_Ok in H as (c & s1 & H1 & H). apply node_Ok in H1 as [Hc ->].
      destruct (setProperty c n (property p name)) as [c'|].
      * apply bind_Ok in H as (u & s1 & H1 & H).
        destruct (update_lookup _ _ _ _ _ _ H1 Hc) as (_ & Hother & _).
        rewrite (IH _ _ _ H q Hq). apply Hother, Hq.
      * apply bind_Ok in H as (u & s1 & H1 & H).
        inversion H1; subst s1. inversion H; subst st'. reflexivity.
    + apply bind_Ok in H as (u & s1 & H1 & H).
      inversion H1; subst s1. inversion H; subst st'. reflexivity.
Qed.

Lemma getInput_property_others child parent name st b st' :
  getInput_property child parent name st = Ok b st' ->
  forall q, q <> child -> heap st' !! q = heap st !! q.
Proof.
  unfold getInput_property.
  destruct (parentPropBaseName name) as [base|];
    [|intros H; injection H as _ <-; reflexivity].
  intros H.
  apply bind_Ok in H as (c & s1 & H1 & H). apply node_Ok in H1 as [Hc ->].
  apply bind_Ok in H as (p & s1 & H1 & H). apply node_Ok in H1 as [Hp ->].
  apply bind_Ok in H as (t & s1 & H1 & H).
  destruct (childPropBaseName _ _ _); [|discriminate].
  injection H1 as <- <-.
  destruct (startsWith name QA_PAR && negb (Rules.contains _ base)).
  - injection H as _ <-. reflexivity.
  - eapply getInput_scan_others; eauto.
Qed.

Lemma getInput_loop_others child parent props : forall st b st',
  getInput_loop child parent props st = Ok b st' ->
  forall q, q <> child -> heap st' !! q = heap st !! q.
Proof.
  induction props as [|n props IH]; intros st b st' H q Hq; simpl in H.
  - injection H as _ <-. reflexivity.
  - apply bind_Ok in H as (b1 & s1 & H1 & H).
    rewrite <- (getInput_property_others _ _ _ _ _ _ H1 q Hq).
    destruct b1; [eauto | injection H as _ <-; reflexivity].
Qed.

Section Turn.

Variables child parent : nat.
Variable p : QAlgorithm.
Variables name t : string.

(** The value cannot be read: the first property of the child that would
    take it ends the scan. *)
Lemma getInput_scan_invalid props : forall st,
  heap st !! parent = Some p ->
  isValid (property p name) = false ->
  (exists n, In n props /\ receives t n) ->
  getInput_scan child parent name t props st
  = Ok false (with_log (log st ++ [Warning (ReadFailed parent name)]) st).
Proof.
  induction props as [|n0 props IH]; intros st Hp Hv (n & Hin & Hn).
  - destruct Hin.
  - cbn [getInput_scan]. destruct (is_target n0 t) eqn:Hn0.
    + unfold bind, node. rewrite Hp, Hv. reflexivity.
    + apply IH; [exact Hp | exact Hv|]. exists n. split; [|exact Hn].
      destruct Hin as [<-|Hin]; [|exact Hin].
      apply is_target_receives in Hn. congruence.
Qed.

Hypothesis distinct : child <> parent.

(** Every property that takes the value accepts it: all of them are
    written, and nothing else is. *)
Lemma getInput_scan_writes props : forall st c,
  heap st !! parent = Some p ->
  heap st !! child = Some c ->
  isValid (property p name) = true ->
  (forall n, In n props -> receives t n ->
             setProperty c n (property p name) <> None) ->
  exists st1 c1,
    getInput_scan child parent name t props st = Ok true st1 /\
    heap st1 !! child = Some c1 /\
    shape (members c1) = shape (members c) /\
    (forall n, In n props -> receives t n ->
               property c1 n = property p name) /\
    (forall n, receives t n -> property c n = property p name ->
               property c1 n = property p name) /\
    (forall n, ~ receives t n -> property c1 n = property c n) /\
    log st1 = log st /\ events st1 = events st /\ pool st1 = pool st /\
    wires st1 = wires st.
Proof.
  induction props as [|n0 props IH]; intros st c Hp Hc Hv Hacc.
  - exists st, c. cbn [getInput_scan]. repeat split; auto.
    intros n [].
  - cbn [getInput_scan]. destruct (is_target n0 t) eqn:Hn0.
    + apply is_target_receives in Hn0.
      destruct (setProperty c n0 (property p name)) as [c0|] eqn:Hset;
        [|exfalso; apply (Hacc n0); [left; reflexivity | exact Hn0 | exact Hset]].
      set (s0 := with_heap (<[child := c0]> (heap st)) st).
      assert (Hlt : child < length (heap st)) by (eapply lookup_lt_Some; eauto).
      assert (Hc0 : heap s0 !! child = Some c0)
        by (apply list_lookup_insert_eq; exact Hlt).
      assert (Hp0 : heap s0 !! parent = Some p).
      { simpl. rewrite list_lookup_insert_ne by congruence. exact Hp. }
      pose proof (setProperty_shape _ _ _ _ Hset) as Hshape.
      destruct (IH s0 c0 Hp0 Hc0 Hv) as (st1 & c1 & Hrun & Hc1 & Hs1 & Hall
                                         & Hkeep & Hframe & Hl & He & Hpl & Hw).
      { intros n Hin Hn Hnone. apply (Hacc n); [right; exact Hin | exact Hn|].
        eapply setProperty_refused_shape; [|exact Hnone]. exact Hshape. }
      exists st1, c1. split.
      { unfold bind, node. rewrite Hp, Hv, Hc, Hset.
        unfold update. rewrite Hc. exact Hrun. }
      split; [exact Hc1|]. split; [congruence|].
      assert (Hkeep0 : forall n, receives t n ->
                property c n = property p name ->
                property c1 n = property p name).
      { intros n Hn Hval. apply (Hkeep n Hn).
        destruct (decide (n = n0)) as [->|Hne].
        - eapply setProperty_read; eauto.
        - rewrite (setProperty_frame _ _ _ _ _ Hset Hne). exact Hval. }
      split; [|split; [exact Hkeep0|split]].
      * intros n [<-|Hin] Hn.
        -- apply (Hkeep n0 Hn). eapply setProperty_read; eauto.
        -- apply Hall; assumption.
      * intros n Hn. rewrite (Hframe n Hn).
        apply (setProperty_frame _ _ _ _ _ Hset). intros ->. auto.
      * auto.
    + apply is_target_not_receives in Hn0.
      destruct (IH st c Hp Hc Hv) as (st1 & c1 & Hrun & Hc1 & Hs1 & Hall
                                      & Hkeep & Hrest).
      { intros n Hin. apply Hacc. right. exact Hin. }
      exists st1, c1. split; [exact Hrun|]. split; [exact Hc1|].
      split; [exact Hs1|]. split; [|split; [exact Hkeep | exact Hrest]].
      intros n [<-|Hin] Hn; [contradiction | apply Hall; assumption].
Qed.

(** Some property that takes the value refuses it: the scan ends at the
    first that does, with its warning. *)
Lemma getInput_scan_refused props : forall st c,
  heap st !! parent = Some p ->
  heap st !! child = Some c ->
  isValid (property p name) = true ->
  (exists n, In n props /\ receives t n /\
             setProperty c n (property p name) = None) ->
  exists st1 n',
    getInput_scan child parent name t props st = Ok false st1 /\
    In n' props /\ receives t n' /\
    setProperty c n' (property p name) = None /\
    log st1 = log st ++ [Warning (SetFailed child n')] /\
    events st1 = events st /\ pool st1 = pool st /\ wires st1 = wires st.
Proof.
  induction props as [|n0 props IH]; intros st c Hp Hc Hv (n & Hin & Hn & Hr).
  - destruct Hin.
  - cbn [getInput_scan]. destruct (is_target n0 t) eqn:Hn0.
    + apply is_target_receives in Hn0.
      destruct (setProperty c n0 (property p name)) as [c0|] eqn:Hset.
      * set (s0 := with_heap (<[child := c0]> (heap st)) st).
        assert (Hlt : child < length (heap st))
          by (eapply lookup_lt_Some; eauto).
        assert (Hc0 : heap s0 !! child = Some c0)
          by (apply list_lookup_insert_eq; exact Hlt).
        assert (Hp0 : heap s0 !! parent = Some p).
        { simpl. rewrite list_lookup_insert_ne by congruence. exact Hp. }
        pose proof (setProperty_shape _ _ _ _ Hset) as Hshape.
        destruct (IH s0 c0 Hp0 Hc0 Hv)
          as (st1 & n' & Hrun & Hin' & Hn' & Hr' & Hrest).
        { exists n. split; [|split; [exact Hn|]].
          - destruct Hin as [<-|Hin]; [congruence | exact Hin].
          - eapply setProperty_refused_shape; [|exact Hr].
            symmetry. exact Hshape. }
        exists st1, n'. split.
        { unfold bind, node. rewrite Hp, Hv, Hc, Hset.
          unfold update. rewrite Hc. exact Hrun. }
        split; [right; exact Hin'|]. split; [exact Hn'|].
        split; [|exact Hrest].
        eapply setProperty_refused_shape; [|exact Hr']. exact Hshape.
      * exists (with_log (log st ++ [Warning (SetFailed child n0)]) st), n0.
        split.
        { unfold bind, node. rewrite Hp, Hv, Hc, Hset. reflexivity. }
        split; [left; reflexivity|]. split; [exact Hn0|].
        split; [exact Hset|]. repeat split; reflexivity.
    + destruct (IH st c Hp Hc Hv)
        as (st1 & n' & Hrun & Hin' & Hrest).
      { exists n. split; [|split; assumption].
        destruct Hin as [<-|Hin]; [|exact Hin].
        apply is_target_receives in Hn. congruence. }
      exists st1, n'. split; [exact Hrun|]. split; [right; exact Hin'|].
      exact Hrest.
Qed.

End Turn.

(** A slot that takes part in the transfer: every output, and the
    parameters that the rules of the child mention. *)
Lemma getInput_property_slot child parent c p s name st :
  heap st !! child = Some c ->
  heap st !! parent = Some p ->
  name = QA_OUT +:+ s
  \/ (name = QA_PAR +:+ s /\ mentions (getPropagationRules c) s) ->
  getInput_property child parent name st
  = match childPropBaseName (getPropagationRules c) (objectName p) s with
    | None => Fail EmptyList
    | Some t => getInput_scan child parent name t (propertyNames c) st
    end.
Proof.
  intros Hc Hp [->|[-> Hm]].
  - apply getInput_property_out; assumption.
  - rewrite (getInput_property_par _ _ _ _ _ _ Hc Hp).
    apply rules_contains_mentions in Hm. rewrite Hm. reflexivity.
Qed.

(** ** The loop around the turns *)

Lemma getInput_loop_app child parent l1 l2 st :
  getInput_loop child parent (l1 ++ l2) st
  = match getInput_loop child parent l1 st with
    | Ok true s1 => getInput_loop child parent l2 s1
    | Ok false s1 => Ok false s1
    | Fail e => Fail e
    end.
Proof.
  revert st. induction l1 as [|n l1 IH]; intros st.
  - reflexivity.
  - cbn [app getInput_loop]. unfold bind.
    destruct (getInput_property child parent n st) as [[|] s1|e];
      [apply IH | reflexivity | reflexivity].
Qed.

(** [getInput] at the slot [name] of the parent. *)
Lemma getInput_at child parent p name pre rest st st0 :
  heap st !! parent = Some p ->
  propertyNames p = pre ++ name :: rest ->
  getInput_loop child parent pre st = Ok true st0 ->
  getInput child parent st
  = match getInput_property child parent name st0 with
    | Ok true s1 => getInput_loop child parent rest s1
    | Ok false s1 => Ok false s1
    | Fail e => Fail e
    end.
Proof.
  intros Hp Hnames Hpre. unfold getInput, bind at 1, node. rewrite Hp, Hnames.
  rewrite getInput_loop_app, Hpre. cbn [getInput_loop]. unfold bind.
  destruct (getInput_property child parent name st0) as [[|] s1|e];
    reflexivity.
Qed.


(** C4.  When the output [algout_s] of a parent is propagated to a child,
    the name [t] on the child's side is [s] itself when the rules of the
    child have no entry for [s], the value of the entry when they have
    exactly one, and otherwise the first value that the parent's object name
    occurs in, the entries taken from the most recently inserted one on; when
    it occurs in none, the selection of the code is empty and the model
    fails.  The name [t] is the one that the transfer uses: when the value
    is valid and accepted, the turn of [getInput] for [algout_s] leaves it in
    the input and in the parameter of the child named [t], and changes no
    other property. *)
Theorem output_target_resolution :
  forall (child parent : nat) (c p : QAlgorithm) (s : string) (st : State),
    heap st !! child = Some c ->
    heap st !! parent = Some p ->
    exists target : option string,
      (~ mentions (getPropagationRules c) s -> target = Some s) /\
      (forall u, only_value (getPropagationRules c) s u -> target = Some u) /\
      (several_values (getPropagationRules c) s ->
         (forall t, target = Some t
                    <-> first_value (occurs_in (objectName p))
                                    (getPropagationRules c) s t) /\
         (target = None
          <-> forall u, In (s, u) (getPropagationRules c) ->
                        ~ occurs_in (objectName p) u)) /\
      match target with
      | None =>
          getInput_property child parent (QA_OUT +:+ s) st = Fail EmptyList
      | Some t =>
          child <> parent ->
          isValid (property p (QA_OUT +:+ s)) = true ->
          (forall n, In n (propertyNames c) -> receives t n ->
                     setProperty c n (property p (QA_OUT +:+ s)) <> None) ->
          exists st1 c1,
            getInput_property child parent (QA_OUT +:+ s) st = Ok true st1 /\
            heap st1 !! child = Some c1 /\
            (forall n, In n (propertyNames c) -> receives t n ->
                       property c1 n = property p (QA_OUT +:+ s)) /\
            (forall n, ~ receives t n -> property c1 n = property c n)
      end.
Proof.
  intros child parent c p s st Hc Hp.
  exists (childPropBaseName (getPropagationRules c) (objectName p) s).
  destruct (childPropBaseName_resolves (getPropagationRules c) (objectName p) s)
    as (Hnone & Hone & Hmany).
  split; [exact Hnone|]. split; [exact Hone|]. split; [exact Hmany|].
  pose proof (getInput_property_slot child parent c p s (QA_OUT +:+ s) st
                Hc Hp (or_introl eq_refl)) as Hturn.
  destruct (childPropBaseName (getPropagationRules c) (objectName p) s)
    as [t|]; [|exact Hturn].
  intros Hne Hv Hacc.
  destruct (getInput_scan_writes child parent p (QA_OUT +:+ s) t Hne
              (propertyNames c) st c Hp Hc Hv Hacc)
    as (st1 & c1 & Hrun & Hc1 & _ & Hall & _ & Hframe & _).
  exists st1, c1. rewrite Hturn. auto.
Qed.


(** C6, as the code has it.  Let [getInput] have reached the slot [name] of
    the parent, an output or a parameter that the rules of the child
    mention, resolved to the name [t].  When no property of the child is the
    input or the parameter named [t], the slot is passed over: the state is
    the same, nothing is printed, and [getInput] goes on with the slots that
    follow.  When there is such a property and the value of the slot is
    invalid, or some such property refuses the value, [getInput] returns
    [false] there: one warning has been printed, no signal is emitted and no
    call is posted, and the slots that follow are not transferred. *)
Theorem getInput_failure_policy :
  forall (child parent : nat) (c p : QAlgorithm) (s t name : string)
         (pre rest : list string) (st st0 : State),
    child <> parent ->
    heap st !! parent = Some p ->
    propertyNames p = pre ++ name :: rest ->
    getInput_loop child parent pre st = Ok true st0 ->
    heap st0 !! child = Some c ->
    name = QA_OUT +:+ s
    \/ (name = QA_PAR +:+ s /\ mentions (getPropagationRules c) s) ->
    childPropBaseName (getPropagationRules c) (objectName p) s = Some t ->
    ((forall n, In n (propertyNames c) -> ~ receives t n) ->
     getInput_property child parent name st0 = Ok true st0 /\
     getInput child parent st = getInput_loop child parent rest st0)
    /\
    ((exists n, In n (propertyNames c) /\ receives t n) ->
     isValid (property p name) = false ->
     getInput_property child parent name st0
     = Ok false (with_log (log st0 ++ [Warning (ReadFailed parent name)]) st0)
     /\ getInput child parent st
        = Ok false
            (with_log (log st0 ++ [Warning (ReadFailed parent name)]) st0))
    /\
    ((exists n, In n (propertyNames c) /\ receives t n /\
                setProperty c n (property p name) = None) ->
     isValid (property p name) = true ->
     exists st1 n',
       getInput_property child parent name st0 = Ok false st1 /\
       getInput child parent st = Ok false st1 /\
       In n' (propertyNames c) /\ receives t n' /\
       setProperty c n' (property p name) = None /\
       log st1 = log st0 ++ [Warning (SetFailed child n')] /\
       events st1 = events st0 /\ pool st1 = pool st0 /\
       wires st1 = wires st0).
Proof.
  intros child parent c p s t name pre rest st st0
         Hne Hp Hnames Hpre Hc Hslot Ht.
  assert (Hp0 : heap st0 !! parent = Some p).
  { rewrite (getInput_loop_others _ _ _ _ _ _ Hpre parent); [exact Hp|].
    congruence. }
  pose proof (getInput_at child parent p name pre rest st st0 Hp Hnames Hpre)
    as Hat.
  pose proof (getInput_property_slot child parent c p s name st0 Hc Hp0 Hslot)
    as Hturn.
  rewrite Ht in Hturn.
  split; [|split].
  - intros Hmiss.
    assert (Hrun : getInput_property child parent name st0 = Ok true st0).
    { rewrite Hturn. apply getInput_scan_no_target.
      intros n Hin. apply is_target_not_receives, Hmiss.
      apply list_elem_of_In, Hin. }
    split; [exact Hrun|]. rewrite Hat, Hrun. reflexivity.
  - intros Hsome Hv.
    assert (Hrun : getInput_property child parent name st0
                   = Ok false (with_log (log st0
                                 ++ [Warning (ReadFailed parent name)]) st0)).
    { rewrite Hturn. apply (getInput_scan_invalid child parent p); assumption. }
    split; [exact Hrun|]. rewrite Hat, Hrun. reflexivity.
  - intros Hrefused Hv.
    destruct (getInput_scan_refused child parent p name t Hne
                (propertyNames c) st0 c Hp0 Hc Hv Hrefused)
      as (st1 & n' & Hrun & Hrest).
    rewrite <- Hturn in Hrun.
    exists st1, n'. split; [exact Hrun|].
    split; [rewrite Hat, Hrun; reflexivity|]. exact Hrest.
Qed.

(** ** The schedulers do not look at raised signals *)

Lemma respects_ret {A} (a : A) : respects (ret a).
Proof. intros s1 s2 H. simpl. auto. Qed.

Lemma respects_fail {A} e : respects (@fail A e).
Proof. intros s1 s2 H. reflexivity. Qed.

Lemma respects_bind {A B} (c : M A) (k : A -> M B) :
  respects c -> (forall a, respects (k a)) -> respects (bind c k).
Proof.
  intros Hc Hk s1 s2 H. unfold bind. specialize (Hc s1 s2 H).
  destruct (c s1) as [a s1'|e1], (c s2) as [b s2'|e2]; simpl in Hc;
    try contradiction.
  - destruct Hc as [-> Hs]. apply Hk, Hs.
  - exact Hc.
Qed.

Lemma respects_node p : respects (node p).
Proof.
  intros s1 s2 H. unfold node. destruct H as (Hh & Hrest). rewrite Hh.
  destruct (heap s2 !! p); simpl; [|reflexivity].
  split; [reflexivity|]. split; assumption.
Qed.

Lemma respects_update p f : respects (update p f).
Proof.
  intros s1 s2 (Hh & Hp & Hw & Hl). unfold update. rewrite Hh.
  destruct (heap s2 !! p); simpl; [|reflexivity].
  repeat split; simpl; assumption.
Qed.

Lemma quiet_app l1 l2 : quiet (l1 ++ l2) = quiet l1 ++ quiet l2.
Proof. apply List.filter_app. Qed.

Lemma respects_emit sg : respects (emit sg).
Proof.
  intros s1 s2 (Hh & Hp & Hw & Hl). unfold emit. simpl.
  repeat split; simpl; try assumption.
  rewrite !quiet_app, Hl. reflexivity.
Qed.

Lemma respects_post e : respects (post e).
Proof.
  intros s1 s2 (Hh & Hp & Hw & Hl). unfold post. simpl.
  repeat split; simpl; assumption.
Qed.

Lemma respects_connect a b : respects (connect a b).
Proof.
  intros s1 s2 (Hh & Hp & Hw & Hl). unfold connect. simpl.
  repeat split; simpl; try assumption. rewrite Hw. reflexivity.
Qed.

Lemma respects_disconnect a b : respects (disconnect a b).
Proof.
  intros s1 s2 (Hh & Hp & Hw & Hl). unfold disconnect. simpl.
  repeat split; simpl; try assumption. rewrite Hw. reflexivity.
Qed.

Lemma respects_dispatch p : respects (dispatch p).
Proof.
  intros s1 s2 (Hh & Hp & Hw & Hl). unfold dispatch. simpl.
  repeat split; simpl; try assumption. rewrite Hp. reflexivity.
Qed.

Lemma respects_lift {A} e (o : option A) : respects (lift e o).
Proof. destruct o; [apply respects_ret | apply respects_fail]. Qed.

Lemma respects_foreach {A} (l : list A) (body : A -> M unit) :
  (forall x, respects (body x)) -> respects (foreach l body).
Proof.
  intros Hbody. induction l as [|x l IH]; simpl.
  - apply respects_ret.
  - apply respects_bind; [apply Hbody | intros _; exact IH].
Qed.

Lemma respects_raise sender message : respects (raise sender message).
Proof.
  unfold raise. apply respects_bind; [apply respects_emit|]. intros _.
  intros s1 s2 H. destruct H as (Hh & Hp & Hw & Hl). rewrite Hw.
  apply respects_foreach; [|repeat split; assumption].
  intros w. apply respects_post.
Qed.

Create HintDb respects.
#[local] Hint Resolve respects_ret respects_fail respects_node respects_update
  respects_emit respects_post respects_connect respects_disconnect
  respects_dispatch respects_lift respects_raise : respects.

(** Walks down a computation built from the steps above. *)
Ltac respects_steps :=
  repeat first
    [ progress auto with respects
    | apply respects_bind; [|intros ?]
    | apply respects_foreach; intros ?
    | match goal with
      | |- respects (if ?b then _ else _) => destruct b
      | |- respects (match ?o with Some _ => _ | None => _ end) => destruct o
      end ].

Lemma respects_closeConnection a d : respects (closeConnection a d).
Proof. unfold closeConnection. respects_steps. Qed.
#[local] Hint Resolve respects_closeConnection : respects.

Lemma respects_first_found l look : respects (first_found l look).
Proof.
  induction l as [|p l IH]; simpl; respects_steps.
Qed.
#[local] Hint Resolve respects_first_found : respects.

Lemma respects_findSharedThis this : respects (findSharedThis this).
Proof.
  unfold findSharedThis. respects_steps; apply respects_first_found.
Qed.
#[local] Hint Resolve respects_findSharedThis : respects.

Lemma respects_getInput_scan child parent name t props :
  respects (getInput_scan child parent name t props).
Proof.
  induction props as [|n props IH]; simpl; unfold qWarning; respects_steps.
Qed.

Lemma respects_getInput_property child parent name :
  respects (getInput_property child parent name).
Proof.
  unfold getInput_property. respects_steps.
  apply respects_getInput_scan.
Qed.

Lemma respects_getInput_loop child parent props :
  respects (getInput_loop child parent props).
Proof.
  induction props as [|n props IH]; simpl; respects_steps.
  apply respects_getInput_property.
Qed.

Lemma respects_getInput child parent : respects (getInput child parent).
Proof.
  unfold getInput. apply respects_bind; [apply respects_node|].
  intros p. apply respects_getInput_loop.
Qed.
#[local] Hint Resolve respects_getInput : respects.

Lemma respects_setStarted this : respects (setStarted this).
Proof. unfold setStarted. respects_steps. Qed.
#[local] Hint Resolve respects_setStarted : respects.

Lemma respects_parallelExecution fuel : forall this,
  respects (parallelExecution fuel this).
Proof.
  induction fuel as [|fuel IH]; intros this; simpl.
  - apply respects_fail.
  - respects_steps.
Qed.
#[local] Hint Resolve respects_parallelExecution : respects.

Section SchedulerRespects.

Variable run : QAlgorithm -> list QMember * list string.

Lemma respects_call_run this : respects (call_run run this).
Proof. unfold call_run, abort. respects_steps. Qed.
#[local] Hint Resolve respects_call_run : respects.

Lemma respects_serial_propagate fuel :
  (forall this, respects (serialExecution run fuel this)) /\
  (forall this, respects (propagateExecution run fuel this)).
Proof.
  induction fuel as [|fuel [IHs IHp]]; split; intros this; simpl;
    try apply respects_fail.
  - respects_steps.
  - respects_steps.
Qed.

End SchedulerRespects.

Lemma similar_after_abort who message s :
  similar s (final (abort who message) s).
Proof.
  unfold final, abort.
  destruct (raise_effect who message s) as (s' & -> & Hh & Hp & Hw & Hl & _).
  repeat split; try congruence.
  rewrite Hl, quiet_app. simpl. rewrite app_nil_r. reflexivity.
Qed.

(** C7, as the code has it.  [abort] leaves no mark that the schedulers read:
    started from a state in which some node has just raised,
    [parallelExecution], [serialExecution] and [propagateExecution] end with
    the same result, the same nodes, the same pool and the same signals
    other than [raise] as when started from the state before the raise.  A
    node that has raised is therefore dispatched like any other. *)
Theorem raise_does_not_gate_dispatch :
  forall (run : QAlgorithm -> list QMember * list string)
         (fuel this who : nat) (message : string) (s : State),
    agree (parallelExecution fuel this s)
          (parallelExecution fuel this (final (abort who message) s))
    /\ agree (serialExecution run fuel this s)
             (serialExecution run fuel this (final (abort who message) s))
    /\ agree (propagateExecution run fuel this s)
             (propagateExecution run fuel this (final (abort who message) s)).
Proof.
  intros run fuel this who message s.
  pose proof (similar_after_abort who message s) as Hsim.
  destruct (respects_serial_propagate run fuel) as [Hs Hp].
  split; [|split].
  - apply respects_parallelExecution, Hsim.
  - apply Hs, Hsim.
  - apply Hp, Hsim.
Qed.

(** ** Concrete graphs *)

Ltac not_declared Hin :=
  exfalso; simpl in Hin;
  repeat (destruct Hin as [Hin|Hin]; [discriminate|]); destruct Hin.

(** Witness of [output_target_resolution].  The merger has two entries for
    [Numbers]; from the parent named [gen1] the value goes to [In_gen1], the
    older entry, and [In_gen2] is left alone.  The consumer has no rules:
    the output [B] goes to its input [B]. *)
Lemma output_target_resolution_witness :
  let st := initial [Gen1; Merger] in
  let st' := initial [Producer; Consumer] in
  (heap st !! 1 = Some Merger /\
   heap st !! 0 = Some Gen1 /\
   several_values (getPropagationRules Merger) "Numbers" /\
   first_value (occurs_in (objectName Gen1)) (getPropagationRules Merger)
               "Numbers" "In_gen1" /\
   exists st1 c1,
     getInput_property 1 0 (QA_OUT +:+ "Numbers") st = Ok true st1 /\
     heap st1 !! 1 = Some c1 /\
     property c1 "algin_In_gen1" = QVector [1; 2; 3]%Z /\
     property c1 "algin_In_gen2" = QInvalid)
  /\
  (heap st' !! 1 = Some Consumer /\
   heap st' !! 0 = Some Producer /\
   ~ mentions (getPropagationRules Consumer) "B" /\
   exists st1 c1,
     getInput_property 1 0 (QA_OUT +:+ "B") st' = Ok true st1 /\
     heap st1 !! 1 = Some c1 /\
     property c1 "algin_B" = QInt 7).
Proof.
  intros st st'. split.
  - assert (Hc : heap st !! 1 = Some Merger) by reflexivity.
    assert (Hp : heap st !! 0 = Some Gen1) by reflexivity.
    assert (Hs : several_values (getPropagationRules Merger) "Numbers")
      by (exists [], "In_gen2", [], "In_gen1", []; reflexivity).
    assert (Hf : first_value (occurs_in (objectName Gen1))
                   (getPropagationRules Merger) "Numbers" "In_gen1").
    { exists [("Numbers", "In_gen2")], []. split; [reflexivity|]. split.
      - exists "In_", "". reflexivity.
      - intros u [E|[]]. injection E as <-.
        rewrite <- contains_occurs. vm_compute. discriminate. }
    split; [exact Hc|]. split; [exact Hp|]. split; [exact Hs|].
    split; [exact Hf|].
    destruct (output_target_resolution 1 0 Merger Gen1 "Numbers" st Hc Hp)
      as (target & _ & _ & Hmany & Heffect).
    destruct (Hmany Hs) as [Hfirst _].
    apply Hfirst in Hf. subst target.
    destruct Heffect as (st1 & c1 & Hrun & Hc1 & Hall & Hframe).
    + lia.
    + reflexivity.
    + intros n Hin [->| ->]; [vm_compute; discriminate | not_declared Hin].
    + exists st1, c1. split; [exact Hrun|]. split; [exact Hc1|]. split.
      * apply (Hall "algin_In_gen1").
        -- simpl. tauto.
        -- left. reflexivity.
      * rewrite Hframe; [reflexivity|]. intros [E|E]; discriminate.
  - assert (Hc : heap st' !! 1 = Some Consumer) by reflexivity.
    assert (Hp : heap st' !! 0 = Some Producer) by reflexivity.
    assert (Hno : ~ mentions (getPropagationRules Consumer) "B")
      by (intros [v []]).
    split; [exact Hc|]. split; [exact Hp|]. split; [exact Hno|].
    destruct (output_target_resolution 1 0 Consumer Producer "B" st' Hc Hp)
      as (target & Hnone & _ & _ & Heffect).
    rewrite (Hnone Hno) in Heffect.
    destruct Heffect as (st1 & c1 & Hrun & Hc1 & Hall & _).
    + lia.
    + reflexivity.
    + intros n Hin [->| ->]; [vm_compute; discriminate | not_declared Hin].
    + exists st1, c1. split; [exact Hrun|]. split; [exact Hc1|].
      apply (Hall "algin_B").
      * simpl. tauto.
      * left. reflexivity.
Defined.



Example amount_reaches_size :
  read (final (getInput 1 0) (initial [Generator; Average])) 1 "par_Size"
  = QInt 10.
Proof. vm_compute. reflexivity. Qed.

(** C6, counterexample.  The first output of the parent cannot be written to
    the child; [getInput] prints its warning and returns, and the second
    output, whose transfer on its own succeeds, never reaches the child. *)
Lemma failed_transfer_ends_getInput :
  let st := initial [Producer; Consumer] in
  read (final (getInput_property 1 0 "algout_B") st) 1 "algin_B" = QInt 7 /\
  getInput 1 0 st = Ok false (final (getInput 1 0) st) /\
  read (final (getInput 1 0) st) 1 "algin_B" = QInvalid /\
  log (final (getInput 1 0) st) = [Warning (SetFailed 1 "algin_A")].
Proof.
  intros st. split; [|split; [|split]]; vm_compute; reflexivity.
Qed.

(** Witness of [getInput_failure_policy], once for each of its cases: an
    output that the child has no property for, an output that has no value
    yet, and an output that the child refuses. *)
Lemma getInput_failure_policy_witness :
  let miss := initial [Producer; Copy] in
  let invalid := initial [Source; Copy] in
  let refused := initial [Producer; Consumer] in
  (getInput_property 1 0 "algout_A" miss = Ok true miss /\
   getInput 1 0 miss = getInput_loop 1 0 ["algout_B"] miss)
  /\
  (isValid (property Source "algout_X") = false /\
   getInput 1 0 invalid
   = Ok false (with_log (log invalid ++ [Warning (ReadFailed 0 "algout_X")])
                        invalid))
  /\
  (setProperty Consumer "algin_A" (property Producer "algout_A") = None /\
   exists st1 n',
     getInput 1 0 refused = Ok false st1 /\
     log st1 = log refused ++ [Warning (SetFailed 1 n')] /\
     events st1 = events refused /\ pool st1 = pool refused).
Proof.
  intros miss invalid refused.
  assert (Hne : 1 <> 0) by lia.
  split; [|split].
  - assert (Hp : heap miss !! 0 = Some Producer) by reflexivity.
    assert (Hnames : propertyNames Producer
                     = baseProperties ++ "algout_A" :: ["algout_B"])
      by reflexivity.
    assert (Hpre : getInput_loop 1 0 baseProperties miss = Ok true miss)
      by (vm_compute; reflexivity).
    assert (Hc : heap miss !! 1 = Some Copy) by reflexivity.
    assert (Ht : childPropBaseName (getPropagationRules Copy)
                   (objectName Producer) "A" = Some "A") by reflexivity.
    destruct (getInput_failure_policy 1 0 Copy Producer "A" "A" "algout_A"
                baseProperties ["algout_B"] miss miss
                Hne Hp Hnames Hpre Hc (or_introl eq_refl) Ht)
      as (Hmiss & _ & _).
    apply Hmiss. intros n Hin [->| ->]; not_declared Hin.
  - assert (Hp : heap invalid !! 0 = Some Source) by reflexivity.
    assert (Hnames : propertyNames Source = baseProperties ++ "algout_X" :: [])
      by reflexivity.
    assert (Hpre : getInput_loop 1 0 baseProperties invalid = Ok true invalid)
      by (vm_compute; reflexivity).
    assert (Hc : heap invalid !! 1 = Some Copy) by reflexivity.
    assert (Ht : childPropBaseName (getPropagationRules Copy)
                   (objectName Source) "X" = Some "X") by reflexivity.
    assert (Hv : isValid (property Source "algout_X") = false) by reflexivity.
    split; [exact Hv|].
    destruct (getInput_failure_policy 1 0 Copy Source "X" "X" "algout_X"
                baseProperties [] invalid invalid
                Hne Hp Hnames Hpre Hc (or_introl eq_refl) Ht)
      as (_ & Hinvalid & _).
    apply Hinvalid; [|exact Hv].
    exists "algin_X". split; [simpl; tauto | left; reflexivity].
  - assert (Hp : heap refused !! 0 = Some Producer) by reflexivity.
    assert (Hnames : propertyNames Producer
                     = baseProperties ++ "algout_A" :: ["algout_B"])
      by reflexivity.
    assert (Hpre : getInput_loop 1 0 baseProperties refused = Ok true refused)
      by (vm_compute; reflexivity).
    assert (Hc : heap refused !! 1 = Some Consumer) by reflexivity.
    assert (Ht : childPropBaseName (getPropagationRules Consumer)
                   (objectName Producer) "A" = Some "A") by reflexivity.
    assert (Hr : setProperty Consumer "algin_A" (property Producer "algout_A")
                 = None) by reflexivity.
    split; [exact Hr|].
    destruct (getInput_failure_policy 1 0 Consumer Producer "A" "A" "algout_A"
                baseProperties ["algout_B"] refused refused
                Hne Hp Hnames Hpre Hc (or_introl eq_refl) Ht)
      as (_ & _ & Hrefused).
    destruct Hrefused as (st1 & n' & _ & Hrun & _ & _ & _ & Hl & He & Hpl & _).
    + exists "algin_A". split; [simpl; tauto|]. split; [left; reflexivity|].
      exact Hr.
    + reflexivity.
    + exists st1, n'. auto.
Defined.

(** C7, counterexample.  The faulty parent of a chain raises while it runs;
    the queued [abort] of its child is delivered, so the child has raised
    when the parent's completion is propagated, and the child is started and
    run all the same.  Likewise a node on which [abort] has been called runs
    when [serialExecution] is called on it. *)
Lemma raised_node_is_dispatched :
  let s0 := final (setConnection 0 1) (initial [Faulty; Copy]) in
  let s' := final (parallelExecution 10 1 ;; exec exampleRun 20) s0 in
  let s'' := final (abort 0 "stop" ;; serialExecution exampleRun 5 0)
                   (initial [Source]) in
  (parallelExecution 10 1 ;; exec exampleRun 20) s0 = Ok tt s' /\
  log s' = [JustStarted 0; RunCalled 0; Raise 0 "amount must be positive";
            Raise 1 "amount must be positive"; JustFinished 0;
            Warning (ReadFailed 0 "algout_X"); JustStarted 1;
            Raise 0 "amount must be positive"; RunCalled 1; JustFinished 1] /\
  run_after_raise 1 (log s') = true /\
  log s'' = [Raise 0 "stop"; JustStarted 0; RunCalled 0; JustFinished 0] /\
  run_after_raise 0 (log s'') = true.
Proof.
  intros s0 s' s''.
  split; [|split; [|split; [|split]]]; vm_compute; reflexivity.
Qed.

(** C1, at a failing input.  [serialExecution] called on the second node of the
    chain [Source >> Copy] calls [run] on that node twice: once from the
    propagation of its parent, and once more when the walk over the
    ancestors returns. *)
Theorem serialExecution_runs_node_twice :
  let s' := final (serialExecution exampleRun 10 1) chain2 in
  serialExecution exampleRun 10 1 chain2 = Ok tt s' /\
  log s' = [JustStarted 0; RunCalled 0; JustFinished 0;
            JustStarted 1; RunCalled 1; JustFinished 1;
            JustStarted 1; RunCalled 1; JustFinished 1] /\
  runs_of 1 (log s') = 2.
Proof.
  intros s'. split; [|split]; vm_compute; reflexivity.
Qed.

(** C2, at a failing input.  On the chain [Source >> Copy >> Copy] the
    parallel execution leaves 5 in the output of the middle node; the serial
    execution runs the middle node a second time, after its input has been
    cleared, and leaves its output empty. *)
Theorem serial_and_parallel_outputs_differ :
  let sp := final (parallelExecution 10 2 ;; exec exampleRun 20) chain3 in
  let ss := final (serialExecution exampleRun 10 2) chain3 in
  (parallelExecution 10 2 ;; exec exampleRun 20) chain3 = Ok tt sp /\
  serialExecution exampleRun 10 2 chain3 = Ok tt ss /\
  read sp 1 "algout_X" = QInt 5 /\
  read ss 1 "algout_X" = QInvalid /\
  runs (log sp) = [0; 1; 2] /\
  runs (log ss) = [0; 1; 2; 1; 2].
Proof.
  intros sp ss.
  split; [|split; [|split; [|split; [|split]]]]; vm_compute; reflexivity.
Qed.

(** C3, at a failing input.  A node that does not keep its input, followed by
    a descendant that does: after the node has finished and propagated, its
    input is still there and the edge is still there.  With the flags
    exchanged the input of the node is cleared and the edge removed although
    the node keeps its input: the flag of the descendant decides. *)
Theorem clearing_follows_the_descendant :
  let sa := final (setConnection 0 1 ;; serialExecution exampleRun 10 0)
                  (initial [Fed; Keeper]) in
  let sb := final (setConnection 0 1 ;; serialExecution exampleRun 10 0)
                  (initial [setKeepInput true Fed; Copy]) in
  (setConnection 0 1 ;; serialExecution exampleRun 10 0) (initial [Fed; Keeper])
  = Ok tt sa /\
  read sa 0 "par_KeepInput" = QBool false /\
  read sa 0 "algin_X" = QInt 3 /\
  descendants_of (heap sa) 0 = [(1, true)] /\
  (setConnection 0 1 ;; serialExecution exampleRun 10 0)
    (initial [setKeepInput true Fed; Copy])
  = Ok tt sb /\
  read sb 0 "par_KeepInput" = QBool true /\
  read sb 0 "algin_X" = QInvalid /\
  descendants_of (heap sb) 0 = [].
Proof.
  intros sa sb.
  split; [|split; [|split; [|split; [|split; [|split; [|split]]]]]];
    vm_compute; reflexivity.
Qed.

(** C9, at a failing input.  Both edges of [Source >> Copy >> Copy] are
    removable, and so is the edge of [Source >> Copy]; [improveTree] clears
    the flag of the middle node of the first chain only, and of no node of
    the second: the first node of a chain keeps [ParallelExecution]. *)
Theorem improveTree_leaves_the_first_node :
  let s2 := final (improveTree 10 0) chain2 in
  let s3 := final (improveTree 10 0) chain3 in
  isRemovableConnection 0 1 chain2 = Ok true chain2 /\
  improveTree 10 0 chain2 = Ok tt s2 /\
  map getParallelExecution (heap s2) = [true; true] /\
  isRemovableConnection 0 1 chain3 = Ok true chain3 /\
  isRemovableConnection 1 2 chain3 = Ok true chain3 /\
  improveTree 10 0 chain3 = Ok tt s3 /\
  map getParallelExecution (heap s3) = [true; false; true].
Proof.
  intros s2 s3.
  split; [|split; [|split; [|split; [|split; [|split]]]]];
    vm_compute; reflexivity.
Qed.

(** * Further properties of the code *)

(** ** Connecting and disconnecting *)

Lemma checkConnection_eval a d s :
  checkConnection a d s
  = match heap s !! a with
    | None => Fail NullPointer
    | Some qa =>
        if CompletionMap.contains d (getDescendants qa) then
          match heap s !! d with
          | None => Fail NullPointer
          | Some qd => Ok (CompletionMap.contains a (getAncestors qd)) s
          end
        else Ok false s
    end.
Proof.
  unfold checkConnection, bind, node.
  destruct (heap s !! a) as [qa|]; [|reflexivity]. cbn beta iota.
  destruct (CompletionMap.contains d (getDescendants qa)); [|reflexivity].
  destruct (heap s !! d); reflexivity.
Qed.

Lemma checkConnection_value a d s :
  a < length (heap s) ->
  d < length (heap s) ->
  checkConnection a d s
  = Ok (CompletionMap.contains d (descendants_of (heap s) a)
        && CompletionMap.contains a (ancestors_of (heap s) d)) s.
Proof.
  intros Ha Hd. rewrite checkConnection_eval.
  unfold descendants_of, ancestors_of.
  destruct (lookup_lt_is_Some_2 _ _ Ha) as [qa ->].
  destruct (lookup_lt_is_Some_2 _ _ Hd) as [qd ->].
  destruct (CompletionMap.contains d (getDescendants qa)); reflexivity.
Qed.

(** X1.  A connection that has been set is found by [checkConnection], and is
    not found any more once it has been closed. *)
Theorem connection_set_checked_closed :
  forall (a d : nat) (s : State),
    a < length (heap s) ->
    d < length (heap s) ->
    exists s1 s2,
      setConnection a d s = Ok tt s1 /\
      checkConnection a d s1 = Ok true s1 /\
      closeConnection a d s1 = Ok tt s2 /\
      checkConnection a d s2 = Ok false s2.
Proof.
  intros a d s Ha Hd.
  destruct (apply_op_total (Connect a d) s (conj Ha Hd)) as (s1 & Hset & Hl1).
  simpl in Hset.
  assert (Ha1 : a < length (heap s1)) by lia.
  assert (Hd1 : d < length (heap s1)) by lia.
  destruct (apply_op_total (Disconnect a d) s1 (conj Ha1 Hd1))
    as (s2 & Hclose & Hl2).
  simpl in Hclose.
  exists s1, s2. split; [exact Hset|]. split; [|split; [exact Hclose|]].
  - rewrite (checkConnection_value a d s1 Ha1 Hd1).
    destruct (setConnection_adjacency _ _ _ _ _ Hset) as [Hdesc Hanc].
    destruct (Hdesc a) as [v ->]. destruct (Hanc d) as [w ->].
    rewrite !decide_True by reflexivity.
    rewrite !cm_contains_insert, !Nat.eqb_refl. reflexivity.
  - rewrite (checkConnection_value a d s2) by lia.
    destruct (closeConnection_adjacency _ _ _ _ _ Hclose) as [Hdesc Hanc].
    rewrite Hdesc, Hanc. rewrite !decide_True by reflexivity.
    rewrite !cm_contains_remove, !Nat.eqb_refl. reflexivity.
Qed.

Lemma connection_set_checked_closed_witness :
  let s := initial [Source; Copy] in
  0 < length (heap s) /\ 1 < length (heap s) /\
  exists s1 s2,
    setConnection 0 1 s = Ok tt s1 /\
    checkConnection 0 1 s1 = Ok true s1 /\
    closeConnection 0 1 s1 = Ok tt s2 /\
    checkConnection 0 1 s2 = Ok false s2.
Proof.
  intros s.
  assert (H0 : 0 < length (heap s)) by (simpl; lia).
  assert (H1 : 1 < length (heap s)) by (simpl; lia).
  exact (conj H0 (conj H1 (connection_set_checked_closed 0 1 s H0 H1))).
Defined.

Lemma node_run p s q :
  heap s !! p = Some q -> node p s = Ok q s.
Proof. unfold node. intros ->. reflexivity. Qed.

Lemma update_run p f s q :
  heap s !! p = Some q ->
  update p f s = Ok tt (with_heap (<[p := f q]> (heap s)) s).
Proof. unfold update. intros ->. reflexivity. Qed.

(** The state that [setConnection] leaves. *)
Lemma setConnection_exact a d s qa qd :
  heap s !! a = Some qa ->
  heap s !! d = Some qd ->
  exists s1,
    setConnection a d s = Ok tt s1 /\
    ancestors_of (heap s1) d
    = CompletionMap.insert a (isFinished qa) (ancestors_of (heap s) d) /\
    descendants_of (heap s1) a
    = CompletionMap.insert d (isFinished qd) (descendants_of (heap s) a) /\
    wires s1 = wires s ++ [(a, d); (d, a)] /\
    events s1 = events s /\ pool s1 = pool s /\ log s1 = log s /\
    length (heap s1) = length (heap s).
Proof.
  intros Ha Hd.
  assert (Hlen : a < length (heap s)) by (eapply lookup_lt_Some; eauto).
  assert (Hlend : d < length (heap s)) by (eapply lookup_lt_Some; eauto).
  unfold setConnection, bind.
  rewrite (node_run _ _ _ Hd), (update_run _ _ _ _ Ha).
  set (qa' := set_descendants
                (CompletionMap.insert d (isFinished qd) (descendants qa)) qa).
  set (s0 := with_heap (<[a := qa']> (heap s)) s).
  assert (Ha0 : heap s0 !! a = Some qa')
    by (apply list_lookup_insert_eq; exact Hlen).
  rewrite (node_run _ _ _ Ha0).
  destruct (decide (d = a)) as [->|Hda].
  - rewrite (update_run _ _ _ _ Ha0). simpl.
    eexists. split; [reflexivity|]. simpl.
    rewrite Hd in Ha. inversion Ha; subst qd.
    unfold ancestors_of, descendants_of.
    rewrite !list_lookup_insert_eq
      by (rewrite ?length_insert; exact Hlen).
    rewrite Hd. simpl. rewrite <- app_assoc, !length_insert.
    repeat split; reflexivity.
  - assert (Hd0 : heap s0 !! d = Some qd).
    { simpl. rewrite list_lookup_insert_ne by congruence. exact Hd. }
    rewrite (update_run _ _ _ _ Hd0). simpl.
    eexists. split; [reflexivity|]. simpl.
    unfold ancestors_of, descendants_of.
    rewrite list_lookup_insert_eq
      by (rewrite ?length_insert; exact Hlend).
    rewrite list_lookup_insert_ne by congruence.
    rewrite list_lookup_insert_eq by exact Hlen.
    rewrite Ha, Hd. simpl. rewrite <- app_assoc, !length_insert.
    repeat split; reflexivity.
Qed.

Lemma allInputsReady_insert_fresh k v m q :
  CompletionMap.contains k (getAncestors q) = false ->
  m = CompletionMap.insert k v (getAncestors q) ->
  allInputsReady (set_ancestors m q) = v && allInputsReady q.
Proof.
  intros Hfresh ->. unfold allInputsReady, getAncestors in *. simpl.
  induction (ancestors q) as [|[k0 v0] l IH]; simpl in *.
  - destruct v; reflexivity.
  - apply orb_false_iff in Hfresh as [Hk Hl].
    rewrite Nat.eqb_sym in Hk. rewrite Hk.
    destruct (k <? k0); simpl.
    + destruct v; reflexivity.
    + rewrite negb_orb in *. rewrite negb_orb. rewrite (IH Hl).
      destruct v, v0; simpl; try reflexivity.
Qed.

(** X2.  Readiness after a connection.  When [a] was not yet an ancestor of
    [d], [d] is ready after [setConnection(a, d)] exactly when it was ready
    before and [a] has finished. *)
Theorem readiness_after_setConnection :
  forall (a d : nat) (s : State) (qa qd : QAlgorithm),
    heap s !! a = Some qa ->
    heap s !! d = Some qd ->
    CompletionMap.contains a (getAncestors qd) = false ->
    exists s1 qd1,
      setConnection a d s = Ok tt s1 /\
      heap s1 !! d = Some qd1 /\
      allInputsReady qd1 = isFinished qa && allInputsReady qd.
Proof.
  intros a d s qa qd Ha Hd Hfresh.
  destruct (setConnection_exact a d s qa qd Ha Hd)
    as (s1 & Hrun & Hanc & _ & _ & _ & _ & _ & Hlen).
  assert (Hd1 : d < length (heap s1)).
  { rewrite Hlen. eapply lookup_lt_Some; eauto. }
  destruct (lookup_lt_is_Some_2 _ _ Hd1) as [qd1 Hqd1].
  exists s1, qd1. split; [exact Hrun|]. split; [exact Hqd1|].
  unfold ancestors_of in Hanc. rewrite Hqd1, Hd in Hanc.
  rewrite <- (allInputsReady_insert_fresh a (isFinished qa) (getAncestors qd1) qd
                Hfresh Hanc).
  unfold allInputsReady. reflexivity.
Qed.

Lemma readiness_after_setConnection_witness :
  let s := initial [Source; Copy] in
  heap s !! 0 = Some Source /\
  heap s !! 1 = Some Copy /\
  CompletionMap.contains 0 (getAncestors Copy) = false /\
  exists s1 qd1,
    setConnection 0 1 s = Ok tt s1 /\
    heap s1 !! 1 = Some qd1 /\
    allInputsReady qd1 = isFinished Source && allInputsReady Copy.
Proof.
  intros s.
  assert (Ha : heap s !! 0 = Some Source) by reflexivity.
  assert (Hd : heap s !! 1 = Some Copy) by reflexivity.
  assert (Hf : CompletionMap.contains 0 (getAncestors Copy) = false)
    by reflexivity.
  exact (conj Ha (conj Hd (conj Hf
    (readiness_after_setConnection 0 1 s Source Copy Ha Hd Hf)))).
Defined.

(** ** Connections and the error channel *)

Lemma closeConnection_wires a d s s1 :
  closeConnection a d s = Ok tt s1 ->
  wires s1
  = List.filter (fun w => negb ((fst w =? d) && (snd w =? a)))
      (List.filter (fun w => negb ((fst w =? a) && (snd w =? d))) (wires s))
  /\ events s1 = events s /\ pool s1 = pool s /\ log s1 = log s.
Proof.
  unfold closeConnection. intros H.
  apply bind_Ok in H as (u1 & s' & H1 & H).
  apply update_Ok in H1 as (qa & Ha & ->).
  apply bind_Ok in H as (u2 & s' & H1 & H).
  apply update_Ok in H1 as (qd & Hd & ->).
  apply bind_Ok in H as (u3 & s' & H1 & H).
  inversion H1; subst s'; clear H1. inversion H; subst s1; clear H.
  simpl. repeat split; reflexivity.
Qed.

(** X3.  Errors travel along connections, and are queued.  After
    [setConnection(a, d)] an [abort] on either node posts the [abort] of the
    other; the other node has not raised when [abort] returns. *)
Theorem abort_is_forwarded_queued :
  forall (a d : nat) (s : State) (qa qd : QAlgorithm) (message : string),
    heap s !! a = Some qa ->
    heap s !! d = Some qd ->
    exists s1 s2 s3,
      setConnection a d s = Ok tt s1 /\
      abort a message s1 = Ok tt s2 /\
      In (AbortCall d message) (events s2) /\
      log s2 = log s ++ [Raise a message] /\
      abort d message s1 = Ok tt s3 /\
      In (AbortCall a message) (events s3) /\
      log s3 = log s ++ [Raise d message].
Proof.
  intros a d s qa qd message Ha Hd.
  destruct (setConnection_exact a d s qa qd Ha Hd)
    as (s1 & Hrun & _ & _ & Hw & He & Hp & Hl & _).
  destruct (raise_effect a message s1) as (s2 & Hr2 & _ & _ & _ & Hl2 & He2).
  destruct (raise_effect d message s1) as (s3 & Hr3 & _ & _ & _ & Hl3 & He3).
  exists s1, s2, s3. unfold abort.
  split; [exact Hrun|]. split; [exact Hr2|]. split; [|split; [congruence|]].
  - rewrite He2, Hw. apply in_or_app. right.
    apply in_map_iff. exists (a, d). split; [reflexivity|].
    apply filter_In. split.
    + apply in_or_app. right. left. reflexivity.
    + simpl. apply Nat.eqb_refl.
  - split; [exact Hr3|]. split; [|congruence].
    rewrite He3, Hw. apply in_or_app. right.
    apply in_map_iff. exists (d, a). split; [reflexivity|].
    apply filter_In. split.
    + apply in_or_app. right. right. left. reflexivity.
    + simpl. apply Nat.eqb_refl.
Qed.

Lemma abort_is_forwarded_queued_witness :
  let s := initial [Source; Copy] in
  heap s !! 0 = Some Source /\
  heap s !! 1 = Some Copy /\
  exists s1 s2 s3,
    setConnection 0 1 s = Ok tt s1 /\
    abort 0 "stop" s1 = Ok tt s2 /\
    In (AbortCall 1 "stop") (events s2) /\
    log s2 = log s ++ [Raise 0 "stop"] /\
    abort 1 "stop" s1 = Ok tt s3 /\
    In (AbortCall 0 "stop") (events s3) /\
    log s3 = log s ++ [Raise 1 "stop"].
Proof.
  intros s.
  assert (Ha : heap s !! 0 = Some Source) by reflexivity.
  assert (Hd : heap s !! 1 = Some Copy) by reflexivity.
  exact (conj Ha (conj Hd
    (abort_is_forwarded_queued 0 1 s Source Copy "stop" Ha Hd))).
Defined.

(** X4.  Closing a connection cuts the error channel.  After
    [closeConnection(a, d)] an [abort] on [a] posts nothing for [d], and an
    [abort] on [d] posts nothing for [a], however often the two had been
    connected. *)
Theorem closeConnection_cuts_the_error_channel :
  forall (a d : nat) (s s1 : State) (message : string),
    closeConnection a d s = Ok tt s1 ->
    exists s2 s3 posted2 posted3,
      abort a message s1 = Ok tt s2 /\
      events s2 = events s ++ posted2 /\
      (forall m, ~ In (AbortCall d m) posted2) /\
      abort d message s1 = Ok tt s3 /\
      events s3 = events s ++ posted3 /\
      (forall m, ~ In (AbortCall a m) posted3).
Proof.
  intros a d s s1 message Hclose.
  destruct (closeConnection_wires _ _ _ _ Hclose) as (Hw & He & _ & _).
  destruct (raise_effect a message s1) as (s2 & Hr2 & _ & _ & _ & _ & He2).
  destruct (raise_effect d message s1) as (s3 & Hr3 & _ & _ & _ & _ & He3).
  exists s2, s3. eexists. eexists. unfold abort.
  split; [exact Hr2|]. split; [rewrite He2, He; reflexivity|].
  split; [|split; [exact Hr3|]; split; [rewrite He3, He; reflexivity|]].
  - intros m Hin. apply in_map_iff in Hin as ([x y] & Heq & Hin).
    simpl in Heq. inversion Heq; subst y.
    apply filter_In in Hin as [Hin Hx]. simpl in Hx.
    apply Nat.eqb_eq in Hx. subst x.
    rewrite Hw in Hin. apply filter_In in Hin as [Hin _].
    apply filter_In in Hin as [_ Hne]. simpl in Hne.
    rewrite !Nat.eqb_refl in Hne. discriminate.
  - intros m Hin. apply in_map_iff in Hin as ([x y] & Heq & Hin).
    simpl in Heq. inversion Heq; subst y.
    apply filter_In in Hin as [Hin Hx]. simpl in Hx.
    apply Nat.eqb_eq in Hx. subst x.
    rewrite Hw in Hin. apply filter_In in Hin as [_ Hne]. simpl in Hne.
    rewrite !Nat.eqb_refl in Hne. discriminate.
Qed.

Lemma closeConnection_cuts_the_error_channel_witness :
  let s1 := final (closeConnection 0 1) chain2 in
  closeConnection 0 1 chain2 = Ok tt s1 /\
  exists s2 s3 posted2 posted3,
    abort 0 "stop" s1 = Ok tt s2 /\
    events s2 = events chain2 ++ posted2 /\
    (forall m, ~ In (AbortCall 1 m) posted2) /\
    abort 1 "stop" s1 = Ok tt s3 /\
    events s3 = events chain2 ++ posted3 /\
    (forall m, ~ In (AbortCall 0 m) posted3).
Proof.
  intros s1.
  assert (Hclose : closeConnection 0 1 chain2 = Ok tt s1)
    by (vm_compute; reflexivity).
  exact (conj Hclose
    (closeConnection_cuts_the_error_channel 0 1 chain2 s1 "stop" Hclose)).
Defined.

Lemma echoing_step r m es s :
  events s = AbortCall r m :: es ->
  echoing s ->
  exists s', abort r m (with_events es s) = Ok tt s' /\ echoing s'.
Proof.
  intros Hev (Hidle & _ & Hcalls & Hclosed).
  destruct (raise_effect r m (with_events es s))
    as (s' & Hrun & _ & Hpool & Hw & _ & He).
  exists s'. split; [exact Hrun|]. simpl in *.
  split; [congruence|].
  destruct (Hcalls (AbortCall r m)) as (r' & m' & y & Heq & Hin).
  { rewrite Hev. left. reflexivity. }
  inversion Heq; subst r' m'.
  assert (Hpost : In (r, y) (List.filter (fun w => fst w =? r) (wires s))).
  { apply filter_In. split; [exact Hin | apply Nat.eqb_refl]. }
  split; [|split].
  - rewrite He. intros Hnil. apply app_eq_nil in Hnil as [_ Hnil].
    apply map_eq_nil in Hnil. rewrite Hnil in Hpost. inversion Hpost.
  - intros e He'. rewrite He in He'. rewrite Hw.
    apply in_app_or in He' as [He'|He'].
    + apply Hcalls. rewrite Hev. right. exact He'.
    + apply in_map_iff in He' as ([x z] & <- & Hxz).
      apply filter_In in Hxz as [Hxz _].
      destruct (Hclosed x z Hxz) as [z' Hz']. simpl. eauto.
  - rewrite Hw. exact Hclosed.
Qed.

(** X5.  An abort between connected nodes echoes for ever.  When no task
    waits in the pool, so that delivering the queue is all that is left to
    do, and the queue holds only [abort] calls for connected nodes,
    delivering them never empties it: the event loop does not come to rest,
    whatever the fuel. *)
Theorem abort_echo_never_ends :
  forall (run : QAlgorithm -> list QMember * list string)
         (fuel : nat) (s : State),
    echoing s -> exec run fuel s = Fail OutOfFuel.
Proof.
  intros run fuel. induction fuel as [|fuel IH]; intros s Hecho.
  - reflexivity.
  - simpl. destruct (events s) as [|e es] eqn:Hev.
    + destruct Hecho as (_ & Hne & _). congruence.
    + destruct Hecho as (Hidle & Hne & Hcalls & Hclosed).
      destruct (Hcalls e) as (r & m & y & -> & Hin).
      { rewrite Hev. left. reflexivity. }
      destruct (echoing_step r m es s Hev
                  (conj Hidle (conj Hne (conj Hcalls Hclosed))))
        as (s' & Hrun & Hecho').
      unfold bind. simpl. rewrite Hrun. apply IH, Hecho'.
Qed.

Lemma abort_echo_never_ends_witness :
  let s := final (abort 0 "stop") chain2 in
  echoing s /\ exec exampleRun 50 s = Fail OutOfFuel.
Proof.
  intros s.
  assert (Hev : events s = [AbortCall 1 "stop"]) by (vm_compute; reflexivity).
  assert (Hw : wires s = [(0, 1); (1, 0)]) by (vm_compute; reflexivity).
  assert (Hidle : pool s = []) by (vm_compute; reflexivity).
  assert (Hecho : echoing s).
  { unfold echoing. rewrite Hev, Hw. split; [exact Hidle|].
    split; [discriminate|]. split.
    - intros e [<-|[]]. exists 1, "stop", 0. split; [reflexivity|].
      right. left. reflexivity.
    - intros x y [E|[E|[]]]; inversion E; subst.
      + exists 0. right. left. reflexivity.
      + exists 1. left. reflexivity. }
  exact (conj Hecho (abort_echo_never_ends exampleRun 50 s Hecho)).
Defined.

(** ** Shared pointers to [this] *)

Lemma find_key_contains k m :
  List.find (fun k' => k' =? k) (CompletionMap.keys m)
  = if CompletionMap.contains k m then Some k else None.
Proof.
  unfold CompletionMap.keys, CompletionMap.contains.
  induction m as [|[k0 v0] m IH]; simpl; [reflexivity|].
  destruct (k0 =? k) eqn:Hk; simpl.
  - apply Nat.eqb_eq in Hk. subst. reflexivity.
  - exact IH.
Qed.

Lemma first_found_result l look s r s' :
  first_found l look s = Ok r s' ->
  s' = s /\
  match r with
  | Some p => exists n q, In n l /\ heap s !! n = Some q /\ look q = Some p
  | None => forall n, In n l -> exists q, heap s !! n = Some q /\ look q = None
  end.
Proof.
  revert s r s'. induction l as [|n l IH]; intros s r s' H; simpl in H.
  - inversion H; subst. split; [reflexivity|]. intros n [].
  - apply bind_Ok in H as (q & s1 & H1 & H). apply node_Ok in H1 as [Hq ->].
    destruct (look q) as [p|] eqn:Hlook.
    + inversion H; subst. split; [reflexivity|].
      exists n, q. split; [left; reflexivity | auto].
    + destruct (IH _ _ _ H) as [-> Hr]. split; [reflexivity|].
      destruct r as [p|].
      * destruct Hr as (n' & q' & Hin & Hq' & Hl).
        exists n', q'. split; [right; exact Hin | auto].
      * intros n' [<-|Hin]; [eauto | apply Hr, Hin].
Qed.

(** X6.  [findSharedThis] answers with the node's own address or with null, and
    changes nothing; a node without neighbours gets null; in a symmetric
    graph every node with a neighbour gets its address. *)
Theorem findSharedThis_finds_this :
  forall (this : nat) (s : State) (q : QAlgorithm),
    heap s !! this = Some q ->
    (forall r s', findSharedThis this s = Ok r s' ->
                  s' = s /\ (r = None \/ r = Some this))
    /\ (getDescendants q = [] -> getAncestors q = [] ->
        findSharedThis this s = Ok None s)
    /\ (symmetric (heap s) ->
        (getDescendants q <> [] \/ getAncestors q <> []) ->
        findSharedThis this s = Ok (Some this) s).
Proof.
  intros this s q Hq. split; [|split].
  - intros r s' H. unfold findSharedThis in H.
    apply bind_Ok in H as (q' & s1 & H1 & H). apply node_Ok in H1 as [_ ->].
    apply bind_Ok in H as (r1 & s1 & H1 & H).
    apply first_found_result in H1 as [-> Hr1].
    destruct r1 as [p|].
    + inversion H; subst. split; [reflexivity|]. right.
      destruct Hr1 as (n & qn & _ & _ & Hlook).
      unfold findAncestor in Hlook. rewrite find_key_contains in Hlook.
      destruct (CompletionMap.contains _ _); congruence.
    + apply first_found_result in H as [-> Hr]. split; [reflexivity|].
      destruct r as [p|]; [right | left; reflexivity].
      destruct Hr as (n & qn & _ & _ & Hlook).
      unfold findDescendant in Hlook. rewrite find_key_contains in Hlook.
      destruct (CompletionMap.contains _ _); congruence.
  - intros Hd Ha. unfold findSharedThis, bind.
    rewrite (node_run _ _ _ Hq), Hd, Ha. reflexivity.
  - intros Hsym Hnb. unfold findSharedThis, bind.
    rewrite (node_run _ _ _ Hq).
    destruct (getDescendants q) as [|[d vd] ds] eqn:Hds.
    + destruct (getAncestors q) as [|[a va] ancs] eqn:Has.
      * destruct Hnb; congruence.
      * simpl.
        pose proof (Hsym a this) as Hs. unfold descendants_of, ancestors_of in Hs.
        rewrite Hq in Hs. unfold getAncestors in Has. unfold getAncestors in Hs.
        rewrite Has in Hs. simpl in Hs. rewrite Nat.eqb_refl in Hs. simpl in Hs.
        destruct (heap s !! a) as [qa|] eqn:Hqa; [|discriminate].
        unfold bind. rewrite (node_run _ _ _ Hqa).
        unfold findDescendant. rewrite find_key_contains, Hs. reflexivity.
    + simpl.
      pose proof (Hsym this d) as Hs. unfold descendants_of, ancestors_of in Hs.
      rewrite Hq in Hs. unfold getDescendants in Hds. unfold getDescendants in Hs.
      rewrite Hds in Hs. simpl in Hs. rewrite Nat.eqb_refl in Hs. simpl in Hs.
      destruct (heap s !! d) as [qd|] eqn:Hqd; [|discriminate].
      unfold bind. rewrite (node_run _ _ _ Hqd).
      unfold findAncestor. rewrite find_key_contains, <- Hs. reflexivity.
Qed.

Lemma findSharedThis_finds_this_witness :
  let q := default Source (heap chain2 !! 0) in
  heap chain2 !! 0 = Some q /\
  (forall r s', findSharedThis 0 chain2 = Ok r s' ->
                s' = chain2 /\ (r = None \/ r = Some 0))
  /\ (getDescendants q = [] -> getAncestors q = [] ->
      findSharedThis 0 chain2 = Ok None chain2)
  /\ (symmetric (heap chain2) ->
      (getDescendants q <> [] \/ getAncestors q <> []) ->
      findSharedThis 0 chain2 = Ok (Some 0) chain2).
Proof.
  intros q.
  assert (Hq : heap chain2 !! 0 = Some q) by (vm_compute; reflexivity).
  exact (conj Hq (findSharedThis_finds_this 0 chain2 q Hq)).
Defined.

(** ** The readiness walk of [parallelExecution] *)

Lemma starts_nil s : starts [] s s.
Proof.
  unfold starts. simpl. rewrite !app_nil_r.
  repeat split; try reflexivity; auto. intros [].
Qed.

Lemma starts_one this q s s' :
  heap s !! this = Some q ->
  (setStarted this ;; dispatch this) s = Ok tt s' ->
  starts [this] s s'.
Proof.
  intros Hq H. unfold setStarted, bind in H.
  rewrite (update_run _ _ _ _ Hq) in H. simpl in H.
  inversion H; subst s'; clear H. unfold starts. simpl.
  assert (Hlt : this < length (heap s)) by (eapply lookup_lt_Some; eauto).
  repeat split; try reflexivity.
  - apply length_insert.
  - intros [<-|[]]. rewrite Hq in H. inversion H; subst.
    apply list_lookup_insert_eq, Hlt.
  - intros Hnot. rewrite list_lookup_insert_ne; [exact H|].
    intros ->. apply Hnot. left. reflexivity.
Qed.

(** Two walks one after the other, the second over nodes that the first has
    left unstarted. *)
Lemma starts_app l1 l2 s s1 s2 :
  starts l1 s s1 ->
  starts l2 s1 s2 ->
  NoDup l1 -> NoDup l2 ->
  (forall n, In n l1 -> exists q, heap s !! n = Some q) ->
  (forall n, In n l2 -> exists q, heap s1 !! n = Some q /\ isStarted q = false) ->
  starts (l1 ++ l2) s s2 /\ NoDup (l1 ++ l2) /\
  (forall n, In n l2 -> exists q, heap s !! n = Some q /\ isStarted q = false).
Proof.
  intros (Hp1 & Hl1 & He1 & Hw1 & Hn1 & Hh1) (Hp2 & Hl2 & He2 & Hw2 & Hn2 & Hh2)
         Hnd1 Hnd2 Hin1 Hun2.
  assert (Hdisj : forall n, In n l1 -> In n l2 -> False).
  { intros n H1 H2. destruct (Hin1 n H1) as [q Hq].
    destruct (Hun2 n H2) as (q1 & Hq1 & Hst).
    rewrite (proj1 (Hh1 n q Hq) H1) in Hq1. inversion Hq1; subst q1.
    discriminate. }
  assert (Hun : forall n, In n l2 ->
                  exists q, heap s !! n = Some q /\ isStarted q = false).
  { intros n H2. destruct (Hun2 n H2) as (q1 & Hq1 & Hst).
    assert (Hlt : n < length (heap s)).
    { rewrite <- Hn1. eapply lookup_lt_Some; eauto. }
    destruct (lookup_lt_is_Some_2 _ _ Hlt) as [q Hq].
    exists q. split; [exact Hq|].
    assert (Hnot : ~ In n l1) by (intros H1; exact (Hdisj n H1 H2)).
    rewrite (proj2 (Hh1 n q Hq) Hnot) in Hq1. congruence. }
  split; [|split; [|exact Hun]].
  - unfold starts. rewrite Hp2, Hp1, Hl2, Hl1, He2, He1, Hw2, Hw1, Hn2, Hn1.
    rewrite map_app, !app_assoc. repeat split; try reflexivity.
    + intros Hin. apply in_app_or in Hin as [H1|H2].
      * assert (Hnot : ~ In p l2) by (intros H2; exact (Hdisj p H1 H2)).
        apply (proj2 (Hh2 p _ (proj1 (Hh1 p q H) H1)) Hnot).
      * assert (Hnot : ~ In p l1) by (intros H1; exact (Hdisj p H1 H2)).
        apply (proj1 (Hh2 p _ (proj2 (Hh1 p q H) Hnot)) H2).
    + intros Hnot.
      assert (Hn1' : ~ In p l1) by (intros H1; apply Hnot, in_or_app; auto).
      assert (Hn2' : ~ In p l2) by (intros H2; apply Hnot, in_or_app; auto).
      apply (proj2 (Hh2 p _ (proj2 (Hh1 p q H) Hn1')) Hn2').
  - apply NoDup_app. split; [exact Hnd1|]. split; [|exact Hnd2].
    intros n H1 H2. apply list_elem_of_In in H1, H2. exact (Hdisj n H1 H2).
Qed.

(** The loop over the unfinished ancestors, given what a call on an
    unstarted node does. *)
Lemma walk_starts (call : nat -> M unit) :
  (forall a s s' q,
      heap s !! a = Some q -> isStarted q = false ->
      call a s = Ok tt s' ->
      exists l, starts l s s' /\ NoDup l /\
                forall n, In n l ->
                  exists q, heap s !! n = Some q /\ isStarted q = false) ->
  forall ancestors s s',
    foreach ancestors
      (fun ancestor =>
         a ← node ancestor;
         if negb (isStarted a) then call ancestor else ret tt) s = Ok tt s' ->
    exists l, starts l s s' /\ NoDup l /\
              forall n, In n l ->
                exists q, heap s !! n = Some q /\ isStarted q = false.
Proof.
  intros Hcall ancestors.
  induction ancestors as [|a ancestors IH]; intros s s' H; simpl in H.
  - inversion H; subst. exists []. split; [apply starts_nil|].
    split; [constructor | intros n []].
  - apply bind_Ok in H as (u & s1 & Hbody & H).
    apply bind_Ok in Hbody as (qa & s0 & Hn & Hbody).
    apply node_Ok in Hn as [Hqa ->].
    assert (Hfirst : exists l1, starts l1 s s1 /\ NoDup l1 /\
              forall n, In n l1 ->
                exists q, heap s !! n = Some q /\ isStarted q = false).
    { destruct (isStarted qa) eqn:Hst; simpl in Hbody.
      - inversion Hbody; subst. exists []. split; [apply starts_nil|].
        split; [constructor | intros n []].
      - destruct u. eapply Hcall; eauto. }
    destruct Hfirst as (l1 & Hs1 & Hnd1 & Hun1).
    destruct (IH _ _ H) as (l2 & Hs2 & Hnd2 & Hun2).
    destruct (starts_app l1 l2 s s1 s' Hs1 Hs2 Hnd1 Hnd2) as (Hs & Hnd & Hun).
    { intros n Hin. destruct (Hun1 n Hin) as (q & Hq & _). eauto. }
    { exact Hun2. }
    exists (l1 ++ l2). split; [exact Hs|]. split; [exact Hnd|].
    intros n Hin. apply in_app_or in Hin as [Hin|Hin]; auto.
Qed.

Lemma parallelExecution_guarded fuel : forall this s s' q,
  heap s !! this = Some q -> isStarted q = false ->
  parallelExecution fuel this s = Ok tt s' ->
  exists l, starts l s s' /\ NoDup l /\
            forall n, In n l ->
              exists q, heap s !! n = Some q /\ isStarted q = false.
Proof.
  induction fuel as [|fuel IH]; intros this s s' q Hq Hst H; simpl in H.
  - inversion H.
  - apply bind_Ok in H as (q' & s0 & Hn & H). apply node_Ok in Hn as [Hq' ->].
    rewrite Hq in Hq'. inversion Hq'; subst q'.
    destruct (allInputsReady q).
    + exists [this]. split; [eapply starts_one; eauto|].
      split; [repeat constructor; intros Hin; inversion Hin|].
      intros n [<-|[]]. eauto.
    + eapply walk_starts; [|exact H]. intros a s1 s2 qa. apply IH.
Qed.

(** X7.  The readiness walk starts every node at most once.  A call of
    [parallelExecution] only marks nodes as started and hands them to the
    pool: it runs nothing, finishes nothing and posts nothing.  The nodes it
    starts are pairwise different, and each of them was unstarted before,
    except possibly the node the call was made on, which is started
    whenever it is ready. *)
Theorem parallelExecution_starts_once :
  forall (fuel this : nat) (s s' : State),
    parallelExecution fuel this s = Ok tt s' ->
    exists l,
      starts l s s' /\
      NoDup l /\
      (forall n, In n l ->
         n = this \/ exists q, heap s !! n = Some q /\ isStarted q = false) /\
      (forall q, heap s !! this = Some q -> allInputsReady q = true ->
                 l = [this]).
Proof.
  intros fuel this s s' H. destruct fuel as [|fuel]; simpl in H.
  - inversion H.
  - apply bind_Ok in H as (q & s0 & Hn & H). apply node_Ok in Hn as [Hq ->].
    destruct (allInputsReady q) eqn:Hready.
    + exists [this]. split; [eapply starts_one; eauto|].
      split; [repeat constructor; intros Hin; inversion Hin|].
      split; [intros n [<-|[]]; auto | auto].
    + destruct (walk_starts (parallelExecution fuel)
                  (fun a s1 s2 qa => parallelExecution_guarded fuel a s1 s2 qa)
                  _ _ _ H) as (l & Hs & Hnd & Hun).
      exists l. split; [exact Hs|]. split; [exact Hnd|].
      split; [intros n Hin; right; apply Hun, Hin|].
      intros q' Hq' Hr. rewrite Hq in Hq'. inversion Hq'; subst. congruence.
Qed.

Lemma parallelExecution_starts_once_witness :
  let s' := final (parallelExecution 5 1) chain2 in
  parallelExecution 5 1 chain2 = Ok tt s' /\
  exists l,
    starts l chain2 s' /\
    NoDup l /\
    (forall n, In n l ->
       n = 1 \/ exists q, heap chain2 !! n = Some q /\ isStarted q = false) /\
    (forall q, heap chain2 !! 1 = Some q -> allInputsReady q = true ->
               l = [1]).
Proof.
  intros s'.
  assert (Hrun : parallelExecution 5 1 chain2 = Ok tt s')
    by (vm_compute; reflexivity).
  exact (conj Hrun (parallelExecution_starts_once 5 1 chain2 s' Hrun)).
Defined.

(** ** What a computation keeps *)

Section Keeps.

Variable T : State -> State -> Prop.
Hypothesis T_refl : forall s, T s s.
Hypothesis T_trans : forall s1 s2 s3, T s1 s2 -> T s2 s3 -> T s1 s3.

Lemma keeps_ret {A} (a : A) : keeps T (ret a).
Proof. intros s a' s' H. inversion H; subst. apply T_refl. Qed.

Lemma keeps_fail {A} e : keeps T (@fail A e).
Proof. intros s a s' H. inversion H. Qed.

Lemma keeps_bind {A B} (c : M A) (k : A -> M B) :
  keeps T c -> (forall a, keeps T (k a)) -> keeps T (bind c k).
Proof.
  intros Hc Hk s b s' H. apply bind_Ok in H as (a & s1 & H1 & H).
  eapply T_trans; [eapply Hc | eapply Hk]; eauto.
Qed.

Lemma keeps_node p : keeps T (node p).
Proof. intros s q s' H. apply node_Ok in H as [_ ->]. apply T_refl. Qed.

Lemma keeps_lift {A} e (o : option A) : keeps T (lift e o).
Proof. destruct o; [apply keeps_ret | apply keeps_fail]. Qed.

Lemma keeps_foreach {A} (l : list A) (body : A -> M unit) :
  (forall x, keeps T (body x)) -> keeps T (foreach l body).
Proof.
  intros Hbody. induction l as [|x l IH]; simpl.
  - apply keeps_ret.
  - apply keeps_bind; [apply Hbody | intros _; exact IH].
Qed.

Lemma keeps_foldM {A B} (l : list A) (body : B -> A -> M B) :
  (forall acc x, keeps T (body acc x)) ->
  forall acc, keeps T (foldM l acc body).
Proof.
  intros Hbody. induction l as [|x l IH]; intros acc; simpl.
  - apply keeps_ret.
  - apply keeps_bind; [apply Hbody | intros acc'; apply IH].
Qed.

Lemma keeps_first_found l look : keeps T (first_found l look).
Proof.
  intros s r s' H. apply first_found_result in H as [-> _]. apply T_refl.
Qed.

Lemma keeps_findSharedThis this : keeps T (findSharedThis this).
Proof.
  unfold findSharedThis. apply keeps_bind; [apply keeps_node | intros q].
  apply keeps_bind; [apply keeps_first_found | intros [p|]].
  - apply keeps_ret.
  - apply keeps_first_found.
Qed.

Lemma keeps_checkConnection a d : keeps T (checkConnection a d).
Proof.
  unfold checkConnection.
  apply keeps_bind; [apply keeps_node | intros qa].
  destruct (CompletionMap.contains d (getDescendants qa)); [|apply keeps_ret].
  apply keeps_bind; [apply keeps_node | intros qd]. apply keeps_ret.
Qed.

Lemma keeps_isRemovableConnection p1 p2 : keeps T (isRemovableConnection p1 p2).
Proof.
  unfold isRemovableConnection.
  apply keeps_bind; [apply keeps_checkConnection | intros [|]].
  - repeat (apply keeps_bind; [apply keeps_node | intros ?]). apply keeps_ret.
  - apply keeps_bind; [apply keeps_checkConnection | intros [|]].
    + repeat (apply keeps_bind; [apply keeps_node | intros ?]). apply keeps_ret.
    + apply keeps_ret.
Qed.

End Keeps.

(** ** Writes keep the frame of a node *)

Lemma write_member_names name v ms ms' :
  write_member name v ms = Some ms' ->
  map mname ms' = map mname ms.
Proof.
  revert ms'. induction ms as [|m ms IH]; intros ms' H; simpl in H.
  - discriminate.
  - destruct (String.eqb (mname m) name).
    + destruct (accepts (mtype m) v); [|discriminate].
      inversion H; subst. reflexivity.
    + destruct (write_member name v ms) as [ms1|]; [|discriminate].
      inversion H; subst. simpl. rewrite (IH ms1 eq_refl). reflexivity.
Qed.

Lemma same_frame_refl q : same_frame q q.
Proof. repeat split. Qed.

Lemma same_frame_trans q1 q2 q3 :
  same_frame q1 q2 -> same_frame q2 q3 -> same_frame q1 q3.
Proof.
  intros (A1 & A2 & A3 & A4 & A5 & A6) (B1 & B2 & B3 & B4 & B5 & B6).
  repeat split; congruence.
Qed.

Lemma setProperty_same_frame c name v c' :
  setProperty c name v = Some c' -> same_frame c c'.
Proof.
  unfold setProperty.
  destruct (find_member name (members c)) as [m|].
  - destruct (write_member name v (members c)) as [ms'|] eqn:Hw; [|discriminate].
    intros H; inversion H; subst c'. repeat split.
    unfold propertyNames. simpl.
    rewrite (write_member_names _ _ _ _ Hw). reflexivity.
  - repeat match goal with
           | |- context [String.eqb name ?lit] => destruct (String.eqb name lit)
           end;
      try discriminate; destruct v; try discriminate;
      intros H; inversion H; subst c'; repeat split.
Qed.

Lemma clearInputs_same_frame q : same_frame q (clearInputs q).
Proof.
  unfold clearInputs. generalize (propertyNames q) as names.
  intros names. generalize (same_frame_refl q). generalize q at 2 4 as q0.
  induction names as [|n names IH]; intros q0 Hq0; simpl.
  - exact Hq0.
  - apply IH. destruct (startsWith n QA_IN); [|exact Hq0].
    destruct (setProperty q0 n QInvalid) as [q1|] eqn:Hset; [|exact Hq0].
    eapply same_frame_trans; [exact Hq0|].
    eapply setProperty_same_frame; eauto.
Qed.

(** ** Heaps related node by node *)

Section HeapRel.

Variable R : QAlgorithm -> QAlgorithm -> Prop.
Hypothesis R_refl : forall q, R q q.
Hypothesis R_trans : forall q1 q2 q3, R q1 q2 -> R q2 q3 -> R q1 q3.

Lemma heap_rel_refl h : heap_rel R h h.
Proof. split; [reflexivity|]. intros p q Hq. eauto. Qed.

Lemma heap_rel_trans h1 h2 h3 :
  heap_rel R h1 h2 -> heap_rel R h2 h3 -> heap_rel R h1 h3.
Proof.
  intros [L1 H1] [L2 H2]. split; [congruence|].
  intros p q Hq. destruct (H1 p q Hq) as (q2 & Hq2 & R12).
  destruct (H2 p q2 Hq2) as (q3 & Hq3 & R23). eauto.
Qed.

Lemma heap_rel_insert h p q q' :
  h !! p = Some q -> R q q' -> heap_rel R h (<[p := q']> h).
Proof.
  intros Hq Hr. split; [apply length_insert|].
  intros p0 q0 Hq0. destruct (decide (p0 = p)) as [->|Hne].
  - rewrite Hq in Hq0. inversion Hq0; subst q0. exists q'. split; [|exact Hr].
    apply list_lookup_insert_eq. eapply lookup_lt_Some; eauto.
  - exists q0. split; [|apply R_refl].
    rewrite list_lookup_insert_ne by congruence. exact Hq0.
Qed.

End HeapRel.

(** ** The flags never go back *)

Lemma flags_grow_refl q : flags_grow q q.
Proof. split; auto. Qed.

Lemma flags_grow_trans q1 q2 q3 :
  flags_grow q1 q2 -> flags_grow q2 q3 -> flags_grow q1 q3.
Proof. intros [A1 A2] [B1 B2]. split; auto. Qed.

Lemma same_frame_flags q q' : same_frame q q' -> flags_grow q q'.
Proof. intros (_ & Hs & Hf & _). split; congruence. Qed.

Lemma flags_kept_refl s : flags_kept s s.
Proof. apply heap_rel_refl, flags_grow_refl. Qed.

Lemma flags_kept_trans s1 s2 s3 :
  flags_kept s1 s2 -> flags_kept s2 s3 -> flags_kept s1 s3.
Proof. apply heap_rel_trans, flags_grow_trans. Qed.

Lemma flags_kept_same_heap s s' : heap s' = heap s -> flags_kept s s'.
Proof. unfold flags_kept. intros ->. apply heap_rel_refl, flags_grow_refl. Qed.

Lemma keeps_flags_update p f :
  (forall q, flags_grow q (f q)) -> keeps flags_kept (update p f).
Proof.
  intros Hf s u s' H. apply update_Ok in H as (q & Hq & ->).
  unfold flags_kept. simpl.
  eapply heap_rel_insert; eauto using flags_grow_refl.
Qed.

Lemma keeps_flags_emit sg : keeps flags_kept (emit sg).
Proof. intros s u s' H. inversion H; subst. apply flags_kept_same_heap. reflexivity. Qed.

Lemma keeps_flags_post e : keeps flags_kept (post e).
Proof. intros s u s' H. inversion H; subst. apply flags_kept_same_heap. reflexivity. Qed.

Lemma keeps_flags_connect a b : keeps flags_kept (connect a b).
Proof. intros s u s' H. inversion H; subst. apply flags_kept_same_heap. reflexivity. Qed.

Lemma keeps_flags_disconnect a b : keeps flags_kept (disconnect a b).
Proof. intros s u s' H. inversion H; subst. apply flags_kept_same_heap. reflexivity. Qed.

Lemma keeps_flags_dispatch p : keeps flags_kept (dispatch p).
Proof. intros s u s' H. inversion H; subst. apply flags_kept_same_heap. reflexivity. Qed.

Lemma keeps_flags_raise sender message : keeps flags_kept (raise sender message).
Proof.
  intros s u s' H.
  destruct (raise_effect sender message s) as (s1 & Hrun & Hh & _).
  rewrite Hrun in H. inversion H; subst. apply flags_kept_same_heap, Hh.
Qed.

Lemma keeps_flags_getInput_scan child parent name t props :
  keeps flags_kept (getInput_scan child parent name t props).
Proof.
  induction props as [|n props IH]; simpl.
  - apply keeps_ret, flags_kept_refl.
  - destruct (is_target n t); [|exact IH].
    intros s b s' H.
    apply bind_Ok in H as (p & s1 & H1 & H). apply node_Ok in H1 as [Hp ->].
    destruct (isValid (property p name)).
    + apply bind_Ok in H as (c & s1 & H1 & H). apply node_Ok in H1 as [Hc ->].
      destruct (setProperty c n (property p name)) as [c'|] eqn:Hset.
      * apply bind_Ok in H as (u & s1 & H1 & H).
        eapply flags_kept_trans; [|eapply IH; eauto].
        apply update_Ok in H1 as (c0 & Hc0 & ->). unfold flags_kept. simpl.
        eapply heap_rel_insert; eauto using flags_grow_refl.
        rewrite Hc in Hc0. inversion Hc0; subst.
        apply same_frame_flags. eapply setProperty_same_frame; eauto.
      * apply bind_Ok in H as (u & s1 & H1 & H).
        inversion H1; subst. inversion H; subst.
        apply flags_kept_same_heap. reflexivity.
    + apply bind_Ok in H as (u & s1 & H1 & H).
      inversion H1; subst. inversion H; subst.
      apply flags_kept_same_heap. reflexivity.
Qed.


(** Walks down a computation, leaving the updates of nodes to be checked. *)
Ltac keeps_flags_step :=
  first
    [ assumption
    | apply keeps_flags_emit | apply keeps_flags_post
    | apply keeps_flags_connect | apply keeps_flags_disconnect
    | apply keeps_flags_dispatch | apply keeps_flags_raise
    | apply keeps_flags_getInput_scan
    | apply (keeps_ret flags_kept flags_kept_refl)
    | apply keeps_fail
    | apply (keeps_node flags_kept flags_kept_refl)
    | apply (keeps_lift flags_kept flags_kept_refl)
    | apply (keeps_findSharedThis flags_kept flags_kept_refl flags_kept_trans)
    | apply keeps_flags_update; intros ?;
      first [ apply flags_grow_refl
            | apply same_frame_flags, clearInputs_same_frame
            | split; simpl; auto ]
    | apply (keeps_foreach flags_kept flags_kept_refl flags_kept_trans); intros ?
    | match goal with
      | |- keeps _ (if ?b then _ else _) => destruct b
      | |- keeps _ (match ?o with Some _ => _ | None => _ end) => destruct o
      end
    | apply (keeps_bind flags_kept flags_kept_trans); [|intros ?] ].

Ltac keeps_flags_steps := repeat keeps_flags_step.

Lemma keeps_flags_getInput child parent : keeps flags_kept (getInput child parent).
Proof.
  unfold getInput.
  apply (keeps_bind flags_kept flags_kept_trans);
    [apply (keeps_node flags_kept flags_kept_refl) | intros p].
  induction (propertyNames p) as [|n props IH]; simpl.
  - keeps_flags_steps.
  - apply (keeps_bind flags_kept flags_kept_trans).
    + unfold getInput_property. unfold qWarning. keeps_flags_steps.
    + intros [|]; [exact IH | keeps_flags_steps].
Qed.

Lemma keeps_flags_closeConnection a d : keeps flags_kept (closeConnection a d).
Proof. unfold closeConnection. keeps_flags_steps. Qed.

Lemma keeps_flags_setStarted this : keeps flags_kept (setStarted this).
Proof. unfold setStarted. keeps_flags_steps. Qed.

Lemma keeps_flags_parallelExecution fuel : forall this,
  keeps flags_kept (parallelExecution fuel this).
Proof.
  induction fuel as [|fuel IH]; intros this; simpl.
  - apply keeps_fail.
  - pose proof (keeps_flags_setStarted this).
    keeps_flags_steps. apply IH.
Qed.

Section FlagsOfTheSchedulers.

Variable run : QAlgorithm -> list QMember * list string.

Lemma keeps_flags_call_run this : keeps flags_kept (call_run run this).
Proof. unfold call_run, abort. keeps_flags_steps. Qed.

Lemma keeps_flags_serial_propagate fuel :
  (forall this, keeps flags_kept (serialExecution run fuel this)) /\
  (forall this, keeps flags_kept (propagateExecution run fuel this)).
Proof.
  induction fuel as [|fuel [IHs IHp]]; split; intros this; simpl;
    try apply keeps_fail.
  - pose proof (keeps_flags_setStarted this).
    pose proof (keeps_flags_call_run this).
    pose proof (IHp this).
    keeps_flags_steps. apply IHs.
  - apply (keeps_bind flags_kept flags_kept_trans);
      [apply (keeps_findSharedThis flags_kept flags_kept_refl flags_kept_trans)|].
    intros [shr_this|]; [|keeps_flags_steps].
    repeat first
      [ apply keeps_flags_getInput | apply keeps_flags_closeConnection
      | apply keeps_flags_parallelExecution | apply IHs
      | keeps_flags_step ].
Qed.

Lemma keeps_flags_exec fuel : keeps flags_kept (exec run fuel).
Proof.
  induction fuel as [|fuel IH]; simpl.
  - apply keeps_fail.
  - intros s u s' H. destruct (events s) as [|e es] eqn:He.
    + destruct (pool s) as [|n ns] eqn:Hp.
      * inversion H; subst. apply flags_kept_refl.
      * apply (flags_kept_trans _ (with_pool ns s));
          [apply flags_kept_same_heap; reflexivity|].
        revert H. generalize (with_pool ns s). intros s0 H. revert s0 u s' H.
        change (keeps flags_kept
                  (call_run run n ;; post (WatcherFinished n) ;; exec run fuel)).
        pose proof (keeps_flags_call_run n). keeps_flags_steps.
    + apply (flags_kept_trans _ (with_events es s));
        [apply flags_kept_same_heap; reflexivity|].
      revert H. generalize (with_events es s). intros s0 H. revert s0 u s' H.
      change (keeps flags_kept (deliver run fuel e ;; exec run fuel)).
      apply (keeps_bind flags_kept flags_kept_trans); [|intros _; exact IH].
      destruct e as [r m|n]; simpl.
      * unfold abort. keeps_flags_steps.
      * unfold setFinished.
        pose proof (proj2 (keeps_flags_serial_propagate fuel) n).
        keeps_flags_steps.
Qed.

End FlagsOfTheSchedulers.

(** X8.  Flags are monotone.  Whatever [parallelExecution], [serialExecution],
    [propagateExecution] or the event loop do, no node is added or lost and
    no node goes back from started to unstarted or from finished to
    unfinished. *)
Theorem scheduling_never_resets_flags :
  forall (run : QAlgorithm -> list QMember * list string)
         (fuel this : nat) (s s' : State),
    (parallelExecution fuel this s = Ok tt s'
     \/ serialExecution run fuel this s = Ok tt s'
     \/ propagateExecution run fuel this s = Ok tt s'
     \/ exec run fuel s = Ok tt s') ->
    length (heap s') = length (heap s) /\
    forall p q, heap s !! p = Some q ->
      exists q', heap s' !! p = Some q' /\
                 (isStarted q = true -> isStarted q' = true) /\
                 (isFinished q = true -> isFinished q' = true).
Proof.
  intros run fuel this s s' H.
  assert (Hk : flags_kept s s').
  { destruct H as [H|[H|[H|H]]].
    - eapply keeps_flags_parallelExecution; eauto.
    - eapply (proj1 (keeps_flags_serial_propagate run fuel)); eauto.
    - eapply (proj2 (keeps_flags_serial_propagate run fuel)); eauto.
    - eapply keeps_flags_exec; eauto. }
  exact Hk.
Qed.

Lemma scheduling_never_resets_flags_witness :
  let s' := final (serialExecution exampleRun 10 1) chain2 in
  serialExecution exampleRun 10 1 chain2 = Ok tt s' /\
  length (heap s') = length (heap chain2) /\
  forall p q, heap chain2 !! p = Some q ->
    exists q', heap s' !! p = Some q' /\
               (isStarted q = true -> isStarted q' = true) /\
               (isFinished q = true -> isFinished q' = true).
Proof.
  intros s'.
  assert (Hrun : serialExecution exampleRun 10 1 chain2 = Ok tt s')
    by (vm_compute; reflexivity).
  exact (conj Hrun
    (scheduling_never_resets_flags exampleRun 10 1 chain2 s'
       (or_intror (or_introl Hrun)))).
Defined.

(** ** What [getInput] leaves alone *)

Lemma warned_refl s : warned s s.
Proof. exists []. simpl. rewrite app_nil_r. reflexivity. Qed.

Lemma warned_trans s1 s2 s3 : warned s1 s2 -> warned s2 s3 -> warned s1 s3.
Proof.
  intros [d1 H1] [d2 H2]. exists (d1 ++ d2).
  rewrite H2, H1, map_app, app_assoc. reflexivity.
Qed.

Lemma quiet_step_refl s : quiet_step s s.
Proof. repeat split. apply warned_refl. Qed.

Lemma quiet_step_trans s1 s2 s3 :
  quiet_step s1 s2 -> quiet_step s2 s3 -> quiet_step s1 s3.
Proof.
  intros (A1 & A2 & A3 & A4) (B1 & B2 & B3 & B4).
  repeat split; try congruence. eapply warned_trans; eauto.
Qed.

Lemma quiet_step_qWarning d s u s' :
  qWarning d s = Ok u s' -> quiet_step s s' /\ heap s' = heap s.
Proof.
  intros H. inversion H; subst. simpl. repeat split.
  exists [d]. reflexivity.
Qed.

Lemma writes_only_refl child s : writes_only child s s.
Proof.
  split; [apply quiet_step_refl|]. split; [reflexivity|].
  apply heap_rel_refl, same_frame_refl.
Qed.

Lemma writes_only_trans child s1 s2 s3 :
  writes_only child s1 s2 -> writes_only child s2 s3 -> writes_only child s1 s3.
Proof.
  intros (A1 & A2 & A3) (B1 & B2 & B3).
  split; [eapply quiet_step_trans; eauto|]. split.
  - intros p Hp. rewrite B2, A2 by exact Hp. reflexivity.
  - eapply heap_rel_trans; eauto using same_frame_trans.
Qed.

Lemma writes_only_qWarning child d : keeps (writes_only child) (qWarning d).
Proof.
  intros s u s' H. apply quiet_step_qWarning in H as [Hq Hh].
  split; [exact Hq|]. rewrite Hh. split; [reflexivity|].
  apply heap_rel_refl, same_frame_refl.
Qed.

Lemma writes_only_getInput_scan child parent name t props :
  keeps (writes_only child) (getInput_scan child parent name t props).
Proof.
  pose proof (writes_only_refl child) as Hrefl.
  pose proof (writes_only_trans child) as Htrans.
  induction props as [|n props IH]; simpl.
  - apply keeps_ret, Hrefl.
  - destruct (is_target n t); [|exact IH].
    apply (keeps_bind _ Htrans); [apply keeps_node, Hrefl | intros p].
    destruct (isValid (property p name)).
    + intros s b s' H.
      apply bind_Ok in H as (c & s1 & H1 & H). apply node_Ok in H1 as [Hc ->].
      destruct (setProperty c n (property p name)) as [c'|] eqn:Hset.
      * apply bind_Ok in H as (u & s1 & H1 & H).
        apply update_Ok in H1 as (c0 & Hc0 & ->).
        rewrite Hc in Hc0. inversion Hc0; subst c0.
        apply (Htrans _ (with_heap (<[child:=c']> (heap s)) s));
          [|exact (IH _ _ _ H)].
        split.
        { repeat split. exists []. simpl. rewrite app_nil_r. reflexivity. }
        simpl. split.
        -- intros p0 Hp0. apply list_lookup_insert_ne. congruence.
        -- eapply heap_rel_insert; eauto using same_frame_refl.
           eapply setProperty_same_frame; eauto.
      * apply bind_Ok in H as (u & s1 & H1 & H). inversion H; subst.
        exact (writes_only_qWarning child _ _ _ _ H1).
    + apply (keeps_bind _ Htrans); [apply writes_only_qWarning|].
      intros _. apply keeps_ret, Hrefl.
Qed.

Lemma writes_only_getInput child parent :
  keeps (writes_only child) (getInput child parent).
Proof.
  pose proof (writes_only_refl child) as Hrefl.
  pose proof (writes_only_trans child) as Htrans.
  unfold getInput. apply (keeps_bind _ Htrans); [apply keeps_node, Hrefl|].
  intros p. induction (propertyNames p) as [|n props IH]; simpl.
  - apply keeps_ret, Hrefl.
  - apply (keeps_bind _ Htrans).
    + unfold getInput_property. destruct (parentPropBaseName n) as [base|].
      * apply (keeps_bind _ Htrans); [apply keeps_node, Hrefl | intros c].
        apply (keeps_bind _ Htrans); [apply keeps_node, Hrefl | intros p'].
        apply (keeps_bind _ Htrans); [apply keeps_lift, Hrefl | intros t].
        destruct (startsWith n QA_PAR && _).
        -- apply keeps_ret, Hrefl.
        -- apply writes_only_getInput_scan.
      * apply keeps_ret, Hrefl.
    + intros [|]; [exact IH | apply keeps_ret, Hrefl].
Qed.

(** X9.  [getInput] writes cells of the child and nothing else.  Whatever its
    result, the other nodes, the parent included, are untouched; the child
    keeps its class, its flags, its neighbours and its declared properties;
    connections, queue and pool are as before, and the log has grown by
    warnings only. *)
Theorem getInput_writes_only_the_child :
  forall (child parent : nat) (s s' : State) (ok : bool),
    getInput child parent s = Ok ok s' ->
    (forall p, p <> child -> heap s' !! p = heap s !! p) /\
    (forall c, heap s !! child = Some c ->
       exists c', heap s' !! child = Some c' /\
                  className c' = className c /\
                  isStarted c' = isStarted c /\
                  isFinished c' = isFinished c /\
                  getAncestors c' = getAncestors c /\
                  getDescendants c' = getDescendants c /\
                  propertyNames c' = propertyNames c) /\
    wires s' = wires s /\ events s' = events s /\ pool s' = pool s /\
    exists ds, log s' = log s ++ map Warning ds.
Proof.
  intros child parent s s' ok H.
  destruct (writes_only_getInput child parent s ok s' H)
    as ((Hw & He & Hp & Hl) & Hother & _ & Hrel).
  split; [exact Hother|]. split; [|auto].
  intros c Hc. destruct (Hrel child c Hc) as (c' & Hc' & Hf).
  exists c'. split; [exact Hc' | exact Hf].
Qed.

Lemma getInput_writes_only_the_child_witness :
  let s := initial [Producer; Consumer] in
  let s' := final (getInput 1 0) s in
  getInput 1 0 s = Ok false s' /\
  (forall p, p <> 1 -> heap s' !! p = heap s !! p) /\
  (forall c, heap s !! 1 = Some c ->
     exists c', heap s' !! 1 = Some c' /\
                className c' = className c /\
                isStarted c' = isStarted c /\
                isFinished c' = isFinished c /\
                getAncestors c' = getAncestors c /\
                getDescendants c' = getDescendants c /\
                propertyNames c' = propertyNames c) /\
  wires s' = wires s /\ events s' = events s /\ pool s' = pool s /\
  exists ds, log s' = log s ++ map Warning ds.
Proof.
  intros s s'.
  assert (Hrun : getInput 1 0 s = Ok false s') by (vm_compute; reflexivity).
  exact (conj Hrun (getInput_writes_only_the_child 1 0 s s' false Hrun)).
Defined.

(** ** The flat representation *)







Lemma reads_only_refl s : reads_only s s.
Proof. split; [reflexivity | apply quiet_step_refl]. Qed.

Lemma reads_only_trans s1 s2 s3 :
  reads_only s1 s2 -> reads_only s2 s3 -> reads_only s1 s3.
Proof.
  intros [A1 A2] [B1 B2]. split; [congruence|].
  eapply quiet_step_trans; eauto.
Qed.

Lemma reads_only_qWarning d : keeps reads_only (qWarning d).
Proof.
  intros s u s' H. apply quiet_step_qWarning in H as [Hq Hh]. split; auto.
Qed.

Lemma reads_only_flattenTree fuel : forall this tree,
  keeps reads_only (flattenTree fuel this tree).
Proof.
  induction fuel as [|fuel IH]; intros this tree; simpl.
  - apply keeps_fail.
  - destruct (negb (Flat.contains this tree)).
    + apply (keeps_bind _ reads_only_trans);
        [apply keeps_findSharedThis;
           [apply reads_only_refl | apply reads_only_trans]|].
      intros [shr_this|].
      * apply (keeps_bind _ reads_only_trans);
          [apply keeps_node, reads_only_refl | intros q].
        apply keeps_foldM; [apply reads_only_refl | apply reads_only_trans|].
        intros t relative. destruct (negb (Flat.contains relative t)).
        -- apply IH.
        -- apply keeps_ret, reads_only_refl.
      * apply (keeps_bind _ reads_only_trans); [apply reads_only_qWarning|].
        intros _. apply keeps_ret, reads_only_refl.
    + apply (keeps_bind _ reads_only_trans); [apply reads_only_qWarning|].
      intros _. apply keeps_ret, reads_only_refl.
Qed.



Lemma lists_descendants_nil h : lists_descendants h [].
Proof. intros k Hk. discriminate. Qed.



(** ** The optimiser *)

Lemma serialised_refl q : serialised q q.
Proof. left. reflexivity. Qed.

Lemma serialised_trans q1 q2 q3 :
  serialised q1 q2 -> serialised q2 q3 -> serialised q1 q3.
Proof.
  intros [->| ->] [->| ->]; try (left; reflexivity); right; reflexivity.
Qed.

Lemma serialises_only_refl s : serialises_only s s.
Proof.
  split; [apply heap_rel_refl, serialised_refl | apply quiet_step_refl].
Qed.

Lemma serialises_only_trans s1 s2 s3 :
  serialises_only s1 s2 -> serialises_only s2 s3 -> serialises_only s1 s3.
Proof.
  intros [A1 A2] [B1 B2]. split.
  - eapply heap_rel_trans; eauto using serialised_trans.
  - eapply quiet_step_trans; eauto.
Qed.

Lemma reads_only_serialises s s' : reads_only s s' -> serialises_only s s'.
Proof.
  intros [Hh Hq]. split; [|exact Hq]. rewrite Hh.
  apply heap_rel_refl, serialised_refl.
Qed.

Lemma serialises_only_linkChains fuel : forall replacements,
  keeps serialises_only (linkChains fuel replacements).
Proof.
  induction fuel as [|fuel IH]; intros replacements; simpl.
  - apply keeps_fail.
  - apply (keeps_bind _ serialises_only_trans);
      [apply keeps_lift, serialises_only_refl|].
    intros [[p1 p2]|]; [apply IH | apply keeps_ret, serialises_only_refl].
Qed.

Lemma serialises_only_improveTree fuel leaf :
  keeps serialises_only (improveTree fuel leaf).
Proof.
  unfold improveTree.
  apply (keeps_bind _ serialises_only_trans).
  { intros s t s' H. apply reads_only_serialises.
    eapply reads_only_flattenTree; eauto. }
  intros flatMap. apply (keeps_bind _ serialises_only_trans).
  { unfold removableConnections.
    apply keeps_foldM;
      [apply serialises_only_refl | apply serialises_only_trans|].
    intros replacements ptr.
    apply keeps_foldM;
      [apply serialises_only_refl | apply serialises_only_trans|].
    intros replacements' child.
    apply (keeps_bind _ serialises_only_trans).
    - apply keeps_isRemovableConnection;
        [apply serialises_only_refl | apply serialises_only_trans].
    - intros [|]; apply keeps_ret, serialises_only_refl. }
  intros replacements. apply (keeps_bind _ serialises_only_trans);
    [apply serialises_only_linkChains|].
  intros replacements'.
  apply keeps_foreach;
    [apply serialises_only_refl | apply serialises_only_trans|].
  intros nodes.
  apply keeps_foreach;
    [apply serialises_only_refl | apply serialises_only_trans|].
  intros n s u s' H. apply update_Ok in H as (q & Hq & ->).
  split; simpl.
  - eapply heap_rel_insert; eauto using serialised_refl. right. reflexivity.
  - repeat split. exists []. simpl. rewrite app_nil_r. reflexivity.
Qed.

(** X11.  The optimiser only clears [ParallelExecution].  After [improveTree]
    every node is as before, or as before with [ParallelExecution] set to
    false: no connection, flag or cell is touched, no flag is ever set to
    true, and the rest of the state has gained warnings only. *)
Theorem improveTree_only_serialises :
  forall (fuel leaf : nat) (s s' : State),
    improveTree fuel leaf s = Ok tt s' ->
    length (heap s') = length (heap s) /\
    (forall p q, heap s !! p = Some q ->
       heap s' !! p = Some q \/
       heap s' !! p = Some (setParallelExecution false q)) /\
    wires s' = wires s /\ events s' = events s /\ pool s' = pool s /\
    exists ds, log s' = log s ++ map Warning ds.
Proof.
  intros fuel leaf s s' H.
  destruct (serialises_only_improveTree fuel leaf s tt s' H)
    as ((Hlen & Hrel) & Hw & He & Hp & Hl).
  split; [exact Hlen|]. split; [|auto].
  intros p q Hq. destruct (Hrel p q Hq) as (q' & Hq' & [->| ->]); auto.
Qed.

Lemma improveTree_only_serialises_witness :
  let s' := final (improveTree 5 0) chain3 in
  improveTree 5 0 chain3 = Ok tt s' /\
  length (heap s') = length (heap chain3) /\
  (forall p q, heap chain3 !! p = Some q ->
     heap s' !! p = Some q \/
     heap s' !! p = Some (setParallelExecution false q)) /\
  wires s' = wires chain3 /\ events s' = events chain3 /\
  pool s' = pool chain3 /\
  exists ds, log s' = log chain3 ++ map Warning ds.
Proof.
  intros s'.
  assert (Hrun : improveTree 5 0 chain3 = Ok tt s')
    by (vm_compute; reflexivity).
  exact (conj Hrun (improveTree_only_serialises 5 0 chain3 s' Hrun)).
Defined.

(** X12.  A node without connections cannot be flattened.  On a node that has
    neither ancestors nor descendants [flattenTree] returns the map it was
    given and prints a warning, and [improveTree] changes no node. *)
Theorem unconnected_node_is_not_flattened :
  forall (fuel this : nat) (tree : QAFlatRepresentation) (s : State)
         (q : QAlgorithm),
    heap s !! this = Some q ->
    getDescendants q = [] ->
    getAncestors q = [] ->
    Flat.contains this tree = false ->
    flattenTree (S fuel) this tree s
    = Ok tree (with_log (log s ++ [Warning (NoConnection this)]) s)
    /\ improveTree (S fuel) this s
       = Ok tt (with_log (log s ++ [Warning (NoConnection this)]) s).
Proof.
  intros fuel this tree s q Hq Hd Ha Hnot.
  assert (Hnull : findSharedThis this s = Ok None s).
  { unfold findSharedThis, bind. rewrite (node_run _ _ _ Hq), Hd, Ha.
    reflexivity. }
  split.
  - simpl. rewrite Hnot. simpl. unfold bind. rewrite Hnull. reflexivity.
  - unfold improveTree. simpl. unfold bind at 1. unfold bind at 1.
    rewrite Hnull. reflexivity.
Qed.

Lemma unconnected_node_is_not_flattened_witness :
  let s := initial [Source; Copy] in
  heap s !! 0 = Some Source /\
  getDescendants Source = [] /\
  getAncestors Source = [] /\
  Flat.contains 0 (@nil (nat * list nat)) = false /\
  flattenTree 1 0 [] s
  = Ok [] (with_log (log s ++ [Warning (NoConnection 0)]) s)
  /\ improveTree 1 0 s
     = Ok tt (with_log (log s ++ [Warning (NoConnection 0)]) s).
Proof.
  intros s.
  assert (Hq : heap s !! 0 = Some Source) by reflexivity.
  assert (Hd : getDescendants Source = []) by reflexivity.
  assert (Ha : getAncestors Source = []) by reflexivity.
  assert (Hn : Flat.contains 0 (@nil (nat * list nat)) = false) by reflexivity.
  exact (conj Hq (conj Hd (conj Ha (conj Hn
    (unconnected_node_is_not_flattened 0 0 [] s Source Hq Hd Ha Hn))))).
Defined.

(** ** Setting parameters *)

Lemma append_inj_l p s1 s2 : p +:+ s1 = p +:+ s2 -> s1 = s2.
Proof.
  induction p as [|c p IH]; simpl; intros H; [exact H|].
  inversion H. auto.
Qed.

Lemma par_in_distinct s1 s2 : QA_PAR +:+ s1 <> QA_IN +:+ s2.
Proof. unfold QA_PAR, QA_IN. simpl. intros H. inversion H. Qed.

Lemma names_of_test k n :
  String.eqb n (QA_PAR +:+ k) || String.eqb n (QA_IN +:+ k) = true
  <-> names_of k n.
Proof.
  unfold names_of. rewrite orb_true_iff, !String.eqb_eq. reflexivity.
Qed.

Lemma names_of_inj k k' n : names_of k n -> names_of k' n -> k = k'.
Proof.
  intros [->| ->] [H|H].
  - eapply append_inj_l; eauto.
  - exfalso. eapply par_in_distinct; eauto.
  - exfalso. eapply par_in_distinct; eauto.
  - eapply append_inj_l; eauto.
Qed.

Lemma setParameters_scan_spec k v props : forall q q' set ws,
  setParameters_scan k v props q = (q', set, ws) ->
  same_frame q q' /\
  (forall n, ~ names_of k n -> property q' n = property q n) /\
  (forall n, names_of k n -> property q n = v -> property q' n = v) /\
  (forall n, names_of k n -> In n props -> ~ In (CannotSet k) ws ->
             property q' n = v) /\
  (forall w, In w ws -> w = CannotSet k) /\
  (set = false -> q' = q /\ ws = [] /\
                  forall n, In n props -> ~ names_of k n).
Proof.
  induction props as [|n0 props IH]; intros q q' set ws H; simpl in H.
  - inversion H; subst. split; [apply same_frame_refl|].
    repeat split; auto; intros; try contradiction.
  - destruct (String.eqb n0 (QA_PAR +:+ k) || String.eqb n0 (QA_IN +:+ k))
      eqn:Htest.
    + apply names_of_test in Htest.
      destruct (setProperty q n0 v) as [q1|] eqn:Hset.
      * destruct (setParameters_scan k v props q1) as [[q2 set2] ws2] eqn:Hrec.
        cbn beta iota zeta in H. injection H as <- <- <-.
        destruct (IH _ _ _ _ Hrec) as (Hf & Hother & Hkeep & Hwrite & Hws & _).
        assert (Hkeep0 : forall n, names_of k n -> property q n = v ->
                                   property q2 n = v).
        { intros n Hn Hv. apply (Hkeep n Hn).
          destruct (String.eqb_spec n n0) as [->|Hne].
          - eapply setProperty_read; eauto.
          - rewrite (setProperty_frame _ _ _ _ _ Hset Hne). exact Hv. }
        split; [eapply same_frame_trans; eauto using setProperty_same_frame|].
        split; [|split; [exact Hkeep0|split; [|split; [exact Hws|discriminate]]]].
        -- intros n Hn. rewrite (Hother n Hn).
           apply (setProperty_frame _ _ _ _ _ Hset). intros ->. auto.
        -- intros n Hn [<-|Hin] Hno.
           ++ apply (Hkeep n0 Hn). eapply setProperty_read; eauto.
           ++ apply Hwrite; auto.
      * destruct (setParameters_scan k v props q) as [[q2 set2] ws2] eqn:Hrec.
        cbn beta iota zeta in H. injection H as <- <- <-.
        destruct (IH _ _ _ _ Hrec) as (Hf & Hother & Hkeep & Hwrite & Hws & _).
        split; [exact Hf|].
        split; [exact Hother|split; [exact Hkeep|split; [|split; [|discriminate]]]].
        -- intros n Hn Hin Hno. exfalso. apply Hno. left. reflexivity.
        -- intros w [<-|Hin]; auto.
    + destruct (IH _ _ _ _ H) as (Hf & Hother & Hkeep & Hwrite & Hws & Hset).
      split; [exact Hf|].
      split; [exact Hother|split; [exact Hkeep|split; [|split; [exact Hws|]]]].
      * intros n Hn [<-|Hin] Hno.
        -- apply names_of_test in Hn. congruence.
        -- apply Hwrite; auto.
      * intros Hfalse. destruct (Hset Hfalse) as (-> & -> & Hnone).
        repeat split; auto. intros n [<-|Hin]; [|auto].
        intros Hn. apply names_of_test in Hn. congruence.
Qed.

Lemma setParameters_keys_cons parameters k ks q :
  setParameters_keys parameters (k :: ks) q =
  let '(q1, set, ws) :=
    setParameters_scan k (PropertyMap.value parameters k) (propertyNames q) q in
  let '(q2, ws2) := setParameters_keys parameters ks q1 in
  (q2, (if set then ws else ws ++ [NotAProperty k]) ++ ws2).
Proof. reflexivity. Qed.

Lemma setParameters_keys_spec parameters ks : forall q q' ws,
  setParameters_keys parameters ks q = (q', ws) ->
  same_frame q q' /\
  (forall n, (forall k, In k ks -> ~ names_of k n) ->
             property q' n = property q n) /\
  (forall k n, names_of k n ->
               property q n = PropertyMap.value parameters k ->
               property q' n = PropertyMap.value parameters k) /\
  (forall k n, In k ks -> names_of k n -> In n (propertyNames q) ->
               ~ In (CannotSet k) ws ->
               property q' n = PropertyMap.value parameters k) /\
  (forall k, In (NotAProperty k) ws ->
             In k ks /\ forall n, In n (propertyNames q) -> ~ names_of k n).
Proof.
  induction ks as [|k0 ks IH]; intros q q' ws H.
  - cbn beta iota zeta in H. injection H as <- <-. split; [apply same_frame_refl|].
    repeat split; auto; intros; contradiction.
  - rewrite setParameters_keys_cons in H.
    destruct (setParameters_scan k0 (PropertyMap.value parameters k0)
                (propertyNames q) q) as [[q1 set] ws1] eqn:Hscan.
    destruct (setParameters_keys parameters ks q1) as [q2 ws2] eqn:Hrec.
    cbn beta iota zeta in H. injection H as <- <-.
    destruct (setParameters_scan_spec _ _ _ _ _ _ _ Hscan)
      as (Hf1 & Hother1 & Hkeep1 & Hwrite1 & Hws1 & Hset1).
    destruct (IH _ _ _ Hrec) as (Hf2 & Hother2 & Hkeep2 & Hwrite2 & Hnot2).
    assert (Hnames : propertyNames q1 = propertyNames q) by apply Hf1.
    assert (Hkeep : forall k n, names_of k n ->
              property q n = PropertyMap.value parameters k ->
              property q2 n = PropertyMap.value parameters k).
    { intros k n Hn Hv. apply (Hkeep2 k n Hn).
      destruct (String.eqb_spec k k0) as [->|Hne].
      - apply Hkeep1; auto.
      - rewrite Hother1; [exact Hv|]. intros Hn0.
        apply Hne. eapply names_of_inj; eauto. }
    split; [eapply same_frame_trans; eauto|].
    split; [|split; [exact Hkeep|split]].
    + intros n Hn. rewrite Hother2, Hother1; auto.
      * apply Hn. left. reflexivity.
      * intros k Hk. apply Hn. right. exact Hk.
    + intros k n [<-|Hin] Hn Hprop Hno.
      * apply (Hkeep2 k0 n Hn). apply Hwrite1; auto.
        intros Hc. apply Hno. apply in_or_app. left.
        destruct set; [exact Hc | apply in_or_app; left; exact Hc].
      * apply Hwrite2; auto.
        -- rewrite Hnames. exact Hprop.
        -- intros Hc. apply Hno. apply in_or_app. right. exact Hc.
    + intros k Hk. apply in_app_or in Hk as [Hk|Hk].
      * destruct set.
        -- apply Hws1 in Hk. discriminate.
        -- apply in_app_or in Hk as [Hk|[Hk|[]]].
           ++ apply Hws1 in Hk. discriminate.
           ++ inversion Hk; subst k0. split; [left; reflexivity|].
              apply (Hset1 eq_refl).
      * destruct (Hnot2 k Hk) as [Hin Hnone]. split; [right; exact Hin|].
        rewrite <- Hnames. exact Hnone.
Qed.

(** X13.  Parameters that are set can be read back.  After [setParameters],
    every declared parameter or input named by a key of the map holds the
    value of that key, unless "Cannot set" was printed for the key; the
    properties that no key names are as before, and so are class, flags and
    neighbours; and "not among object's properties" is printed only for keys
    that name no property. *)
Theorem setParameters_round_trip :
  forall (parameters : QAPropertyMap) (q q' : QAlgorithm)
         (ws : list ParameterWarning),
    setParameters parameters q = (q', ws) ->
    (forall k n,
        In k (PropertyMap.keys parameters) ->
        n = QA_PAR +:+ k \/ n = QA_IN +:+ k ->
        In n (propertyNames q) ->
        ~ In (CannotSet k) ws ->
        property q' n = PropertyMap.value parameters k) /\
    (forall n,
        (forall k, In k (PropertyMap.keys parameters) ->
                   n <> QA_PAR +:+ k /\ n <> QA_IN +:+ k) ->
        property q' n = property q n) /\
    (forall k, In (NotAProperty k) ws ->
               forall n, In n (propertyNames q) ->
                         n <> QA_PAR +:+ k /\ n <> QA_IN +:+ k) /\
    className q' = className q /\
    isStarted q' = isStarted q /\ isFinished q' = isFinished q /\
    getAncestors q' = getAncestors q /\ getDescendants q' = getDescendants q /\
    propertyNames q' = propertyNames q.
Proof.
  intros parameters q q' ws H. unfold setParameters in H.
  destruct (setParameters_keys_spec _ _ _ _ _ H)
    as (Hf & Hother & _ & Hwrite & Hnot).
  split; [|split; [|split; [|exact Hf]]].
  - intros k n Hk Hn Hin Hno. eapply Hwrite; eauto.
  - intros n Hn. apply Hother. intros k Hk [E|E]; destruct (Hn k Hk); auto.
  - intros k Hk n Hin. destruct (Hnot k Hk) as [_ Hnone].
    split; intros E; apply (Hnone n Hin); [left | right]; exact E.
Qed.

Lemma setParameters_round_trip_witness :
  let parameters := [("Amount", QInt 7)] in
  let q' := fst (setParameters parameters Generator) in
  setParameters parameters Generator = (q', []) /\
  property q' "par_Amount" = QInt 7.
Proof.
  intros parameters q'.
  assert (Hrun : setParameters parameters Generator = (q', []))
    by (vm_compute; reflexivity).
  assert (Hkey : In "Amount" (PropertyMap.keys parameters))
    by (left; reflexivity).
  assert (Hname : "par_Amount" = QA_PAR +:+ "Amount"
                  \/ "par_Amount" = QA_IN +:+ "Amount")
    by (left; reflexivity).
  assert (Hprop : In "par_Amount" (propertyNames Generator)).
  { unfold propertyNames. apply in_or_app. right. left. reflexivity. }
  exact (conj Hrun
    (proj1 (setParameters_round_trip parameters Generator q' [] Hrun)
       "Amount" "par_Amount" Hkey Hname Hprop (fun H : In _ [] => H))).
Defined.

(** ** The connecting operators *)

Lemma setConnection_checked a d s s1 :
  setConnection a d s = Ok tt s1 ->
  a < length (heap s1) -> d < length (heap s1) ->
  checkConnection a d s1 = Ok true s1.
Proof.
  intros Hset Ha Hd. rewrite (checkConnection_value a d s1 Ha Hd).
  destruct (setConnection_adjacency _ _ _ _ _ Hset) as [Hdesc Hanc].
  destruct (Hdesc a) as [v ->]. destruct (Hanc d) as [w ->].
  rewrite !decide_True by reflexivity.
  rewrite !cm_contains_insert, !Nat.eqb_refl. reflexivity.
Qed.

Lemma checkConnection_true a d s :
  checkConnection a d s = Ok true s ->
  a < length (heap s) /\ d < length (heap s) /\
  CompletionMap.contains d (descendants_of (heap s) a) = true /\
  CompletionMap.contains a (ancestors_of (heap s) d) = true.
Proof.
  rewrite checkConnection_eval. intros H.
  destruct (heap s !! a) as [qa|] eqn:Ha; [|discriminate].
  destruct (CompletionMap.contains d (getDescendants qa)) eqn:Hb1;
    [|discriminate].
  destruct (heap s !! d) as [qd|] eqn:Hd; [|discriminate].
  injection H as Hb2.
  unfold descendants_of, ancestors_of. rewrite Ha, Hd.
  split; [eapply lookup_lt_Some; eauto|].
  split; [eapply lookup_lt_Some; eauto|]. split; assumption.
Qed.

Lemma setConnection_keeps_connections x y s s1 a d :
  setConnection x y s = Ok tt s1 ->
  length (heap s1) = length (heap s) ->
  checkConnection a d s = Ok true s ->
  checkConnection a d s1 = Ok true s1.
Proof.
  intros Hset Hlen Hc.
  apply checkConnection_true in Hc as (Ha & Hd & Hdesc & Hanc).
  rewrite (checkConnection_value a d s1) by lia.
  destruct (setConnection_adjacency _ _ _ _ _ Hset) as [Hdesc1 Hanc1].
  destruct (Hdesc1 a) as [v ->]. destruct (Hanc1 d) as [w ->].
  destruct (decide (a = x)), (decide (d = y));
    rewrite ?cm_contains_insert, ?Hdesc, ?Hanc, ?orb_true_r; reflexivity.
Qed.

Lemma last_cons (x : nat) (l : list nat) (d : nat) :
  List.last (x :: l) d = List.last l x.
Proof.
  revert x d. induction l as [|y l IH]; intros x d; [reflexivity|].
  change (List.last (x :: y :: l) d) with (List.last (y :: l) d).
  rewrite (IH y d), (IH y x). reflexivity.
Qed.

Lemma chain_shr_spec rest : forall first s,
  first < length (heap s) ->
  Forall (fun p => p < length (heap s)) rest ->
  exists s',
    chain_shr first rest s = Ok (List.last rest first) s' /\
    length (heap s') = length (heap s) /\
    (forall a d, checkConnection a d s = Ok true s ->
                 checkConnection a d s' = Ok true s') /\
    (forall a d, In (a, d) (consecutive (first :: rest)) ->
                 checkConnection a d s' = Ok true s').
Proof.
  induction rest as [|x rest IH]; intros first s Hf Hr.
  - exists s. repeat split; auto. intros a d [].
  - inversion Hr as [|? ? Hx Hrest]; subst.
    destruct (apply_op_total (Connect first x) s (conj Hf Hx))
      as (s1 & Hset & Hl1). simpl in Hset.
    destruct (IH x s1) as (s' & Hrun & Hl & Hkeep & Hnew).
    { lia. }
    { rewrite Hl1. exact Hrest. }
    exists s'. split; [|split; [lia|split]].
    + unfold chain_shr in *. cbn [foldM]. unfold bind at 1.
      unfold operator_shr at 1. unfold bind at 1. rewrite Hset.
      unfold ret at 1. rewrite Hrun, last_cons. reflexivity.
    + intros a d Hc. apply Hkeep.
      eapply setConnection_keeps_connections; eauto.
    + intros a d [E|Hin].
      * inversion E; subst a d. apply Hkeep.
        apply (setConnection_checked _ _ _ _ Hset); lia.
      * apply Hnew. exact Hin.
Qed.

Lemma chain_shl_spec rest : forall first s,
  first < length (heap s) ->
  Forall (fun p => p < length (heap s)) rest ->
  exists s',
    chain_shl first rest s = Ok (List.last rest first) s' /\
    length (heap s') = length (heap s) /\
    (forall a d, checkConnection a d s = Ok true s ->
                 checkConnection a d s' = Ok true s') /\
    (forall a d, In (d, a) (consecutive (first :: rest)) ->
                 checkConnection a d s' = Ok true s').
Proof.
  induction rest as [|x rest IH]; intros first s Hf Hr.
  - exists s. repeat split; auto. intros a d [].
  - inversion Hr as [|? ? Hx Hrest]; subst.
    destruct (apply_op_total (Connect x first) s (conj Hx Hf))
      as (s1 & Hset & Hl1). simpl in Hset.
    destruct (IH x s1) as (s' & Hrun & Hl & Hkeep & Hnew).
    { lia. }
    { rewrite Hl1. exact Hrest. }
    exists s'. split; [|split; [lia|split]].
    + unfold chain_shl in *. cbn [foldM]. unfold bind at 1.
      unfold operator_shl at 1. unfold bind at 1.
      unfold operator_shr at 1. unfold bind at 1. rewrite Hset.
      unfold ret at 1 2. rewrite Hrun, last_cons. reflexivity.
    + intros a d Hc. apply Hkeep.
      eapply setConnection_keeps_connections; eauto.
    + intros a d [E|Hin].
      * inversion E; subst a d. apply Hkeep.
        apply (setConnection_checked _ _ _ _ Hset); lia.
      * apply Hnew. exact Hin.
Qed.

(** X14.  The connecting operators build chains.  [x0 >> x1 >> ... >> xn]
    yields [xn] and leaves every [xi] connected as the ancestor of the next;
    [x0 << x1 << ... << xn] yields [xn] and leaves every [xi] connected as
    the descendant of the next; the connections that were there before are
    still there. *)
Theorem operator_chains_connect :
  forall (first : nat) (rest : list nat) (s : State),
    Forall (fun p => p < length (heap s)) (first :: rest) ->
    (exists s',
        chain_shr first rest s = Ok (List.last rest first) s' /\
        (forall a d, In (a, d) (consecutive (first :: rest)) ->
                     checkConnection a d s' = Ok true s') /\
        (forall a d, checkConnection a d s = Ok true s ->
                     checkConnection a d s' = Ok true s')) /\
    (exists s',
        chain_shl first rest s = Ok (List.last rest first) s' /\
        (forall d a, In (d, a) (consecutive (first :: rest)) ->
                     checkConnection a d s' = Ok true s') /\
        (forall a d, checkConnection a d s = Ok true s ->
                     checkConnection a d s' = Ok true s')).
Proof.
  intros first rest s H. inversion H as [|? ? Hf Hr]; subst. split.
  - destruct (chain_shr_spec rest first s Hf Hr) as (s' & H1 & _ & H2 & H3).
    exists s'. auto.
  - destruct (chain_shl_spec rest first s Hf Hr) as (s' & H1 & _ & H2 & H3).
    exists s'. repeat split; auto.
Qed.

Lemma operator_chains_connect_witness :
  let s := initial [Source; Copy; Copy] in
  Forall (fun p => p < length (heap s)) [0; 1; 2] /\
  (exists s',
      chain_shr 0 [1; 2] s = Ok 2 s' /\
      (forall a d, In (a, d) [(0, 1); (1, 2)] ->
                   checkConnection a d s' = Ok true s') /\
      (forall a d, checkConnection a d s = Ok true s ->
                   checkConnection a d s' = Ok true s')) /\
  (exists s',
      chain_shl 0 [1; 2] s = Ok 2 s' /\
      (forall d a, In (d, a) [(0, 1); (1, 2)] ->
                   checkConnection a d s' = Ok true s') /\
      (forall a d, checkConnection a d s = Ok true s ->
                   checkConnection a d s' = Ok true s')).
Proof.
  intros s.
  assert (H : Forall (fun p => p < length (heap s)) [0; 1; 2])
    by (repeat constructor).
  exact (conj H (operator_chains_connect 0 [1; 2] s H)).
Defined.

(** ** Removable connections *)

Lemma node_eval p s :
  node p s = match heap s !! p with
             | Some q => Ok q s
             | None => Fail NullPointer
             end.
Proof. reflexivity. Qed.

(** X15.  [isRemovableConnection] does not depend on the order of its
    arguments, unless the two nodes are connected in both directions (then
    the connection from the second to the first argument is the one that is
    counted). *)
Theorem isRemovableConnection_symmetric :
  forall (p1 p2 : nat) (s : State),
    ~ (checkConnection p1 p2 s = Ok true s /\
       checkConnection p2 p1 s = Ok true s) ->
    isRemovableConnection p1 p2 s = isRemovableConnection p2 p1 s.
Proof.
  intros p1 p2 s Hnot. rewrite !checkConnection_eval in Hnot.
  unfold isRemovableConnection, bind. rewrite !checkConnection_eval.
  destruct (heap s !! p1) as [q1|] eqn:H1;
    destruct (heap s !! p2) as [q2|] eqn:H2;
    repeat first
      [ reflexivity
      | rewrite checkConnection_eval
      | rewrite node_eval
      | rewrite H1
      | rewrite H2
      | progress cbn beta iota
      | match goal with
        | |- context [if CompletionMap.contains ?k ?m then _ else _] =>
            destruct (CompletionMap.contains k m) eqn:?
        end ];
    exfalso; apply Hnot; split; congruence.
Qed.

Lemma isRemovableConnection_symmetric_witness :
  ~ (checkConnection 0 1 chain2 = Ok true chain2 /\
     checkConnection 1 0 chain2 = Ok true chain2) /\
  isRemovableConnection 0 1 chain2 = isRemovableConnection 1 0 chain2.
Proof.
  assert (H : ~ (checkConnection 0 1 chain2 = Ok true chain2 /\
                 checkConnection 1 0 chain2 = Ok true chain2)).
  { intros [_ H]. vm_compute in H. discriminate. }
  exact (conj H (isRemovableConnection_symmetric 0 1 chain2 H)).
Defined.

(** ** A node without neighbours *)

Lemma aborts_effect this (messages : list string) : forall s,
  exists s',
    foreach messages (abort this) s = Ok tt s' /\
    heap s' = heap s /\ pool s' = pool s /\ wires s' = wires s /\
    log s' = log s ++ map (Raise this) messages.
Proof.
  induction messages as [|m ms IH]; intros s.
  - exists s. rewrite app_nil_r. repeat split; reflexivity.
  - destruct (raise_effect this m s) as (s1 & H1 & Hh & Hp & Hw & Hl & _).
    destruct (IH s1) as (s' & H2 & Hh' & Hp' & Hw' & Hl').
    exists s'. cbn [foreach]. unfold bind, abort. rewrite H1.
    split; [exact H2|]. rewrite Hh', Hp', Hw', Hl', Hh, Hp, Hw, Hl.
    cbn [map]. rewrite <- app_assoc. repeat split; reflexivity.
Qed.

Lemma serialExecution_S run fuel this :
  serialExecution run (S fuel) this =
  (q ← node this;
   (if negb (allInputsReady q) then
      foreach (CompletionMap.keys_of false (getAncestors q))
        (fun ancestor =>
           a ← node ancestor;
           if negb (isStarted a) then serialExecution run fuel ancestor
           else ret tt)
    else ret tt) ;;
   update this (setParallelExecution false) ;;
   setStarted this ;;
   call_run run this ;;
   update this (set_finished true) ;;
   emit (JustFinished this) ;;
   propagateExecution run fuel this).
Proof. reflexivity. Qed.

Lemma propagateExecution_isolated run fuel this s q :
  heap s !! this = Some q -> isolated q ->
  propagateExecution run (S fuel) this s = Ok tt s.
Proof.
  intros Hq [Ha Hd]. cbn [propagateExecution].
  unfold bind at 1. unfold findSharedThis, bind, node. rewrite Hq.
  rewrite Ha, Hd. reflexivity.
Qed.

(** X16.  A node without neighbours that is run serially.  [serialExecution]
    clears its [ParallelExecution], marks it started, calls [run] on it once,
    marks it finished, and ends there: the signals are [justStarted], one
    [raise] for each [abort] of [run], and [justFinished]; nothing is handed
    to the pool and no other node is touched. *)
Theorem serialExecution_of_a_lone_node :
  forall (run : QAlgorithm -> list QMember * list string)
         (fuel this : nat) (s : State) (q : QAlgorithm),
    heap s !! this = Some q ->
    isolated q ->
    let q1 := set_started true (setParallelExecution false q) in
    exists s',
      serialExecution run (S (S fuel)) this s = Ok tt s' /\
      heap s'
      = <[this := set_finished true (set_members (fst (run q1)) q1)]> (heap s) /\
      log s' = log s ++ [JustStarted this; RunCalled this]
                     ++ map (Raise this) (snd (run q1))
                     ++ [JustFinished this] /\
      pool s' = pool s /\
      wires s' = wires s.
Proof.
  intros run fuel this s q Hq Hiso q1.
  assert (Hlt : this < length (heap s)) by (eapply lookup_lt_Some; eauto).
  assert (Hready : allInputsReady q = true).
  { unfold allInputsReady. destruct Hiso as [-> _]. reflexivity. }
  set (sa := with_log (log s ++ [JustStarted this; RunCalled this])
               (with_heap (<[this := set_members (fst (run q1)) q1]> (heap s)) s)).
  destruct (aborts_effect this (snd (run q1)) sa)
    as (sb & Hab & Hh & Hp & Hw & Hl).
  set (sc := with_log (log sb ++ [JustFinished this])
               (with_heap (<[this := set_finished true
                                       (set_members (fst (run q1)) q1)]>
                             (heap sb)) sb)).
  assert (Hc : heap sc !! this
               = Some (set_finished true (set_members (fst (run q1)) q1))).
  { unfold sc. simpl. apply list_lookup_insert_eq. rewrite Hh. unfold sa. simpl.
    rewrite !length_insert. exact Hlt. }
  exists sc. split.
  - rewrite serialExecution_S.
    unfold bind at 1. rewrite (node_run _ _ _ Hq). rewrite Hready.
    cbn [negb]. unfold bind at 1. unfold ret at 1.
    unfold bind at 1. rewrite (update_run _ _ _ _ Hq).
    unfold bind at 1. unfold setStarted at 1. unfold bind at 1.
    erewrite update_run
      by (simpl; apply list_lookup_insert_eq; exact Hlt).
    unfold emit at 1.
    unfold bind at 1. unfold call_run at 1. unfold bind at 1.
    unfold emit at 1. unfold bind at 1.
    erewrite node_run
      by (simpl; rewrite list_insert_insert_eq;
          apply list_lookup_insert_eq; exact Hlt).
    unfold bind at 1.
    erewrite update_run
      by (simpl; rewrite list_insert_insert_eq;
          apply list_lookup_insert_eq; exact Hlt).
    match goal with
    | |- context [foreach _ _ ?st] => replace st with sa
    end.
    2:{ unfold sa, with_log, with_heap. simpl.
        rewrite !list_insert_insert_eq, <- app_assoc. reflexivity. }
    fold q1. rewrite Hab.
    unfold bind at 1.
    erewrite update_run
      by (rewrite Hh; unfold sa; simpl; apply list_lookup_insert_eq; exact Hlt).
    unfold bind at 1. unfold emit at 1.
    apply (propagateExecution_isolated run fuel this sc _ Hc).
    destruct Hiso as [Ha Hd]. split; simpl; assumption.
  - unfold sc. simpl. rewrite Hh, Hp, Hw, Hl. unfold sa. simpl.
    rewrite list_insert_insert_eq, <- !app_assoc. repeat split; reflexivity.
Qed.

Lemma serialExecution_of_a_lone_node_witness :
  let s := initial [Source] in
  let q1 := set_started true (setParallelExecution false Source) in
  heap s !! 0 = Some Source /\
  isolated Source /\
  exists s',
    serialExecution exampleRun 2 0 s = Ok tt s' /\
    heap s'
    = <[0 := set_finished true (set_members (fst (exampleRun q1)) q1)]> (heap s) /\
    log s' = log s ++ [JustStarted 0; RunCalled 0]
                   ++ map (Raise 0) (snd (exampleRun q1))
                   ++ [JustFinished 0] /\
    pool s' = pool s /\
    wires s' = wires s.
Proof.
  intros s q1.
  assert (Hq : heap s !! 0 = Some Source) by reflexivity.
  assert (Hi : isolated Source) by (split; reflexivity).
  exact (conj Hq (conj Hi
    (serialExecution_of_a_lone_node exampleRun 0 0 s Source Hq Hi))).
Defined.

(** ** Creating a node with propagation rules *)

Lemma setParameters_scan_cannot k v props : forall q q' set ws,
  setParameters_scan k v props q = (q', set, ws) ->
  In (CannotSet k) ws ->
  exists n q0,
    In n props /\ names_of k n /\ same_frame q q0 /\ setProperty q0 n v = None.
Proof.
  induction props as [|n0 props IH]; intros q q' set ws H Hin; simpl in H.
  - injection H as <- <- <-. destruct Hin.
  - destruct (String.eqb n0 (QA_PAR +:+ k) || String.eqb n0 (QA_IN +:+ k))
      eqn:Htest.
    + apply names_of_test in Htest.
      destruct (setProperty q n0 v) as [q1|] eqn:Hset.
      * destruct (setParameters_scan k v props q1) as [[q2 set2] ws2] eqn:Hrec.
        cbn beta iota zeta in H. injection H as <- <- <-.
        destruct (IH _ _ _ _ Hrec Hin) as (n & q0 & Hn & Hk & Hf & Hnone).
        exists n, q0. split; [right; exact Hn|]. split; [exact Hk|].
        split; [|exact Hnone].
        eapply same_frame_trans; eauto using setProperty_same_frame.
      * exists n0, q. split; [left; reflexivity|]. split; [exact Htest|].
        split; [apply same_frame_refl|exact Hset].
    + destruct (IH _ _ _ _ H Hin) as (n & q0 & Hn & Hk & Hf & Hnone).
      exists n, q0. split; [right; exact Hn|]. auto.
Qed.

Lemma setParameters_keys_cannot parameters ks : forall q q' ws k,
  setParameters_keys parameters ks q = (q', ws) ->
  In (CannotSet k) ws ->
  exists n q0,
    In n (propertyNames q) /\ names_of k n /\ same_frame q q0 /\
    setProperty q0 n (PropertyMap.value parameters k) = None.
Proof.
  induction ks as [|k0 ks IH]; intros q q' ws k H Hin.
  - cbn in H. injection H as <- <-. destruct Hin.
  - rewrite setParameters_keys_cons in H.
    destruct (setParameters_scan k0 (PropertyMap.value parameters k0)
                (propertyNames q) q) as [[q1 set] ws1] eqn:Hscan.
    destruct (setParameters_keys parameters ks q1) as [q2 ws2] eqn:Hrec.
    cbn beta iota zeta in H. injection H as <- <-.
    destruct (setParameters_scan_spec _ _ _ _ _ _ _ Hscan)
      as (Hf1 & _ & _ & _ & Hws1 & _).
    apply in_app_or in Hin as [Hin|Hin].
    + assert (Hin1 : In (CannotSet k) ws1).
      { destruct set; [exact Hin|].
        apply in_app_or in Hin as [Hin|[Hin|[]]]; [exact Hin|discriminate]. }
      assert (k = k0) as -> by (apply Hws1 in Hin1; congruence).
      eapply setParameters_scan_cannot; eauto.
    + destruct (IH _ _ _ _ Hrec Hin) as (n & q0 & Hn & Hk & Hf & Hnone).
      exists n, q0. split; [|split; [exact Hk|split; [|exact Hnone]]].
      * replace (propertyNames q) with (propertyNames q1); [exact Hn|].
        apply Hf1.
      * eapply same_frame_trans; eauto.
Qed.

Lemma find_member_None name ms :
  ~ In name (map mname ms) -> find_member name ms = None.
Proof.
  unfold find_member. induction ms as [|m ms IH]; intros Hn; [reflexivity|].
  simpl. destruct (String.eqb_spec (mname m) name) as [E|E].
  - exfalso. apply Hn. left. exact E.
  - apply IH. intros Hin. apply Hn. right. exact Hin.
Qed.

Lemma same_frame_member_names q q' :
  same_frame q q' -> map mname (members q') = map mname (members q).
Proof.
  intros (_ & _ & _ & _ & _ & H). unfold propertyNames in H.
  eapply app_inv_head. exact H.
Qed.

Lemma PropertyMap_value_In (m : QAPropertyMap) k v :
  NoDup (PropertyMap.keys m) -> In (k, v) m -> PropertyMap.value m k = v.
Proof.
  unfold PropertyMap.value, PropertyMap.keys.
  induction m as [|[k0 v0] m IH]; intros Hnd Hin; [destruct Hin|].
  apply NoDup_cons in Hnd as [Hk0 Hnd]. simpl.
  destruct (String.eqb_spec k0 k) as [->|Hne]; cbn beta iota.
  - destruct Hin as [E|Hin]; [simpl; congruence|].
    exfalso. apply Hk0. apply list_elem_of_In.
    apply (in_map fst) in Hin. exact Hin.
  - destruct Hin as [E|Hin]; [congruence|]. apply IH; assumption.
Qed.

(** X17.  [create] installs the rules of [makePropagationRules].  When the map
    of parameters holds the pair that [makePropagationRules] builds, and the
    class declares no property of its own under the names
    [par_PropagationRules] and [algin_PropagationRules], the node that
    [create] returns has exactly these rules, and no warning is printed
    for them. *)
Theorem create_installs_the_rules :
  forall (cls : string) (ms : list QMember) (parameters : QAPropertyMap)
         (pairs : list (string * string)),
    NoDup (PropertyMap.keys parameters) ->
    In (makePropagationRules pairs) parameters ->
    (forall m, In m ms -> mname m <> "par_PropagationRules" /\
                          mname m <> "algin_PropagationRules") ->
    getPropagationRules (fst (create cls ms parameters))
    = Rules.makePropagationRules pairs /\
    ~ In (CannotSet "PropagationRules") (snd (create cls ms parameters)) /\
    ~ In (NotAProperty "PropagationRules") (snd (create cls ms parameters)).
Proof.
  intros cls ms parameters pairs Hnd Hin Hms.
  assert (Hval : PropertyMap.value parameters "PropagationRules"
                 = QRules (Rules.makePropagationRules pairs))
    by (apply PropertyMap_value_In; assumption).
  assert (Hkey : In "PropagationRules" (PropertyMap.keys parameters))
    by (apply (in_map fst) in Hin; exact Hin).
  unfold create. destruct parameters as [|p parameters']; [destruct Hin|].
  set (parameters := p :: parameters') in *. cbn [PropertyMap.isEmpty negb].
  set (q := newNode cls "" ms).
  destruct (setParameters parameters q) as [q' ws] eqn:Hrun.
  unfold setParameters in Hrun. cbn [fst snd].
  destruct (setParameters_keys_spec _ _ _ _ _ Hrun)
    as (Hf & _ & _ & Hwrite & Hnot).
  assert (Hnames : forall q0, same_frame q q0 ->
            ~ In "par_PropagationRules" (map mname (members q0)) /\
            ~ In "algin_PropagationRules" (map mname (members q0))).
  { intros q0 Hq0. rewrite (same_frame_member_names _ _ Hq0). simpl.
    split; intros H; apply in_map_iff in H as (m & E & Hm);
      destruct (Hms m Hm); congruence. }
  assert (Hbase : In "par_PropagationRules" (propertyNames q)).
  { unfold propertyNames. apply in_or_app. left. simpl. tauto. }
  assert (Hpar : names_of "PropagationRules" "par_PropagationRules")
    by (left; reflexivity).
  assert (Hcan : ~ In (CannotSet "PropagationRules") ws).
  { intros Hc.
    destruct (setParameters_keys_cannot _ _ _ _ _ _ Hrun Hc)
      as (n & q0 & Hn & Hk & Hq0 & Hnone).
    destruct (Hnames q0 Hq0) as [Hp Ha]. rewrite Hval in Hnone.
    destruct Hk as [->| ->].
    - unfold setProperty in Hnone.
      change (QA_PAR +:+ "PropagationRules") with "par_PropagationRules"
        in Hnone.
      rewrite (find_member_None _ _ Hp) in Hnone. discriminate.
    - change (QA_IN +:+ "PropagationRules") with "algin_PropagationRules"
        in Hn.
      unfold propertyNames in Hn. apply in_app_or in Hn as [Hn|Hn].
      + simpl in Hn. repeat (destruct Hn as [Hn|Hn]; [discriminate|]).
        destruct Hn.
      + destruct (Hnames q (same_frame_refl q)) as [_ Ha']. auto. }
  split; [|split; [exact Hcan|]].
  - pose proof (Hwrite _ _ Hkey Hpar Hbase Hcan) as Hread.
    rewrite Hval in Hread. unfold property in Hread.
    destruct (Hnames q' Hf) as [Hp _].
    rewrite (find_member_None _ _ Hp) in Hread.
    cbn in Hread. injection Hread as Hread. exact Hread.
  - intros Hn. destruct (Hnot _ Hn) as [_ Hnone].
    apply (Hnone _ Hbase). exact Hpar.
Qed.

Lemma create_installs_the_rules_witness :
  let ms := [cell "algin_Array" TVector QInvalid; cell "par_Size" TInt (QInt 3)] in
  let pairs := [("Numbers", "Array")] in
  let parameters := [makePropagationRules pairs; ("Size", QInt 5)] in
  NoDup (PropertyMap.keys parameters) /\
  In (makePropagationRules pairs) parameters /\
  (forall m, In m ms -> mname m <> "par_PropagationRules" /\
                        mname m <> "algin_PropagationRules") /\
  getPropagationRules (fst (create "MovingAverage" ms parameters))
  = Rules.makePropagationRules pairs /\
  ~ In (CannotSet "PropagationRules")
       (snd (create "MovingAverage" ms parameters)) /\
  ~ In (NotAProperty "PropagationRules")
       (snd (create "MovingAverage" ms parameters)).
Proof.
  intros ms pairs parameters.
  assert (Hnd : NoDup (PropertyMap.keys parameters)).
  { apply NoDup_cons_2; [|apply NoDup_singleton].
    intros H. apply list_elem_of_In in H. destruct H as [H|[]]. discriminate. }
  assert (Hin : In (makePropagationRules pairs) parameters)
    by (left; reflexivity).
  assert (Hms : forall m, In m ms -> mname m <> "par_PropagationRules" /\
                                     mname m <> "algin_PropagationRules").
  { intros m [<-|[<-|[]]]; split; discriminate. }
  exact (conj Hnd (conj Hin (conj Hms
    (create_installs_the_rules "MovingAverage" ms parameters pairs
       Hnd Hin Hms)))).
Defined.
